(** * Post-build deployment helper (src/template/build/events/postbuild.py)

    A shallow embedding of the deploy-and-launch orchestrator: the file-system
    operations it performs through [pathlib] and [shutil], the termination
    wait, and the staged pipeline of [main], followed by the properties of
    the design that are established on it.

    Modelling conventions.
    - The file system is a tree: a node is a regular file (modification time
      and contents) or a directory (a finite map from entry names to nodes).
      Symbolic links, permissions and open-file locks are not modelled, so an
      operation raises exactly when the shape of the tree forces it to
      (missing parent, file where a directory is needed, and so on).
    - A path is the list of its components from the root, already resolved;
      [Path.resolve()] on such a path is the identity.  Strings given on the
      command line are parsed with POSIX syntax.
    - Python floats (seconds) are idealised as exact rationals.
    - Console output, subprocess calls and sleeps are recorded, in order, in
      an event log; the clock only advances through [time.sleep].
    - A Python function that mutates the world and may raise is a state
      transformer returning either a value or an exception. *)

From Stdlib Require Import QArith Qround Lqa.
From stdpp Require Import gmap strings list fin_maps.
Local Close Scope Q_scope.
Local Open Scope string_scope.
Local Open Scope list_scope.

(* ===================================================================== *)
(** * Part I: the model *)
(* ===================================================================== *)

(** ** Paths and names *)

Abbreviation path := (list string).

(** [Path.name]: the final component, empty for the root. *)
Definition name (p : path) : string := default "" (last p).

(** [Path.parent]: the root is its own parent. *)
Definition parent (p : path) : path := removelast p.

(** [p / s] for a string taken from [Path.name]: joining the empty string
    leaves the path unchanged. *)
Definition joinpath (p : path) (s : string) : path :=
  if decide (s = "") then p else p ++ [s].

(** [p / n] for an entry name [n] listed by the operating system. *)
Definition child (p : path) (n : string) : path := p ++ [n].

(** [str.lower()] on ASCII text. *)
Definition lower_ascii (c : Ascii.ascii) : Ascii.ascii :=
  let n := Ascii.nat_of_ascii c in
  if (65 <=? n)%nat && (n <=? 90)%nat then Ascii.ascii_of_nat (n + 32) else c.

Fixpoint lower (s : string) : string :=
  match s with
  | EmptyString => EmptyString
  | String c s' => String (lower_ascii c) (lower s')
  end.

(** Splitting a command-line string at the separators. *)
Definition slash : Ascii.ascii := Ascii.ascii_of_nat 47.

Fixpoint split_slash (s : string) : list string :=
  match s with
  | EmptyString => [""]
  | String c s' =>
      if Ascii.eqb c slash then "" :: split_slash s'
      else match split_slash s' with
           | h :: t => String c h :: t
           | [] => [String c ""]
           end
  end.

Definition parse (s : string) : path :=
  filter (λ x, x ≠ "" ∧ x ≠ ".") (split_slash s).

Definition is_absolute (s : string) : bool :=
  match s with
  | String c _ => Ascii.eqb c slash
  | EmptyString => false
  end.

(** [str(path)] *)
Definition str_path (p : path) : string :=
  match p with
  | [] => "/"
  | _ => foldr (λ x acc, "/" +:+ x +:+ acc) "" p
  end.

(** ** The file-system tree *)

#[warnings="-register-all"]
Inductive node :=
  | File (mtime : Z) (data : string)
  | Dir (children : gmap string node).

Fixpoint get (n : node) (p : path) : option node :=
  match p with
  | [] => Some n
  | x :: p' =>
      match n with
      | Dir ch => match ch !! x with Some c => get c p' | None => None end
      | File _ _ => None
      end
  end.

(** Bind the entry at [p] to [v]; the parent of [p] must be an existing
    directory, and the root itself cannot be rebound. *)
Fixpoint put (n : node) (p : path) (v : node) : option node :=
  match p with
  | [] => None
  | x :: p' =>
      match n with
      | File _ _ => None
      | Dir ch =>
          match p' with
          | [] => Some (Dir (<[x := v]> ch))
          | _ :: _ =>
              match ch !! x with
              | Some c =>
                  match put c p' v with
                  | Some c' => Some (Dir (<[x := c']> ch))
                  | None => None
                  end
              | None => None
              end
          end
      end
  end.

(** Unbind the entry at [p], which must exist and not be the root. *)
Fixpoint remove (n : node) (p : path) : option node :=
  match p with
  | [] => None
  | x :: p' =>
      match n with
      | File _ _ => None
      | Dir ch =>
          match ch !! x with
          | Some c =>
              match p' with
              | [] => Some (Dir (delete x ch))
              | _ :: _ =>
                  match remove c p' with
                  | Some c' => Some (Dir (<[x := c']> ch))
                  | None => None
                  end
              end
          | None => None
          end
      end
  end.

(** Create the directory [p] and every missing ancestor; fails when a
    component on the way is a regular file. *)
Fixpoint mkdirs (n : node) (p : path) : option node :=
  match n with
  | File _ _ => None
  | Dir ch =>
      match p with
      | [] => Some n
      | x :: p' =>
          match mkdirs (default (Dir ∅) (ch !! x)) p' with
          | Some c' => Some (Dir (<[x := c']> ch))
          | None => None
          end
      end
  end.

(** [Path.exists()], [Path.is_dir()], [Path.is_file()] *)
Definition exists_ (s : node) (p : path) : bool :=
  match get s p with Some _ => true | None => false end.

Definition is_dir (s : node) (p : path) : bool :=
  match get s p with Some (Dir _) => true | _ => false end.

Definition is_file (s : node) (p : path) : bool :=
  match get s p with Some (File _ _) => true | _ => false end.

(** [Path.stat().st_mtime] of a regular file *)
Definition mtime_of (s : node) (p : path) : Z :=
  match get s p with Some (File t _) => t | _ => 0%Z end.

(** The entry names of a directory, in the order the system lists them. *)
Definition listdir (s : node) (p : path) : list string :=
  match get s p with
  | Some (Dir ch) => (map_to_list ch).*1
  | _ => []
  end.

(** [Path.iterdir()]: the listed names, as paths below [p]. *)
Definition iterdir (s : node) (p : path) : list path :=
  child p <$> listdir s p.

(** [shutil.copy2(src, dst)]: [src] must be a regular file; a directory
    [dst] stands for the entry of the same base name inside it; source and
    destination must differ; the destination must not be a directory and its
    parent must exist.  Contents and modification time are carried over. *)
Definition copy2 (s : node) (src dst : path) : option node :=
  match get s src with
  | Some (File t d) =>
      let dst' := if is_dir s dst then joinpath dst (name src) else dst in
      if decide (src = dst') then None
      else if is_dir s dst' then None
      else put s dst' (File t d)
  | _ => None
  end.

(** [shutil.rmtree(p)]: [p] must be a directory. *)
Definition rmtree (s : node) (p : path) : option node :=
  if is_dir s p then remove s p else None.

(** [Path.unlink()]: [p] must be a regular file. *)
Definition unlink (s : node) (p : path) : option node :=
  if is_file s p then remove s p else None.

(** [shutil.copytree(src, dst)]: [src] must be a directory and [dst] must not
    exist; missing ancestors of [dst] are created; the tree below [src], as
    it is when the call starts, is reproduced at [dst]. *)
Definition copytree (s : node) (src dst : path) : option node :=
  match get s src with
  | Some (Dir ch) =>
      if exists_ s dst then None
      else match mkdirs s (parent dst) with
           | Some s' => put s' dst (Dir ch)
           | None => None
           end
  | _ => None
  end.

(** [Path.mkdir(parents=True, exist_ok=True)] *)
Definition mkdir_p (s : node) (p : path) : option node := mkdirs s p.

(** [find_subdir_case_insensitive(parent, name)].  It is only ever called on
    a path that is not a regular file. *)
Definition find_subdir_case_insensitive (s : node) (parent_ : path) (nm : string)
  : option path :=
  if negb (exists_ s parent_) then None
  else
    let name_lower := lower nm in
    List.find (λ item, is_dir s item && String.eqb (lower (name item)) name_lower)
              (iterdir s parent_).

(** ** The world, the event log and effectful computations *)

Inductive msg :=
  | MCleaning | MModsDirMissing | MFailedRemove (n : string) | MCleaned
  | MCopying (n : string) (dst : path)
  | MModNotFound (p : path)
  | MCopyingStructure (n : string)
  | MFailedCopy (n : string)
  | MModified (mtime : Z)
  | MSkipping (n : string)
  | MCopyingFile (n : string)
  | MCopyingStructured (n : string)
  | MCopyingFolder (n : string)
  | MTerminating (exe : string)
  | MStopped (exe : string)
  | MMayStillRun (exe : string)
  | MCopyingRequested
  | MCopyingMultiplayer
  | MMpModNotFound (s : string) | MMpModCopied | MMpModPresent
  | MStarterNotFound (s : string) | MStarterCopied | MStarterFailed
  | MStarterPresent
  | MCopyingS1API | MCopyingUnityExplorer
  | MTargetNotFound (p : path)
  | MStarterMissing | MMpModMissing
  | MUsingConfig | MBinary (s : string) | MPrefix (s : string)
  | MBinaryNotFound (s : string)
  | MCopyingBuilt
  | MSkipLaunch
  | MSummary (copied : nat)
  | MCompleted
  | MWaitingLaunch (d : Q)
  | MLaunching (cmd : list string)
  | MLaunchingStarter.

Inductive level := LInfo | LWarn | LError | LOk | LStep | LPrint.

Inductive event :=
  | Log (l : level) (m : msg)
  | Exec (cmd : list string) (env : list (string * string))
  | Popen (cmd : list string) (cwd : path) (env : list (string * string))
  | Slept (d : Q).

Record world := World { fs : node; now : Q; log : list event }.

(** What the host offers and the orchestrator cannot control: the platform,
    the working directory, whether the process probe reports the game as
    running at a given time, and the [wineserver] found on the search path. *)
Record platform := Platform {
  is_windows : bool;
  cwd : path;
  probe : Q → bool;
  which_wineserver : option string
}.

(** [Exit c] is [typer.Exit(code=c)]; [OSError] stands for any exception a
    file operation raises; [Diverged] marks a polling loop cut off by its
    iteration bound (shown below never to happen). *)
Inductive exn := OSError | Exit (code : Z) | Diverged.

Inductive res (A : Type) := Val (a : A) | Exc (e : exn).
Arguments Val {A} a.
Arguments Exc {A} e.

Definition M (A : Type) : Type := world → res A * world.

Definition ret {A} (a : A) : M A := λ w, (Val a, w).

Definition bind {A B} (m : M A) (k : A → M B) : M B :=
  λ w, match m w with
       | (Val a, w') => k a w'
       | (Exc e, w') => (Exc e, w')
       end.

Notation "'let*' x := m 'in' k" := (bind m (λ x, k))
  (at level 10, x name, m at level 100, k at level 200, only parsing).
Notation "m >> k" := (bind m (λ _, k))
  (at level 90, right associativity, only parsing).

Definition raise {A} (e : exn) : M A := λ w, (Exc e, w).

(** [try: m except Exception: h] *)
Definition try_ {A} (m : M A) (h : M A) : M A :=
  λ w, match m w with
       | (Exc _, w') => h w'
       | r => r
       end.

Definition emit (e : event) : M unit :=
  λ w, (Val tt, World (fs w) (now w) (log w ++ [e])).

Definition info (m : msg) : M unit := emit (Log LInfo m).
Definition warn (m : msg) : M unit := emit (Log LWarn m).
Definition error (m : msg) : M unit := emit (Log LError m).
Definition ok (m : msg) : M unit := emit (Log LOk m).
Definition step (m : msg) : M unit := emit (Log LStep m).
Definition print (m : msg) : M unit := emit (Log LPrint m).

(** Reading the file system, and performing an operation that may raise. *)
Definition test {A} (f : node → A) : M A := λ w, (Val (f (fs w)), w).

Definition fs_op (f : node → option node) : M unit :=
  λ w, match f (fs w) with
       | Some s' => (Val tt, World s' (now w) (log w))
       | None => (Exc OSError, w)
       end.

(** [time.time()] and [time.sleep(d)] *)
Definition time_ : M Q := λ w, (Val (now w), w).

Definition sleep (d : Q) : M unit :=
  λ w, (Val tt, World (fs w) (now w + d)%Q (log w ++ [Slept d])).

(** [subprocess.run(cmd, check=False)] *)
Definition run (cmd : list string) (env : list (string * string)) : M unit :=
  emit (Exec cmd env).

Fixpoint for_each {A} (l : list A) (body : A → M unit) : M unit :=
  match l with
  | [] => ret tt
  | x :: l' => body x >> for_each l' body
  end.

(** A loop that adds one to a counter for each iteration whose body
    returns [True]. *)
Fixpoint count_each {A} (l : list A) (body : A → M bool) (acc : nat) : M nat :=
  match l with
  | [] => ret acc
  | x :: l' =>
      let* b := body x in
      count_each l' body (if b then S acc else acc)
  end.

(** Truth value of an [Optional[str]] in a condition. *)
Definition truthy (o : option string) : bool :=
  match o with
  | Some s => negb (String.eqb s "")
  | None => false
  end.

(** ** The copy operations *)

(** [clean_mods_dir] *)
Definition clean_mods_dir (mods_dir_path : path) : M unit :=
  step MCleaning >>
  let* e := test (λ s, exists_ s mods_dir_path) in
  if negb e then info MModsDirMissing
  else
    (let* items := test (λ s, iterdir s mods_dir_path) in
     for_each items (λ item,
       try_ (let* d := test (λ s, is_dir s item) in
             if d then fs_op (λ s, rmtree s item)
             else fs_op (λ s, unlink s item))
            (warn (MFailedRemove (name item))))) >>
    ok MCleaned.

(** [ensure_dir] *)
Definition ensure_dir (p : path) : M unit := fs_op (λ s, mkdir_p s p).

(** The idiom shared by [copy_item], [copy_structured_mod] and
    [copy_mod_item] for a directory: remove the target if it exists, then
    copy the tree. *)
Definition replace_dir (src target : path) : M unit :=
  let* e := test (λ s, exists_ s target) in
  (if e then fs_op (λ s, rmtree s target) else ret tt) >>
  fs_op (λ s, copytree s src target).

(** [copy_item], as called without a progress bar. *)
Definition copy_item (src dst_dir : path) : M unit :=
  let target := joinpath dst_dir (name src) in
  info (MCopying (name src) dst_dir) >>
  let* d := test (λ s, is_dir s src) in
  if d then replace_dir src target
  else fs_op (λ s, copy2 s src target).

(** The body shared by the three loops of [copy_structured_mod]: copy one
    entry of a sub-root into the directory [dst], turning any exception into
    a warning. *)
Definition copy_entry (dst item : path) : M unit :=
  try_ (let* f := test (λ s, is_file s item) in
        if f then fs_op (λ s, copy2 s item (child dst (name item)))
        else
          let* d := test (λ s, is_dir s item) in
          if d then replace_dir item (child dst (name item))
          else ret tt)
       (warn (MFailedCopy (name item))).

(** [copy_structured_mod] *)
Definition copy_structured_mod (mod_path dst_mods_dir : path) : M unit :=
  let* e := test (λ s, exists_ s mod_path) in
  if negb e then warn (MModNotFound mod_path)
  else
    info (MCopyingStructure (name mod_path)) >>
    (let* mods_subdir := test (λ s, find_subdir_case_insensitive s mod_path "Mods") in
     match mods_subdir with
     | Some sub =>
         let* items := test (λ s, iterdir s sub) in
         for_each items (copy_entry dst_mods_dir)
     | None => ret tt
     end) >>
    (let* plugins_subdir := test (λ s, find_subdir_case_insensitive s mod_path "Plugins") in
     match plugins_subdir with
     | Some sub =>
         let plugins_dst := joinpath (parent dst_mods_dir) "Plugins" in
         fs_op (λ s, mkdir_p s plugins_dst) >>
         let* items := test (λ s, iterdir s sub) in
         for_each items (copy_entry plugins_dst)
     | None => ret tt
     end) >>
    (let* userlibs_subdir := test (λ s, find_subdir_case_insensitive s mod_path "UserLibs") in
     match userlibs_subdir with
     | Some sub =>
         let userlibs_dst := joinpath (parent dst_mods_dir) "UserLibs" in
         fs_op (λ s, mkdir_p s userlibs_dst) >>
         let* items := test (λ s, iterdir s sub) in
         for_each items (copy_entry userlibs_dst)
     | None => ret tt
     end).

(** The value of [has_structure] in [copy_mod_item]. *)
Definition has_structure (s : node) (mod_path : path) : bool :=
  existsb (λ subdir, bool_decide (find_subdir_case_insensitive s mod_path subdir ≠ None))
          ["Mods"; "Plugins"; "UserLibs"].

(** The value of [has_existing] in [copy_mod_item]. *)
Definition has_existing (s : node) (dst_dir mods_subdir : path) : bool :=
  existsb (λ item, exists_ s (child dst_dir (name item))) (iterdir s mods_subdir).

(** [copy_mod_item]: [True] if copied, [False] if skipped. *)
Definition copy_mod_item (mod_path dst_dir : path)
    (skip_if_exists show_timestamp : bool) : M bool :=
  let* e := test (λ s, exists_ s mod_path) in
  if negb e then warn (MModNotFound mod_path) >> ret false
  else
    let* f := test (λ s, is_file s mod_path) in
    (if show_timestamp && f
     then let* t := test (λ s, mtime_of s mod_path) in info (MModified t)
     else ret tt) >>
    if f then
      let target := joinpath dst_dir (name mod_path) in
      let* te := test (λ s, exists_ s target) in
      if skip_if_exists && te then info (MSkipping (name mod_path)) >> ret false
      else
        info (MCopyingFile (name mod_path)) >>
        try_ (fs_op (λ s, copy2 s mod_path target) >> ret true)
             (warn (MFailedCopy (name mod_path)) >> ret false)
    else
      let* structured := test (λ s, has_structure s mod_path) in
      if structured then
        let* skip :=
          (if skip_if_exists then
             let* mods_subdir :=
               test (λ s, find_subdir_case_insensitive s mod_path "Mods") in
             match mods_subdir with
             | Some sub => test (λ s, has_existing s dst_dir sub)
             | None => ret false
             end
           else ret false) in
        if skip then info (MSkipping (name mod_path)) >> ret false
        else
          info (MCopyingStructured (name mod_path)) >>
          copy_structured_mod mod_path dst_dir >>
          ret true
      else
        let target := joinpath dst_dir (name mod_path) in
        let* te := test (λ s, exists_ s target) in
        if skip_if_exists && te then info (MSkipping (name mod_path)) >> ret false
        else
          info (MCopyingFolder (name mod_path)) >>
          try_ (replace_dir mod_path target >> ret true)
               (warn (MFailedCopy (name mod_path)) >> ret false).

(** ** Process control *)

Definition Qltb (a b : Q) : bool := if Qlt_le_dec a b then true else false.

(** The margin added to the requested wait, the polling interval and the
    pause after asking the Wine server to shut down. *)
Definition safety_margin : Q := 2.
Definition poll_interval : Q := 1 # 5.
Definition wineserver_grace : Q := 1 # 2.

Section Host.
Variable host : platform.

(** [Path(s).resolve()] for a command-line string. *)
Definition resolve (s : string) : path :=
  if is_absolute s then parse s else (cwd host ++ parse s)%list.

(** [_find_wineserver] *)
Definition find_wineserver (wine_prefix : option string) : M (option string) :=
  let* proton :=
    (if truthy wine_prefix then
       let proton_wineserver :=
         (resolve (default "" wine_prefix) ++ ["dist"; "bin"; "wineserver"])%list in
       let* e := test (λ s, exists_ s proton_wineserver) in
       ret (if e then Some (str_path proton_wineserver) else None)
     else ret None) in
  match proton with
  | Some p => ret (Some p)
  | None =>
      run ["which"; "wineserver"] [] >>
      ret (match which_wineserver host with
           | Some p => if String.eqb p "" then None else Some p
           | None => None
           end)
  end.

(** [is_running]: what the process listing reports at the current time. *)
Definition is_running (exe_name : string) : M bool :=
  (if is_windows host
   then run ["tasklist"; "/FI"; "IMAGENAME eq " +:+ exe_name] []
   else run ["pgrep"; "-a"; "-f"; exe_name] []) >>
  let* t := time_ in
  ret (probe host t).

(** The [while time.time() < deadline] loop of [wait_for_exit]; [true] when
    the process was seen to have stopped, [false] when the deadline passed. *)
Fixpoint wait_loop (fuel : nat) (exe_name : string) (deadline : Q) : M bool :=
  match fuel with
  | O => raise Diverged
  | S fuel' =>
      let* t := time_ in
      if Qltb t deadline then
        let* r := is_running exe_name in
        if negb r then ok (MStopped exe_name) >> ret true
        else sleep poll_interval >> wait_loop fuel' exe_name deadline
      else ret false
  end.

(** A bound on the number of times the loop condition is evaluated when the
    deadline is [d] seconds away. *)
Definition polls (d : Q) : nat := S (Z.to_nat (Qceiling (d / poll_interval))).

(** [wait_for_exit] *)
Definition wait_for_exit (exe_name : string) (wait_seconds : Q) : M unit :=
  let* t := time_ in
  let deadline := (t + wait_seconds + safety_margin)%Q in
  let* stopped := wait_loop (polls (wait_seconds + safety_margin)) exe_name deadline in
  if stopped then ret tt else warn (MMayStillRun exe_name).

(** [kill_processes] *)
Definition kill_processes (exe_name : string) (wait_seconds : Q)
    (wine_prefix : option string) : M unit :=
  step (MTerminating exe_name) >>
  (if is_windows host then run ["taskkill"; "/F"; "/IM"; exe_name] []
   else
     let* wineserver := find_wineserver wine_prefix in
     (match wineserver with
      | Some ws =>
          run [ws; "-k"]
              (if truthy wine_prefix
               then [("WINEPREFIX", default "" wine_prefix)] else []) >>
          sleep wineserver_grace
      | None => ret tt
      end) >>
     run ["pkill"; "-f"; exe_name] []) >>
  wait_for_exit exe_name wait_seconds.

(** [launch_game] *)
Definition launch_game (exe_path : path) (args : list string) (use_wine : bool)
    (wine_binary : string) (wine_prefix : option string) (working_dir : path)
  : M unit :=
  let env :=
    if use_wine then
      ((if truthy wine_prefix then [("WINEPREFIX", default "" wine_prefix)] else [])
       ++ [("WINEDLLOVERRIDES", "version=n,b")])%list
    else [] in
  let cmd :=
    if use_wine then wine_binary :: str_path exe_path :: args
    else str_path exe_path :: args in
  step (MLaunching cmd) >>
  emit (Popen cmd working_dir env).

(** ** The three families of add-ons *)

(** The path of a requested mod: relative entries are taken from the
    project directory. *)
Definition entry_path (base : path) (mod_entry : string) : path :=
  if negb (is_absolute mod_entry) then (base ++ parse mod_entry)%list
  else parse mod_entry.

(** The first loop of [copy_user_mods]: resolve each entry against the
    project directory and keep those that exist, warning about the others. *)
Fixpoint collect_valid (base : path) (mod_list : list string)
    (valid_mods : list path) : M (list path) :=
  match mod_list with
  | [] => ret valid_mods
  | mod_entry :: rest =>
      let mod_path := entry_path base mod_entry in
      let* e := test (λ s, exists_ s mod_path) in
      if negb e then warn (MModNotFound mod_path) >> collect_valid base rest valid_mods
      else collect_valid base rest (valid_mods ++ [mod_path])%list
  end.

(** [copy_user_mods] *)
Definition copy_user_mods (mod_list : list string) (base mods_dir_path : path)
    (force_copy show_timestamps : bool) : M nat :=
  match mod_list with
  | [] => ret 0%nat
  | _ =>
      step MCopyingRequested >>
      let* valid_mods := collect_valid base mod_list [] in
      count_each valid_mods
        (λ mod_path,
           copy_mod_item mod_path mods_dir_path (negb force_copy) show_timestamps)
        0%nat
  end.

(** [copy_multiplayer_mods] *)
Definition copy_multiplayer_mods (mp_mod mp_starter : string)
    (mods_dir_path : path) (force_copy : bool) : M nat :=
  step MCopyingMultiplayer >>
  let mp_mod_path := resolve mp_mod in
  let* e := test (λ s, exists_ s mp_mod_path) in
  let* count :=
    (if negb e then warn (MMpModNotFound mp_mod) >> ret 0%nat
     else
       let* copied := copy_mod_item mp_mod_path mods_dir_path (negb force_copy) false in
       if copied then ok MMpModCopied >> ret 1%nat
       else ok MMpModPresent >> ret 0%nat) in
  let starter_src := resolve mp_starter in
  let* e' := test (λ s, exists_ s starter_src) in
  if negb e' then warn (MStarterNotFound mp_starter) >> ret count
  else
    let starter_dst := joinpath (parent mods_dir_path) (name starter_src) in
    let* de := test (λ s, exists_ s starter_dst) in
    if negb de || force_copy then
      try_ (fs_op (λ s, copy2 s starter_src starter_dst) >>
            ok MStarterCopied >> ret (S count))
           (warn MStarterFailed >> ret count)
    else ok MStarterPresent >> ret count.

(** [copy_library_mods] *)
Definition copy_library_mods (s1api_path unity_explorer_path : option string)
    (mods_dir_path : path) (force_copy : bool) : M nat :=
  let* count :=
    (if truthy s1api_path then
       step MCopyingS1API >>
       let* copied :=
         copy_mod_item (resolve (default "" s1api_path)) mods_dir_path
                       (negb force_copy) false in
       ret (if copied then 1%nat else 0%nat)
     else ret 0%nat) in
  if truthy unity_explorer_path then
    step MCopyingUnityExplorer >>
    let* copied :=
      copy_mod_item (resolve (default "" unity_explorer_path)) mods_dir_path
                    (negb force_copy) false in
    ret (if copied then S count else count)
  else ret count.

(** ** The pipeline *)

Record config := Config {
  target : string;
  mods_dir : string;
  exe_path : string;
  project_dir : string;
  wait_seconds : Q;
  launch_delay : Q;
  mod_ : list string;
  mp_mod : option string;
  mp_starter : option string;
  s1api_path : option string;
  unity_explorer_path : option string;
  debug : bool;
  clean : bool;
  no_launch : bool;
  force_copy : bool;
  show_timestamps : bool;
  wine_binary : string;
  wine_prefix : option string
}.

(** The multiplayer pairing check of [main]: the value of [multiplayer], or
    the fatal exit when one input is given without the other. *)
Definition check_pairing (c : config) : M bool :=
  let multiplayer := truthy (mp_mod c) && truthy (mp_starter c) in
  if truthy (mp_mod c) && negb (truthy (mp_starter c))
  then error MStarterMissing >> raise (Exit 1)
  else if truthy (mp_starter c) && negb (truthy (mp_mod c))
  then error MMpModMissing >> raise (Exit 1)
  else ret multiplayer.

(** The end of [main]: the summary lines. *)
Definition summary (total_copied : nat) : M unit :=
  print (MSummary total_copied) >> print MCompleted.

(** The add-on stages of [main]: user mods, the multiplayer pair and the
    library mods; the result is their contribution to [total_copied]. *)
Definition addon_stages (c : config) (multiplayer : bool) : M nat :=
  let base := resolve (project_dir c) in
  let mods_dir_path := resolve (mods_dir c) in
  let* n1 := copy_user_mods (mod_ c) base mods_dir_path
                            (force_copy c) (show_timestamps c) in
  let* n2 :=
    (if multiplayer
     then copy_multiplayer_mods (default "" (mp_mod c)) (default "" (mp_starter c))
                                mods_dir_path (force_copy c)
     else ret 0%nat) in
  let* n3 := copy_library_mods (s1api_path c) (unity_explorer_path c)
                               mods_dir_path (force_copy c) in
  ret (n1 + n2 + n3)%nat.

(** The copy stages of [main], from the add-ons to the built mod; the
    result is [total_copied]. *)
Definition copy_stages (c : config) (multiplayer : bool) : M nat :=
  let* n := addon_stages c multiplayer in
  step MCopyingBuilt >>
  copy_item (resolve (target c)) (resolve (mods_dir c)) >>
  ret (n + 1)%nat.

(** [main] *)
Definition main (c : config) : M unit :=
  let mods_dir_path := resolve (mods_dir c) in
  let target_path := resolve (target c) in
  let exe_path_obj := resolve (exe_path c) in
  let exe_name := name exe_path_obj in
  let use_wine := negb (is_windows host) in
  let* te := test (λ s, exists_ s target_path) in
  if negb te then error (MTargetNotFound target_path) >> raise (Exit 1)
  else
    let* multiplayer := check_pairing c in
    (if use_wine then
       info MUsingConfig >>
       info (MBinary (wine_binary c)) >>
       info (MPrefix (default "(default)" (if truthy (wine_prefix c)
                                            then wine_prefix c else None))) >>
       let* be := test (λ s, exists_ s (resolve (wine_binary c))) in
       if negb be then error (MBinaryNotFound (wine_binary c)) >> raise (Exit 1)
       else ret tt
     else ret tt) >>
    ensure_dir mods_dir_path >>
    kill_processes exe_name (wait_seconds c) (wine_prefix c) >>
    (if clean c then clean_mods_dir mods_dir_path else ret tt) >>
    let* total_copied := copy_stages c multiplayer in
    if no_launch c then info MSkipLaunch >> summary total_copied
    else
      (if Qltb 0 (launch_delay c)
       then step (MWaitingLaunch (launch_delay c)) >> sleep (launch_delay c)
       else ret tt) >>
      let launch_args := if debug c then ["--melonloader.debug"] else [] in
      (if negb multiplayer then
         launch_game exe_path_obj launch_args use_wine (wine_binary c)
                     (wine_prefix c) (parent exe_path_obj)
       else
         step MLaunchingStarter >>
         let starter_path :=
           joinpath (parent mods_dir_path)
                    (name (parse (default "" (mp_starter c)))) in
         if is_windows host then
           emit (Popen ("cmd" :: "/k" :: str_path starter_path :: launch_args)
                       (parent mods_dir_path) [])
         else emit (Popen [str_path starter_path] (parent mods_dir_path) [])) >>
      summary total_copied.

End Host.

(** ** Relations used in the statements *)

(** The add-ons a run classifies: the requested mods, the multiplayer mod
    when the pair is given, and the two library mods. *)
Definition addon_sources (host : platform) (c : config) : list path :=
  (entry_path (resolve host (project_dir c)) <$> mod_ c)
  ++ (if truthy (mp_mod c) && truthy (mp_starter c)
      then [resolve host (default "" (mp_mod c))] else [])
  ++ (if truthy (s1api_path c)
      then [resolve host (default "" (s1api_path c))] else [])
  ++ (if truthy (unity_explorer_path c)
      then [resolve host (default "" (unity_explorer_path c))] else []).

(** Two paths are unrelated when neither lies on the way to the other. *)
Definition unrelated (p q : path) : Prop := ¬ p `prefix_of` q ∧ ¬ q `prefix_of` p.

(** The change from [s] to [s'] is confined to [g] when nothing outside the
    subtree at [g] is altered, except that directories on the way to [g] may
    have been created or have changed contents: a path unrelated to [g]
    reads the same, and a path above [g] keeps its kind. *)
Definition confined (g : path) (s s' : node) : Prop :=
  ∀ q, ¬ g `prefix_of` q →
    (¬ q `prefix_of` g → get s' q = get s q)
    ∧ is_file s' q = is_file s q
    ∧ (is_dir s q = true → is_dir s' q = true).

(** The change is strictly inside [g]: as [confined], and [g] itself keeps
    its kind too. *)
Definition inside (g : path) (s s' : node) : Prop :=
  ∀ q, ¬ (g `prefix_of` q ∧ q ≠ g) →
    (¬ q `prefix_of` g → get s' q = get s q)
    ∧ is_file s' q = is_file s q
    ∧ (is_dir s q = true → is_dir s' q = true).

(** Nothing is lost from [s] to [s']: what exists still exists and
    directories are still directories. *)
Definition grows (s s' : node) : Prop :=
  ∀ q, (exists_ s q = true → exists_ s' q = true)
       ∧ (is_dir s q = true → is_dir s' q = true).

(** The same, for the paths of at most [d] components. *)
Definition safe (d : nat) (s s' : node) : Prop :=
  ∀ q, (length q ≤ d)%nat →
       (exists_ s q = true → exists_ s' q = true)
       ∧ (is_dir s q = true → is_dir s' q = true).

(** No directory appears at [q]. *)
Definition no_new_dir (q : path) (s s' : node) : Prop :=
  is_dir s' q = true → is_dir s q = true.

(** Started in [w], the computation takes the file system to one related
    to it by [R], whatever its result. *)
Definition effect_at {A} (R : node → node → Prop) (m : M A) (w : world) : Prop :=
  ∀ r w', m w = (r, w') → R (fs w) (fs w').

(** What a deployment step into the mods directory [g/m] may do, given the
    sources [srcs] it classifies: it only changes the game directory [g];
    under the side condition [ok] it keeps every entry of [g] and of the mods
    directory; and no directory appears as a sibling [g/nm] of the mods
    directory unless a source has a sub-root of that name. *)
Definition deploys (g : path) (m : string) (srcs : list path) (ok : Prop)
    (s s' : node) : Prop :=
  confined g s s'
  ∧ (ok → safe (S (S (length g))) s s')
  ∧ (∀ nm, (∀ p, p ∈ srcs → find_subdir_case_insensitive s p nm = None) →
           nm ≠ m → no_new_dir (child g nm) s s').

(** The test by which [copy_mod_item] takes an existing add-on to be already
    deployed: for a single file or a flat folder, the entry of the same name
    exists in the destination; for a structured tree, some entry of its
    "Mods" sub-root does. *)
Definition present (s : node) (p dst : path) : bool :=
  if is_file s p then exists_ s (joinpath dst (name p))
  else if has_structure s p then
    match find_subdir_case_insensitive s p "Mods" with
    | Some sub => has_existing s dst sub
    | None => false
    end
  else exists_ s (joinpath dst (name p)).

(** The line that announces the copy of an add-on, by layout, and the
    optional time stamp line before it. *)
Definition copying_msg (s : node) (p : path) : msg :=
  if is_file s p then MCopyingFile (name p)
  else if has_structure s p then MCopyingStructured (name p)
  else MCopyingFolder (name p).

Definition stamp (s : node) (p : path) (show_timestamp : bool) : list event :=
  if show_timestamp && is_file s p then [Log LInfo (MModified (mtime_of s p))]
  else [].

(** One pass of the removal loop of [clean_mods_dir]. *)
Definition remove_entry (item : path) : M unit :=
  try_ (let* d := test (λ s, is_dir s item) in
        if d then fs_op (λ s, rmtree s item)
        else fs_op (λ s, unlink s item))
       (warn (MFailedRemove (name item))).

(** Started in [w], the computation only adds events to the log, and every
    event it adds satisfies [P], however it ends. *)
Definition adds {A} (P : event → Prop) (m : M A) (w : world) : Prop :=
  ∀ r w', m w = (r, w') → ∃ evs, log w' = log w ++ evs ∧ Forall P evs.

(** The same, with a condition [Q] on the result and the events added. *)
Definition logs {A} (Q : res A → list event → Prop) (m : M A) (w : world) : Prop :=
  ∀ r w', m w = (r, w') → ∃ evs, log w' = log w ++ evs ∧ Q r evs.

(** Kinds of events. *)
Definition is_log (e : event) : Prop :=
  match e with Log _ _ => True | _ => False end.

Definition launches (e : event) : Prop :=
  match e with Popen _ _ _ => True | _ => False end.

Definition command_of (e : event) : option string :=
  match e with Exec (c :: _) _ => Some c | _ => None end.

(** How a run of [main] may end, as seen in the events [evs] it logs: with
    the game launched as the last thing before the two summary lines, or
    with nothing launched at all. *)
Definition launch_outcome (c : config) (r : res unit) (evs : list event) : Prop :=
  (r = Val tt ∧ no_launch c = false
   ∧ ∃ pre cmd dir env n,
       evs = pre ++ [Popen cmd dir env; Log LPrint (MSummary n); Log LPrint MCompleted]
       ∧ Forall (λ e, ¬ launches e) pre)
  ∨ ((r ≠ Val tt ∨ no_launch c = true) ∧ Forall (λ e, ¬ launches e) evs).

(** The external commands of each platform: an event that runs a command
    runs one of these. *)
Definition windows_only (e : event) : Prop :=
  match e with
  | Exec cmd _ => head cmd = Some "taskkill" ∨ head cmd = Some "tasklist"
  | _ => True
  end.

Definition unix_only (e : event) : Prop :=
  match e with
  | Exec cmd _ =>
      head cmd = Some "which" ∨ head cmd = Some "pkill" ∨ head cmd = Some "pgrep"
      ∨ ∃ ws, cmd = [ws; "-k"]
  | _ => True
  end.

(** The configuration [c] with the [debug] flag set to [b]. *)
Definition with_debug (b : bool) (c : config) : config :=
  Config (target c) (mods_dir c) (exe_path c) (project_dir c) (wait_seconds c)
         (launch_delay c) (mod_ c) (mp_mod c) (mp_starter c) (s1api_path c)
         (unity_explorer_path c) b (clean c) (no_launch c) (force_copy c)
         (show_timestamps c) (wine_binary c) (wine_prefix c).

(** A structured add-on is well rooted when it has a "Mods" sub-root that
    holds at least one entry. *)
Definition well_rooted (s : node) (p : path) : Prop :=
  is_dir s p = true → has_structure s p = true →
  ∃ sub, find_subdir_case_insensitive s p "Mods" = Some sub ∧ iterdir s sub ≠ [].

(** An add-on that exists counts as deployed in [dst]. *)
Definition deployed (s : node) (dst p : path) : Prop :=
  exists_ s p = true → present s p dst = true.

(** The multiplayer starter [src], if it exists, has an entry of its name
    in [dst_dir], unless it is not a regular file (and so cannot be
    copied). *)
Definition starter_placed (s : node) (dst_dir src : path) : Prop :=
  exists_ s src = true →
  exists_ s (joinpath dst_dir (name src)) = true ∨ is_file s src = false.

(** Started in [w], the computation returns [v], leaves the file system as
    it is and only adds events to the log, the last of them being [tail]. *)
Definition quiet {A} (m : M A) (v : A) (tail : list event) (w : world) : Prop :=
  ∃ w' evs, m w = (Val v, w') ∧ fs w' = fs w ∧ log w' = log w ++ evs ++ tail.

(** A computation is determined by the file system when its result, the
    tree it leaves and the events it adds depend on nothing else, and it
    leaves the clock alone. *)
Definition fs_det {A} (m : M A) : Prop :=
  ∀ w w', fs w = fs w' →
    ∃ r s evs, m w = (r, World s (now w) (log w ++ evs))
               ∧ m w' = (r, World s (now w') (log w' ++ evs)).

(** ** Concrete hosts, trees and configurations *)

Definition dir_of (l : list (string * node)) : node := Dir (list_to_map l).

(** A Linux host started in [/proj]; the game is never reported running. *)
Definition host_idle : platform :=
  Platform false ["proj"] (λ _, false) None.

(** The same host with a game process that never goes away. *)
Definition host_stuck : platform :=
  Platform false ["proj"] (λ _, true) None.

(** [AddonA/] with [Mods/Foo.dll] and [Plugins/Bar.dll], next to an empty
    destination [D/Mods]. *)
Definition fs_addon_a (foo bar : node) : node :=
  dir_of [("AddonA", dir_of [("Mods", dir_of [("Foo.dll", foo)]);
                             ("Plugins", dir_of [("Bar.dll", bar)])]);
          ("D", dir_of [("Mods", dir_of [])])].

(** [X/] holds a directory [MODS]; [Y/] holds a regular file [mods]. *)
Definition fs_case : node :=
  dir_of [("X", dir_of [("MODS", dir_of [("a.dll", File 0 "a")])]);
          ("Y", dir_of [("mods", File 0 "not a root")])].

(** A structured add-on with a "Plugins" root, and a destination where a
    regular file named [Plugins] stands next to the mods directory. *)
Definition fs_blocked : node :=
  dir_of [("AddonA", dir_of [("Plugins", dir_of [("Bar.dll", File 2 "bar")])]);
          ("D", dir_of [("Mods", dir_of []); ("Plugins", File 0 "in the way")])].

(** A structured add-on none of whose entries can be copied: the file
    [X.dll] meets a directory [X.dll] that holds a directory [X.dll], and
    the directory [Y] meets a regular file [Y]. *)
Definition fs_all_fail : node :=
  dir_of [("AddonB", dir_of [("Mods", dir_of [("X.dll", File 1 "x");
                                              ("Y", dir_of [("y.txt", File 1 "y")])])]);
          ("D", dir_of [("Mods", dir_of [("X.dll", dir_of [("X.dll", dir_of [])]);
                                         ("Y", File 0 "a file")])])].

(** A structured add-on with only a "Plugins" root, already deployed. *)
Definition fs_plugins_only : node :=
  dir_of [("AddonP", dir_of [("Plugins", dir_of [("Bar.dll", File 2 "bar")])]);
          ("D", dir_of [("Mods", dir_of [("AddonP", dir_of [])]);
                        ("Plugins", dir_of [("Bar.dll", File 2 "bar")])])].

(** A single-file add-on whose older copy is already in the mods
    directory. *)
Definition fs_old_copy : node :=
  dir_of [("proj", dir_of [("extra.dll", File 5 "new")]);
          ("game", dir_of [("Mods", dir_of [("extra.dll", File 4 "old")])])].

(** A built mod file, and a mods directory where a directory of the same
    name already stands. *)
Definition fs_dir_in_place : node :=
  dir_of [("proj", dir_of [("bin", dir_of [("MyMod.dll", File 7 "built")])]);
          ("game", dir_of [("Mods", dir_of [("MyMod.dll",
                                             dir_of [("old.txt", File 1 "old")])])])].

(** A project with a built mod, a Wine binary and a game directory. *)
Definition fs_project : node :=
  dir_of [("proj", dir_of [("bin", dir_of [("MyMod.dll", File 7 "built")])]);
          ("usr", dir_of [("bin", dir_of [("wine", File 1 "wine")])]);
          ("game", dir_of [("Game.exe", File 2 "exe")])].

(** The project with, in addition, a flat add-on folder [extras/Tool] and
    an existing mods directory. *)
Definition fs_with_tool : node :=
  dir_of [("proj", dir_of [("bin", dir_of [("MyMod.dll", File 7 "built")]);
                           ("extras", dir_of [("Tool", dir_of [("tool.dll", File 3 "tool")])])]);
          ("usr", dir_of [("bin", dir_of [("wine", File 1 "wine")])]);
          ("game", dir_of [("Game.exe", File 2 "exe"); ("Mods", dir_of [])])].

(** The project with a structured add-on [extras/AddonA], holding
    [Mods/Foo.dll] and [Plugins/Bar.dll], and one [extras/AddonP] that has
    only a "Plugins" root. *)
Definition fs_with_addons : node :=
  dir_of [("proj", dir_of [("bin", dir_of [("MyMod.dll", File 7 "built")]);
                           ("extras",
                            dir_of [("AddonA",
                                     dir_of [("Mods", dir_of [("Foo.dll", File 1 "foo")]);
                                             ("Plugins", dir_of [("Bar.dll", File 2 "bar")])]);
                                    ("AddonP",
                                     dir_of [("Plugins", dir_of [("Baz.dll", File 3 "baz")])])])]);
          ("usr", dir_of [("bin", dir_of [("wine", File 1 "wine")])]);
          ("game", dir_of [("Game.exe", File 2 "exe")])].

Definition cfg_with_mods (mods : list string) (force : bool) : config :=
  Config "bin/MyMod.dll" "/game/Mods" "/game/Game.exe" "." 1 0 mods
         None None None None false false true force false "/usr/bin/wine" None.

(** A path that names nothing in [fs_project], and a mod list. *)
Definition missing_mod : path := ["proj"; "missing.dll"].

Definition cfg_basic : config :=
  Config "bin/MyMod.dll" "/game/Mods" "/game/Game.exe" "." 1 0 []
         None None None None false false true false false "/usr/bin/wine" None.

Definition cfg_with_mp (m st : option string) : config :=
  Config "bin/MyMod.dll" "/game/Mods" "/game/Game.exe" "." 1 0 []
         m st None None false false true false false "/usr/bin/wine" None.

(** [AddonA/] with [Mods/Foo.dll] and [Plugins/Bar.dll], and a mods
    directory [D/Mods] that already holds another mod. *)
Definition fs_merge : node :=
  dir_of [("AddonA", dir_of [("Mods", dir_of [("Foo.dll", File 1 "foo")]);
                             ("Plugins", dir_of [("Bar.dll", File 2 "bar")])]);
          ("D", dir_of [("Mods", dir_of [("Old.dll", File 0 "old")])])].

(** A multiplayer mod and its starter script in the project, and a game
    directory with an empty mods directory. *)
Definition fs_multiplayer : node :=
  dir_of [("proj", dir_of [("mp", dir_of [("MpMod.dll", File 4 "mp");
                                          ("start.bat", File 5 "start")])]);
          ("game", dir_of [("Mods", dir_of [])])].

(** As [cfg_basic], but the game is launched, with the debug flag. *)
Definition cfg_launch : config :=
  Config "bin/MyMod.dll" "/game/Mods" "/game/Game.exe" "." 1 0 []
         None None None None true false false false false "/usr/bin/wine" None.

Definition world_of (s : node) : world := World s 0 [].

(* ===================================================================== *)
(** * Part II: properties *)
(* ===================================================================== *)

(** ** Paths *)

Lemma name_child (p : path) (n : string) : name (child p n) = n.
Proof. unfold name, child. by rewrite last_snoc. Qed.

Lemma parent_child (p : path) (n : string) : parent (child p n) = p.
Proof. unfold parent, child. apply removelast_last. Qed.

Lemma joinpath_child (p : path) (n : string) : n ≠ "" → joinpath p n = child p n.
Proof. intros Hn. unfold joinpath. by destruct (decide (n = "")). Qed.

Lemma unrelated_sym p q : unrelated p q → unrelated q p.
Proof. intros [??]; by split. Qed.

Lemma prefix_app_cases (p q r : path) :
  p `prefix_of` q ++ r → p `prefix_of` q ∨ q `prefix_of` p.
Proof.
  revert q. induction p as [|x p IH]; intros q Hp.
  - left. apply prefix_nil.
  - destruct q as [|y q].
    + right. apply prefix_nil.
    + destruct Hp as [k Hk]. simpl in Hk. injection Hk as -> Hk.
      destruct (IH q) as [H|H].
      * exists k. exact Hk.
      * left. by apply prefix_cons.
      * right. by apply prefix_cons.
Qed.

Lemma unrelated_app_l (p q r : path) : unrelated p q → unrelated (p ++ r) q.
Proof.
  intros [H1 H2]. split.
  - intros [k Hk]. apply H1. exists (r ++ k). by rewrite Hk, <- (assoc_L (++)).
  - intros H. destruct (prefix_app_cases _ _ _ H); tauto.
Qed.

Lemma unrelated_app_r (p q r : path) : unrelated p q → unrelated p (q ++ r).
Proof. intros H. apply unrelated_sym, unrelated_app_l, unrelated_sym, H. Qed.

Lemma unrelated_child (p : path) (a b : string) : a ≠ b → unrelated (child p a) (child p b).
Proof.
  unfold child. intros Hab. split; intros [k Hk].
  - rewrite <- (assoc_L (++)) in Hk. apply app_inv_head in Hk. simpl in Hk. congruence.
  - rewrite <- (assoc_L (++)) in Hk. apply app_inv_head in Hk. simpl in Hk. congruence.
Qed.

(** ** Reading the tree *)

Lemma get_app (s : node) (p q : path) :
  get s (p ++ q) = match get s p with Some n => get n q | None => None end.
Proof.
  revert s. induction p as [|x p IH]; intros s; simpl; [done|].
  destruct s as [|ch]; [done|]. destruct (ch !! x); [apply IH|done].
Qed.

Lemma get_file_below (s : node) (p q : path) t d :
  get s p = Some (File t d) → q ≠ [] → get s (p ++ q) = None.
Proof. intros Hp Hq. rewrite get_app, Hp. by destruct q. Qed.

Lemma get_prefix_some (s : node) (p q : path) :
  p `prefix_of` q → is_Some (get s q) → is_Some (get s p).
Proof.
  intros [k ->] H. rewrite get_app in H. destruct (get s p); [eauto|].
  by destruct H.
Qed.

Lemma get_prefix_dir (s : node) (p q : path) :
  p `prefix_of` q → p ≠ q → is_Some (get s q) → is_dir s p = true.
Proof.
  intros [k ->] Hne H. unfold is_dir. rewrite get_app in H.
  destruct (get s p) as [[|]|]; [|done|by destruct H].
  destruct k; [by rewrite app_nil_r in Hne|]. simpl in H. by destruct H.
Qed.

Lemma exists_is_dir_or_file s p :
  exists_ s p = is_dir s p || is_file s p.
Proof. unfold exists_, is_dir, is_file. by destruct (get s p) as [[|]|]. Qed.

Lemma is_dir_exists s p : is_dir s p = true → exists_ s p = true.
Proof. unfold exists_, is_dir. by destruct (get s p) as [[|]|]. Qed.

Lemma is_file_exists s p : is_file s p = true → exists_ s p = true.
Proof. unfold exists_, is_file. by destruct (get s p) as [[|]|]. Qed.

Lemma is_file_not_dir s p : is_file s p = true → is_dir s p = false.
Proof. unfold is_dir, is_file. by destruct (get s p) as [[|]|]. Qed.

Lemma is_dir_get s p : is_dir s p = true ↔ ∃ ch, get s p = Some (Dir ch).
Proof.
  unfold is_dir. split.
  - destruct (get s p) as [[|ch]|]; try done. eauto.
  - by intros [ch ->].
Qed.

Lemma is_file_get s p : is_file s p = true ↔ ∃ t d, get s p = Some (File t d).
Proof.
  unfold is_file. split.
  - destruct (get s p) as [[t d|ch]|]; try done. eauto.
  - by intros (t & d & ->).
Qed.

Lemma exists_get s p : exists_ s p = true ↔ is_Some (get s p).
Proof.
  unfold exists_. split.
  - destruct (get s p); [eauto|done].
  - by intros [? ->].
Qed.

Lemma is_dir_parent s p : exists_ s p = true → p ≠ [] → is_dir s (parent p) = true.
Proof.
  intros He Hp. apply exists_get in He.
  destruct (exists_last Hp) as (q & x & ->).
  unfold parent. rewrite removelast_last.
  apply (get_prefix_dir s q (q ++ [x])); [by exists [x]| |done].
  intros H. apply (f_equal length) in H. rewrite length_app in H. simpl in H. lia.
Qed.

(** ** Writing the tree: [put] *)

Lemma put_cons_cons ch x y p v :
  put (Dir ch) (x :: y :: p) v =
  match ch !! x with
  | Some c => match put c (y :: p) v with
              | Some c' => Some (Dir (<[x := c']> ch))
              | None => None
              end
  | None => None
  end.
Proof. reflexivity. Qed.

Lemma remove_cons_cons ch x y p :
  remove (Dir ch) (x :: y :: p) =
  match ch !! x with
  | Some c => match remove c (y :: p) with
              | Some c' => Some (Dir (<[x := c']> ch))
              | None => None
              end
  | None => None
  end.
Proof. reflexivity. Qed.

Lemma put_get s p v s' : put s p v = Some s' → get s' p = Some v.
Proof.
  revert s s'. induction p as [|x p IH]; intros s s' H; simpl in H; [done|].
  destruct s as [|ch]; [done|]. destruct p as [|y p].
  - injection H as <-. simpl. by rewrite lookup_insert_eq.
  - destruct (ch !! x) as [c|] eqn:Hc; [|done].
    destruct (put c (y :: p) v) as [c'|] eqn:Hp; [|done].
    injection H as <-. cbn [get]. rewrite lookup_insert_eq. apply (IH _ _ Hp).
Qed.

Lemma put_get_below s p v s' q : put s p v = Some s' → get s' (p ++ q) = get v q.
Proof. intros H. by rewrite get_app, (put_get _ _ _ _ H). Qed.

Lemma put_frame s p v s' q :
  put s p v = Some s' → unrelated p q → get s' q = get s q.
Proof.
  revert s s' q. induction p as [|x p IH]; intros s s' q H [Hpq Hqp]; simpl in H; [done|].
  destruct s as [|ch]; [done|].
  destruct q as [|y q]; [destruct Hqp; apply prefix_nil|].
  destruct (decide (x = y)) as [<-|Hxy].
  - assert (Hu : unrelated p q).
    { split; intros Hc; [apply Hpq|apply Hqp]; by apply prefix_cons. }
    destruct p as [|z p]; [destruct Hu as [Hu _]; destruct Hu; apply prefix_nil|].
    destruct (ch !! x) as [c|] eqn:Hc; [|done].
    destruct (put c (z :: p) v) as [c'|] eqn:Hp; [|done].
    injection H as <-. cbn [get]. rewrite lookup_insert_eq, Hc. by apply IH.
  - assert (Hs' : ∃ c', s' = Dir (<[x := c']> ch)).
    { destruct p as [|z p]; [injection H as <-; eauto|].
      destruct (ch !! x) as [c|]; [|done].
      destruct (put c (z :: p) v) as [c'|]; [|done]. injection H as <-; eauto. }
    destruct Hs' as [c' ->]. cbn [get]. by rewrite lookup_insert_ne.
Qed.

Lemma put_ancestor s p v s' q :
  put s p v = Some s' → q `prefix_of` p → q ≠ p →
  is_dir s q = true ∧ is_dir s' q = true.
Proof.
  revert s s' q. induction p as [|x p IH]; intros s s' q H Hq Hne; simpl in H; [done|].
  destruct s as [|ch]; [done|].
  destruct q as [|y q].
  - unfold is_dir; simpl. split; [done|].
    destruct p as [|z p]; [by injection H as <-|].
    destruct (ch !! x) as [c|]; [|done].
    destruct (put c (z :: p) v) as [c'|]; [|done]. by injection H as <-.
  - assert (y = x) as -> by (by destruct Hq as [k [= -> _]]).
    assert (Hq' : q `prefix_of` p) by (by apply prefix_cons_inv_2 in Hq).
    assert (Hne' : q ≠ p) by congruence.
    destruct p as [|z p].
    { apply prefix_nil_inv in Hq'. congruence. }
    destruct (ch !! x) as [c|] eqn:Hc; [|done].
    destruct (put c (z :: p) v) as [c'|] eqn:Hp; [|done].
    injection H as <-. unfold is_dir. cbn [get]. rewrite lookup_insert_eq, Hc.
    apply (IH _ _ _ Hp Hq' Hne').
Qed.

Lemma put_is_Some s p v :
  p ≠ [] → is_dir s (parent p) = true → is_Some (put s p v).
Proof.
  revert s. induction p as [|x p IH]; intros s Hne Hd; [done|].
  unfold is_dir, parent in Hd. destruct p as [|y p].
  - simpl in Hd. destruct s as [|ch]; [done|]. simpl. eauto.
  - cbn [removelast get] in Hd. destruct s as [|ch]; [done|].
    rewrite put_cons_cons. destruct (ch !! x) as [c|] eqn:Hc; [|done].
    destruct (IH c) as [c' Hc']; [done|exact Hd|]. rewrite Hc'. eauto.
Qed.

Lemma put_Some_parent s p v s' :
  put s p v = Some s' → p ≠ [] ∧ is_dir s (parent p) = true.
Proof.
  intros H. assert (Hne : p ≠ []) by (intros ->; done). split; [done|].
  destruct (exists_last Hne) as (q & x & ->).
  unfold parent. rewrite removelast_last.
  apply (put_ancestor _ _ _ _ q H); [by exists [x]|].
  intros E. apply (f_equal length) in E. rewrite length_app in E. simpl in E. lia.
Qed.

Lemma put_id s p v : get s p = Some v → p ≠ [] → put s p v = Some s.
Proof.
  revert s. induction p as [|x p IH]; intros s H Hne; [done|].
  simpl in H. destruct s as [|ch]; [done|].
  destruct (ch !! x) as [c|] eqn:Hc; [|done].
  destruct p as [|y p].
  - simpl in H. injection H as ->. simpl. by rewrite insert_id.
  - rewrite put_cons_cons, Hc, (IH c H) by done. by rewrite insert_id.
Qed.

Lemma put_put s p v v' s1 : put s p v = Some s1 → put s1 p v' = put s p v'.
Proof.
  revert s s1. induction p as [|x p IH]; intros s s1 H; simpl in H; [done|].
  destruct s as [|ch]; [done|]. destruct p as [|y p].
  - injection H as <-. simpl. by rewrite insert_insert_eq.
  - destruct (ch !! x) as [c|] eqn:Hc; [|done].
    destruct (put c (y :: p) v) as [c'|] eqn:Hp; [|done].
    injection H as <-. rewrite !put_cons_cons, lookup_insert_eq, Hc.
    rewrite (IH _ _ Hp). destruct (put c (y :: p) v'); [|done].
    by rewrite insert_insert_eq.
Qed.

(** ** Writing the tree: [remove] *)

Lemma remove_get_below s p s' q : remove s p = Some s' → get s' (p ++ q) = None.
Proof.
  revert s s'. induction p as [|x p IH]; intros s s' H; simpl in H; [done|].
  destruct s as [|ch]; [done|].
  destruct (ch !! x) as [c|] eqn:Hc; [|done]. destruct p as [|y p].
  - injection H as <-. simpl. by rewrite lookup_delete_eq.
  - destruct (remove c (y :: p)) as [c'|] eqn:Hp; [|done].
    injection H as <-. rewrite <- app_comm_cons. cbn [get].
    rewrite lookup_insert_eq. apply (IH _ _ Hp).
Qed.

Lemma remove_get s p s' : remove s p = Some s' → get s' p = None.
Proof. intros H. rewrite <- (app_nil_r p). by eapply remove_get_below. Qed.

Lemma remove_frame s p s' q :
  remove s p = Some s' → unrelated p q → get s' q = get s q.
Proof.
  revert s s' q. induction p as [|x p IH]; intros s s' q H [Hpq Hqp]; simpl in H; [done|].
  destruct s as [|ch]; [done|].
  destruct q as [|y q]; [destruct Hqp; apply prefix_nil|].
  destruct (ch !! x) as [c|] eqn:Hc; [|done].
  destruct (decide (x = y)) as [<-|Hxy].
  - assert (Hu : unrelated p q).
    { split; intros Hc'; [apply Hpq|apply Hqp]; by apply prefix_cons. }
    destruct p as [|z p]; [destruct Hu as [Hu _]; destruct Hu; apply prefix_nil|].
    destruct (remove c (z :: p)) as [c'|] eqn:Hp; [|done].
    injection H as <-. cbn [get]. rewrite lookup_insert_eq, Hc. by apply IH.
  - destruct p as [|z p].
    + injection H as <-. cbn [get]. by rewrite lookup_delete_ne.
    + destruct (remove c (z :: p)) as [c'|]; [|done]. injection H as <-.
      cbn [get]. by rewrite lookup_insert_ne.
Qed.

Lemma remove_ancestor s p s' q :
  remove s p = Some s' → q `prefix_of` p → q ≠ p →
  is_dir s q = true ∧ is_dir s' q = true.
Proof.
  revert s s' q. induction p as [|x p IH]; intros s s' q H Hq Hne; simpl in H; [done|].
  destruct s as [|ch]; [done|].
  destruct (ch !! x) as [c|] eqn:Hc; [|done].
  destruct q as [|y q].
  - unfold is_dir; simpl. split; [done|].
    destruct p as [|z p]; [by injection H as <-|].
    destruct (remove c (z :: p)) as [c'|]; [|done]. by injection H as <-.
  - assert (y = x) as -> by (by destruct Hq as [k [= -> _]]).
    assert (Hq' : q `prefix_of` p) by (by apply prefix_cons_inv_2 in Hq).
    assert (Hne' : q ≠ p) by congruence.
    destruct p as [|z p].
    { apply prefix_nil_inv in Hq'. congruence. }
    destruct (remove c (z :: p)) as [c'|] eqn:Hp; [|done].
    injection H as <-. unfold is_dir. cbn [get]. rewrite lookup_insert_eq, Hc.
    apply (IH _ _ _ Hp Hq' Hne').
Qed.

Lemma remove_is_Some s p : p ≠ [] → exists_ s p = true → is_Some (remove s p).
Proof.
  revert s. induction p as [|x p IH]; intros s Hne He; [done|].
  unfold exists_ in He. simpl in He. destruct s as [|ch]; [done|].
  destruct (ch !! x) as [c|] eqn:Hc; [|done].
  destruct p as [|y p]; [simpl; rewrite Hc; eauto|].
  rewrite remove_cons_cons, Hc.
  destruct (IH c) as [c' Hc']; [done|exact He|]. rewrite Hc'. eauto.
Qed.

Lemma put_remove s p s1 v : remove s p = Some s1 → put s1 p v = put s p v.
Proof.
  revert s s1. induction p as [|x p IH]; intros s s1 H; simpl in H; [done|].
  destruct s as [|ch]; [done|].
  destruct (ch !! x) as [c|] eqn:Hc; [|done]. destruct p as [|y p].
  - injection H as <-. simpl. by rewrite insert_delete_eq.
  - destruct (remove c (y :: p)) as [c'|] eqn:Hp; [|done].
    injection H as <-. rewrite !put_cons_cons, lookup_insert_eq, Hc.
    rewrite (IH _ _ Hp). destruct (put c (y :: p) v); [|done].
    by rewrite insert_insert_eq.
Qed.

(** ** Writing the tree: [mkdirs] *)

Lemma mkdirs_dir s p s' q :
  mkdirs s p = Some s' → q `prefix_of` p → is_dir s' q = true.
Proof.
  revert s s' q. induction p as [|x p IH]; intros s s' q H Hq.
  - apply prefix_nil_inv in Hq as ->. destruct s; simpl in H; [done|].
    by injection H as <-.
  - destruct s as [|ch]; [done|]. cbn [mkdirs] in H.
    destruct (mkdirs (default (Dir ∅) (ch !! x)) p) as [c'|] eqn:Hm; [|done].
    injection H as <-. destruct q as [|y q]; [done|].
    assert (y = x) as -> by (by destruct Hq as [k [= -> _]]).
    apply prefix_cons_inv_2 in Hq. unfold is_dir. cbn [get].
    rewrite lookup_insert_eq. apply (IH _ _ _ Hm Hq).
Qed.

Lemma mkdirs_frame s p s' q :
  mkdirs s p = Some s' → ¬ q `prefix_of` p → get s' q = get s q.
Proof.
  revert s s' q. induction p as [|x p IH]; intros s s' q H Hq.
  - destruct s; simpl in H; [done|]. by injection H as <-.
  - destruct s as [|ch]; [done|]. cbn [mkdirs] in H.
    destruct (mkdirs (default (Dir ∅) (ch !! x)) p) as [c'|] eqn:Hm; [|done].
    injection H as <-. destruct q as [|y q]; [destruct Hq; apply prefix_nil|].
    cbn [get]. destruct (decide (x = y)) as [<-|Hxy].
    + rewrite lookup_insert_eq.
      assert (Hq' : ¬ q `prefix_of` p) by (intros Hc; apply Hq; by apply prefix_cons).
      rewrite (IH _ _ _ Hm Hq'). destruct (ch !! x); [done|]. simpl.
      destruct q as [|z q]; [destruct Hq'; apply prefix_nil|]. simpl.
      by rewrite lookup_empty.
    + by rewrite lookup_insert_ne.
Qed.

Lemma mkdirs_id s p : is_dir s p = true → mkdirs s p = Some s.
Proof.
  revert s. induction p as [|x p IH]; intros s H.
  - unfold is_dir in H. simpl in H. by destruct s.
  - unfold is_dir in H. cbn [get] in H. destruct s as [|ch]; [done|].
    destruct (ch !! x) as [c|] eqn:Hc; [|done].
    cbn [mkdirs]. rewrite Hc. simpl. rewrite (IH c H). by rewrite insert_id.
Qed.

Lemma mkdirs_is_Some s p :
  (∀ q, q `prefix_of` p → is_file s q = false) → is_Some (mkdirs s p).
Proof.
  revert s. induction p as [|x p IH]; intros s H.
  - specialize (H [] (prefix_nil _)). unfold is_file in H. simpl in H.
    destruct s; [done|]. simpl. eauto.
  - pose proof (H [] (prefix_nil _)) as H0. unfold is_file in H0. simpl in H0.
    destruct s as [|ch]; [done|]. cbn [mkdirs].
    destruct (IH (default (Dir ∅) (ch !! x))) as [c' Hc'].
    + intros q Hq. specialize (H (x :: q) (prefix_cons _ _ _ Hq)).
      unfold is_file in *. cbn [get] in H. destruct (ch !! x); [done|]. simpl.
      destruct q; [done|]. simpl. by rewrite lookup_empty.
    + rewrite Hc'. eauto.
Qed.

Lemma mkdirs_Some_inv s p s' q :
  mkdirs s p = Some s' → q `prefix_of` p → is_file s q = false.
Proof.
  revert s s' q. induction p as [|x p IH]; intros s s' q H Hq.
  - apply prefix_nil_inv in Hq as ->. by destruct s.
  - destruct s as [|ch]; [done|]. cbn [mkdirs] in H.
    destruct (mkdirs (default (Dir ∅) (ch !! x)) p) as [c'|] eqn:Hm; [|done].
    destruct q as [|y q]; [done|].
    assert (y = x) as -> by (by destruct Hq as [k [= -> _]]).
    apply prefix_cons_inv_2 in Hq. pose proof (IH _ _ _ Hm Hq) as Hf.
    unfold is_file in *. cbn [get]. destruct (ch !! x); [done|done].
Qed.

(** ** Unfolding effectful computations *)

Ltac munfold :=
  unfold info, warn, error, ok, step, print, run, emit, test, ret, raise,
         bind, try_, fs_op, time_, sleep, replace_dir in *.

(** ** C3: multiplayer pairing validation *)

(** C3 -- Multiplayer pairing validation.  When exactly one of [mp_mod] and
    [mp_starter] is supplied (holds a non-empty string, the other does not),
    [main] ends with exit status 1, leaving the file system and the clock as
    they were and logging nothing but one error line: no process was
    stopped, nothing cleaned, copied or launched.  When both or neither are
    supplied, the pairing check passes and yields the multiplayer flag. *)
Theorem pairing_validation (host : platform) (c : config) (w : world) :
  (truthy (mp_mod c) ≠ truthy (mp_starter c) →
   ∃ m, main host c w
        = (Exc (Exit 1), World (fs w) (now w) (log w ++ [Log LError m])))
  ∧ (truthy (mp_mod c) = truthy (mp_starter c) →
     check_pairing c w
     = (Val (truthy (mp_mod c) && truthy (mp_starter c)), w)).
Proof.
  split.
  - intros Hne. unfold main, check_pairing. munfold.
    destruct (exists_ (fs w) (resolve host (target c))); simpl; [|eauto].
    destruct (truthy (mp_mod c)), (truthy (mp_starter c)); simpl; try done; eauto.
  - intros Heq. unfold check_pairing. munfold. rewrite Heq.
    by destruct (truthy (mp_starter c)).
Qed.

Lemma pairing_validation_witness :
  (∃ m, main host_idle (cfg_with_mp (Some "mp/Mod") None) (world_of fs_project)
        = (Exc (Exit 1),
           World (fs (world_of fs_project)) (now (world_of fs_project))
                 (log (world_of fs_project) ++ [Log LError m])))
  ∧ check_pairing (cfg_with_mp (Some "mp/Mod") (Some "mp/start.sh")) (world_of fs_project)
    = (Val true, world_of fs_project).
Proof.
  split.
  - apply (proj1 (pairing_validation host_idle (cfg_with_mp (Some "mp/Mod") None)
                                     (world_of fs_project))).
    vm_compute. discriminate.
  - apply (proj2 (pairing_validation host_idle
                    (cfg_with_mp (Some "mp/Mod") (Some "mp/start.sh"))
                    (world_of fs_project))).
    reflexivity.
Defined.

(** ** Listing a directory and finding a sub-root *)

Lemma listdir_elem s p ch n :
  get s p = Some (Dir ch) → n ∈ listdir s p ↔ is_Some (ch !! n).
Proof.
  intros Hp. unfold listdir. rewrite Hp. rewrite list_elem_of_fmap. split.
  - intros [[k v] [-> Hin]]. apply elem_of_map_to_list in Hin. simpl. eauto.
  - intros [v Hv]. exists (n, v). split; [done|]. by apply elem_of_map_to_list.
Qed.

Lemma listdir_NoDup s p : NoDup (listdir s p).
Proof.
  unfold listdir. destruct (get s p) as [[|ch]|]; try apply NoDup_nil_2.
  apply NoDup_fst_map_to_list.
Qed.

Lemma iterdir_elem s p item :
  item ∈ iterdir s p ↔ ∃ n, item = child p n ∧ n ∈ listdir s p.
Proof. unfold iterdir. by rewrite list_elem_of_fmap. Qed.

Lemma get_child s p ch n :
  get s p = Some (Dir ch) → get s (child p n) = ch !! n.
Proof.
  intros Hp. unfold child. rewrite get_app, Hp. simpl. by destruct (ch !! n).
Qed.

Lemma find_subdir_Some s p nm m :
  find_subdir_case_insensitive s p nm = Some m →
  ∃ n, m = child p n ∧ n ∈ listdir s p ∧ is_dir s m = true ∧ lower n = lower nm.
Proof.
  unfold find_subdir_case_insensitive.
  destruct (exists_ s p); simpl; [|done]. intros H.
  apply find_some in H as [Hin Hf]. apply list_elem_of_In, iterdir_elem in Hin.
  destruct Hin as (n & -> & Hn). apply andb_true_iff in Hf as [Hd Hl].
  apply String.eqb_eq in Hl. rewrite name_child in Hl. eauto.
Qed.

Lemma find_subdir_None s p nm n :
  find_subdir_case_insensitive s p nm = None →
  is_dir s (child p n) = true → lower n ≠ lower nm.
Proof.
  unfold find_subdir_case_insensitive. intros H Hd Hl.
  assert (He : exists_ s p = true).
  { apply exists_get. apply (get_prefix_some s p (child p n)); [by exists [n]|].
    apply exists_get. by apply is_dir_exists. }
  rewrite He in H. simpl in H.
  assert (Hp : is_dir s p = true).
  { apply (get_prefix_dir s p (child p n)); [by exists [n]| |].
    - unfold child. intros E. apply (f_equal length) in E.
      rewrite length_app in E. simpl in E. lia.
    - apply exists_get. by apply is_dir_exists. }
  apply is_dir_get in Hp as [ch Hp].
  eapply find_none with (x := child p n) in H.
  - rewrite Hd, name_child, Hl, String.eqb_refl in H. done.
  - apply list_elem_of_In, iterdir_elem. exists n. split; [done|].
    apply (listdir_elem _ _ _ _ Hp). rewrite <- (get_child _ _ _ _ Hp).
    apply exists_get. by apply is_dir_exists.
Qed.

Lemma find_subdir_lower s p nm nm' :
  lower nm = lower nm' →
  find_subdir_case_insensitive s p nm = find_subdir_case_insensitive s p nm'.
Proof. unfold find_subdir_case_insensitive. by intros ->. Qed.

(** ** C8: a "mods" root is found whatever its letter case *)

(** C8 -- In a directory, an immediate subdirectory whose name equals "mods"
    up to letter case ([mods], [MODS], [Mods], ...) makes the directory a
    structured tree, and the lookup of the "Mods" root returns one
    subdirectory with such a name -- a single path even when several entries
    match; entries with a matching name that are regular files are not
    roots: when no matching entry is a directory, no root is found. *)
Theorem mods_root_case_insensitive (s : node) (p : path) (ch : gmap string node) :
  get s p = Some (Dir ch) →
  (∀ n sub, ch !! n = Some (Dir sub) → lower n = "mods" →
     has_structure s p = true
     ∧ ∃ n', find_subdir_case_insensitive s p "Mods" = Some (child p n')
             ∧ lower n' = "mods" ∧ is_dir s (child p n') = true)
  ∧ ((∀ n v, ch !! n = Some v → lower n = "mods" → ∃ t d, v = File t d) →
     find_subdir_case_insensitive s p "Mods" = None).
Proof.
  intros Hp. split.
  - intros n sub Hn Hl.
    assert (Hd : is_dir s (child p n) = true).
    { unfold is_dir. by rewrite (get_child _ _ _ _ Hp), Hn. }
    destruct (find_subdir_case_insensitive s p "Mods") as [m|] eqn:Hf.
    + split.
      * unfold has_structure. simpl. rewrite Hf. done.
      * apply find_subdir_Some in Hf as (n' & -> & _ & Hd' & Hl'). eauto.
    + exfalso. by apply (find_subdir_None _ _ _ n Hf Hd).
  - intros Hfiles.
    destruct (find_subdir_case_insensitive s p "Mods") as [m|] eqn:Hf; [|done].
    apply find_subdir_Some in Hf as (n' & -> & _ & Hd' & Hl').
    unfold is_dir in Hd'. rewrite (get_child _ _ _ _ Hp) in Hd'.
    destruct (ch !! n') as [v|] eqn:Hv; [|done].
    destruct (Hfiles n' v Hv Hl') as (t & d & ->). done.
Qed.

Lemma mods_root_case_insensitive_witness :
  (has_structure fs_case ["X"] = true
   ∧ ∃ n', find_subdir_case_insensitive fs_case ["X"] "Mods" = Some (child ["X"] n')
           ∧ lower n' = "mods" ∧ is_dir fs_case (child ["X"] n') = true)
  ∧ find_subdir_case_insensitive fs_case ["Y"] "Mods" = None.
Proof.
  split.
  - refine (proj1 (mods_root_case_insensitive fs_case ["X"]
                     (list_to_map [("MODS", dir_of [("a.dll", File 0 "a")])]) _)
                  "MODS" (list_to_map [("a.dll", File 0 "a")]) _ _);
      reflexivity.
  - refine (proj2 (mods_root_case_insensitive fs_case ["Y"]
                     (list_to_map [("mods", File 0 "not a root")]) _) _).
    + reflexivity.
    + intros n v Hn _. destruct (decide (n = "mods")) as [->|Hne].
      * vm_compute in Hn. injection Hn as <-. eauto.
      * simpl in Hn. rewrite lookup_insert_ne in Hn by done.
        by rewrite lookup_empty in Hn.
Defined.

(** ** C5: structured-tree fan-out *)

(** C5 -- Structured-tree fan-out.  The add-on [AddonA/] holds [Mods/Foo.dll]
    and [Plugins/Bar.dll]; the destination mods directory is [D/Mods].
    Copying the add-on (with or without skip-if-exists) reports it as
    copied; afterwards [D/Mods/Foo.dll] and [D/Plugins/Bar.dll] are the two
    files, [D/Plugins] is a sibling of [D/Mods] (they have the same parent),
    [D/Mods] holds only [Foo.dll] and [D/Plugins] holds only [Bar.dll]. *)
Theorem structured_fan_out (t1 t2 : Z) (d1 d2 : string) (skip timestamps : bool) :
  ∃ w', copy_mod_item ["AddonA"] ["D"; "Mods"] skip timestamps
          (world_of (fs_addon_a (File t1 d1) (File t2 d2))) = (Val true, w')
        ∧ get (fs w') ["D"; "Mods"; "Foo.dll"] = Some (File t1 d1)
        ∧ get (fs w') ["D"; "Plugins"; "Bar.dll"] = Some (File t2 d2)
        ∧ parent ["D"; "Plugins"] = parent ["D"; "Mods"]
        ∧ listdir (fs w') ["D"; "Mods"] = ["Foo.dll"]
        ∧ listdir (fs w') ["D"; "Plugins"] = ["Bar.dll"]
        ∧ get (fs w') ["D"; "Mods"; "Bar.dll"] = None
        ∧ get (fs w') ["D"; "Plugins"; "Foo.dll"] = None
        ∧ get (fs w') ["D"; "Mods"; "Plugins"] = None
        ∧ get (fs w') ["D"; "Plugins"; "Mods"] = None.
Proof.
  destruct skip, timestamps; eexists; (split; [vm_compute; reflexivity|]);
    vm_compute; repeat split.
Qed.

(** ** Computations determined by the file system *)

Lemma world_eta w : World (fs w) (now w) (log w) = w.
Proof. by destruct w. Qed.

Lemma fs_det_ret {A} (a : A) : fs_det (ret a).
Proof.
  intros w w' E. exists (Val a), (fs w), []. unfold ret. rewrite !app_nil_r.
  split; [by rewrite world_eta|]. by rewrite E, world_eta.
Qed.

Lemma fs_det_raise {A} (e : exn) : fs_det (@raise A e).
Proof.
  intros w w' E. exists (Exc e), (fs w), []. unfold raise. rewrite !app_nil_r.
  split; [by rewrite world_eta|]. by rewrite E, world_eta.
Qed.

Lemma fs_det_test {A} (f : node → A) : fs_det (test f).
Proof.
  intros w w' E. exists (Val (f (fs w))), (fs w), []. unfold test.
  rewrite !app_nil_r. split; [by rewrite world_eta|]. by rewrite E, world_eta.
Qed.

Lemma fs_det_emit (e : event) : fs_det (emit e).
Proof.
  intros w w' E. exists (Val tt), (fs w), [e]. unfold emit. by rewrite E.
Qed.

Lemma fs_det_fs_op (f : node → option node) : fs_det (fs_op f).
Proof.
  intros w w' E. unfold fs_op. rewrite <- E. destruct (f (fs w)) as [s'|].
  - exists (Val tt), s', []. by rewrite !app_nil_r.
  - exists (Exc OSError), (fs w), []. rewrite !app_nil_r.
    split; [by rewrite world_eta|]. by rewrite E, world_eta.
Qed.

Lemma fs_det_bind {A B} (m : M A) (k : A → M B) :
  fs_det m → (∀ a, fs_det (k a)) → fs_det (bind m k).
Proof.
  intros Hm Hk w w' E. destruct (Hm w w' E) as (r & s & evs & H1 & H2).
  unfold bind. rewrite H1, H2. destruct r as [a|e].
  - destruct (Hk a (World s (now w) (log w ++ evs))
                   (World s (now w') (log w' ++ evs)) eq_refl)
      as (r' & s' & evs' & H1' & H2').
    exists r', s', (evs ++ evs'). simpl in *. by rewrite H1', H2', !(assoc_L (++)).
  - by exists (Exc e), s, evs.
Qed.

Lemma fs_det_try {A} (m h : M A) : fs_det m → fs_det h → fs_det (try_ m h).
Proof.
  intros Hm Hh w w' E. destruct (Hm w w' E) as (r & s & evs & H1 & H2).
  unfold try_. rewrite H1, H2. destruct r as [a|e].
  - by exists (Val a), s, evs.
  - destruct (Hh (World s (now w) (log w ++ evs))
                 (World s (now w') (log w' ++ evs)) eq_refl)
      as (r' & s' & evs' & H1' & H2').
    exists r', s', (evs ++ evs'). simpl in *. by rewrite H1', H2', !(assoc_L (++)).
Qed.

Lemma fs_det_for_each {A} (l : list A) (body : A → M unit) :
  (∀ x, fs_det (body x)) → fs_det (for_each l body).
Proof.
  intros Hb. induction l as [|x l IH]; simpl.
  - apply fs_det_ret.
  - apply fs_det_bind; [apply Hb|]. intros _. apply IH.
Qed.

Lemma fs_det_count_each {A} (l : list A) (body : A → M bool) (acc : nat) :
  (∀ x, fs_det (body x)) → fs_det (count_each l body acc).
Proof.
  intros Hb. revert acc. induction l as [|x l IH]; intros acc; simpl.
  - apply fs_det_ret.
  - apply fs_det_bind; [apply Hb|]. intros b. apply IH.
Qed.

Create HintDb fsdet discriminated.

#[export] Hint Resolve fs_det_ret fs_det_raise fs_det_test fs_det_emit
  fs_det_fs_op : fsdet.

Ltac fs_det_step :=
  first
    [ solve [auto 1 with fsdet nocore]
    | apply fs_det_bind; [|intros ?]
    | apply fs_det_try
    | apply fs_det_for_each; intros ?
    | apply fs_det_count_each; intros ?
    | match goal with
      | |- fs_det (if ?b then _ else _) => destruct b
      | |- fs_det (match ?x with _ => _ end) => destruct x
      end ].

Ltac fs_det_solve :=
  unfold info, warn, error, ok, step, print, run; repeat fs_det_step.

Lemma fs_det_replace_dir src t : fs_det (replace_dir src t).
Proof. unfold replace_dir. fs_det_solve. Qed.
#[export] Hint Resolve fs_det_replace_dir : fsdet.

Lemma fs_det_copy_entry dst item : fs_det (copy_entry dst item).
Proof. unfold copy_entry. fs_det_solve. Qed.
#[export] Hint Resolve fs_det_copy_entry : fsdet.

Lemma fs_det_copy_structured_mod p d : fs_det (copy_structured_mod p d).
Proof. unfold copy_structured_mod. fs_det_solve. Qed.
#[export] Hint Resolve fs_det_copy_structured_mod : fsdet.

Lemma fs_det_copy_mod_item p d skip ts : fs_det (copy_mod_item p d skip ts).
Proof. unfold copy_mod_item. fs_det_solve. Qed.
#[export] Hint Resolve fs_det_copy_mod_item : fsdet.

Lemma fs_det_copy_item src d : fs_det (copy_item src d).
Proof. unfold copy_item. fs_det_solve. Qed.
#[export] Hint Resolve fs_det_copy_item : fsdet.

Lemma fs_det_collect_valid base l valid : fs_det (collect_valid base l valid).
Proof.
  revert valid. induction l as [|e l IH]; intros valid; simpl; fs_det_solve; apply IH.
Qed.
#[export] Hint Resolve fs_det_collect_valid : fsdet.

Lemma fs_det_copy_user_mods l base d force ts : fs_det (copy_user_mods l base d force ts).
Proof. unfold copy_user_mods. destruct l; fs_det_solve. Qed.
#[export] Hint Resolve fs_det_copy_user_mods : fsdet.

Lemma fs_det_copy_multiplayer_mods host m st d force :
  fs_det (copy_multiplayer_mods host m st d force).
Proof. unfold copy_multiplayer_mods. fs_det_solve. Qed.
#[export] Hint Resolve fs_det_copy_multiplayer_mods : fsdet.

Lemma fs_det_copy_library_mods host a b d force :
  fs_det (copy_library_mods host a b d force).
Proof. unfold copy_library_mods. fs_det_solve. Qed.
#[export] Hint Resolve fs_det_copy_library_mods : fsdet.

Lemma fs_det_addon_stages host c mp : fs_det (addon_stages host c mp).
Proof. unfold addon_stages. fs_det_solve. Qed.
#[export] Hint Resolve fs_det_addon_stages : fsdet.

Lemma fs_det_copy_stages host c mp : fs_det (copy_stages host c mp).
Proof. unfold copy_stages. fs_det_solve. Qed.

Lemma fs_det_clean_mods_dir d : fs_det (clean_mods_dir d).
Proof. unfold clean_mods_dir. fs_det_solve. Qed.

(** ** C7: a missing source is reported and skipped *)

Lemma copy_mod_item_missing p d skip ts w :
  exists_ (fs w) p = false →
  copy_mod_item p d skip ts w
  = (Val false, World (fs w) (now w) (log w ++ [Log LWarn (MModNotFound p)])).
Proof. intros H. unfold copy_mod_item. munfold. by rewrite H. Qed.

Lemma collect_valid_spec base l valid w :
  collect_valid base l valid w
  = (Val (valid ++ filter (λ p, exists_ (fs w) p = true) (entry_path base <$> l)),
     World (fs w) (now w)
           (log w ++ ((λ p, Log LWarn (MModNotFound p))
                        <$> filter (λ p, exists_ (fs w) p = false)
                                   (entry_path base <$> l)))).
Proof.
  revert valid w. induction l as [|e l IH]; intros valid w; simpl.
  - unfold ret. by rewrite !app_nil_r, world_eta.
  - munfold. destruct (exists_ (fs w) (entry_path base e)) eqn:He; simpl.
    + rewrite IH. rewrite filter_cons_True by done.
      rewrite (filter_cons_False (λ p, exists_ (fs w) p = false)) by congruence.
      by rewrite <- (assoc_L (++)).
    + rewrite IH. simpl. rewrite filter_cons_False by congruence.
      rewrite (filter_cons_True (λ p, exists_ (fs w) p = false)) by done.
      simpl. by rewrite <- (assoc_L (++)).
Qed.

Lemma copy_user_mods_unfold l base d force ts w :
  l ≠ [] →
  copy_user_mods l base d force ts w
  = count_each (filter (λ p, exists_ (fs w) p = true) (entry_path base <$> l))
      (λ mod_path, copy_mod_item mod_path d (negb force) ts) 0%nat
      (World (fs w) (now w)
         (log w ++ Log LStep MCopyingRequested ::
            ((λ p, Log LWarn (MModNotFound p))
               <$> filter (λ p, exists_ (fs w) p = false) (entry_path base <$> l)))).
Proof.
  intros Hl. unfold copy_user_mods. destruct l as [|e l]; [done|].
  unfold step, emit, bind at 1 2. rewrite collect_valid_spec. simpl fs. simpl now.
  simpl log. by rewrite <- (assoc_L (++)).
Qed.

(** C7 -- A source path that does not exist when it is examined is reported
    with a not-found warning and nothing is copied for it: [copy_mod_item]
    returns [False] and leaves the file system untouched; and an entry of
    the user's mod list whose path does not exist changes neither the
    outcome (the count copied) nor the resulting file system of
    [copy_user_mods], which goes on with the other entries -- the only
    trace of it is the warning. *)
Theorem missing_source_skipped :
  (∀ p d skip ts w,
     exists_ (fs w) p = false →
     copy_mod_item p d skip ts w
     = (Val false, World (fs w) (now w) (log w ++ [Log LWarn (MModNotFound p)])))
  ∧ (∀ base d force ts l1 e l2 w,
       exists_ (fs w) (entry_path base e) = false →
       ∃ r s evs evs',
         copy_user_mods (l1 ++ e :: l2) base d force ts w
         = (r, World s (now w) (log w ++ evs))
         ∧ copy_user_mods (l1 ++ l2) base d force ts w
           = (r, World s (now w) (log w ++ evs'))
         ∧ Log LWarn (MModNotFound (entry_path base e)) ∈ evs).
Proof.
  split; [apply copy_mod_item_missing|].
  intros base d force ts l1 e l2 w He.
  rewrite (copy_user_mods_unfold (l1 ++ e :: l2)) by (by destruct l1).
  rewrite !fmap_app, !fmap_cons, !filter_app.
  rewrite filter_cons_False by congruence.
  rewrite (filter_cons_True (λ p, exists_ (fs w) p = false)) by done.
  rewrite <- filter_app, <- fmap_app.
  set (V := filter (λ p, exists_ (fs w) p = true) (entry_path base <$> l1 ++ l2)).
  set (body := λ mod_path, copy_mod_item mod_path d (negb force) ts).
  match goal with |- context [count_each V body 0%nat ?W] => set (w1 := W) end.
  assert (Hdet : fs_det (count_each V body 0%nat)).
  { apply fs_det_count_each. intros x. apply fs_det_copy_mod_item. }
  destruct (decide (l1 ++ l2 = [])) as [Hnil|Hne].
  - subst V. rewrite Hnil. simpl. unfold ret, w1.
    eexists (Val 0%nat), (fs w), _, []. split; [reflexivity|].
    rewrite app_nil_r, world_eta. split; [done|].
    apply list_elem_of_further, list_elem_of_fmap.
    exists (entry_path base e). split; [done|]. apply elem_of_app. right. left.
  - rewrite (copy_user_mods_unfold (l1 ++ l2)) by done. fold V body.
    match goal with |- context [count_each V body 0%nat (World ?a ?b ?c)] =>
      set (w2 := World a b c) end.
    destruct (Hdet w1 w2 eq_refl) as (r & s & evs0 & H1 & H2).
    rewrite H1, H2. unfold w1, w2. simpl now. simpl log.
    eexists r, s, _, _. rewrite <- !(assoc_L (++)).
    split; [reflexivity|]. split; [reflexivity|].
    apply elem_of_app. left. apply list_elem_of_further, list_elem_of_fmap.
    exists (entry_path base e). split; [done|]. apply elem_of_app. right. left.
Qed.

Lemma missing_source_skipped_witness :
  copy_mod_item missing_mod ["game"; "Mods"] true false (world_of fs_project)
  = (Val false,
     World (fs (world_of fs_project)) (now (world_of fs_project))
           (log (world_of fs_project) ++ [Log LWarn (MModNotFound missing_mod)]))
  ∧ ∃ r s evs evs',
      copy_user_mods ([] ++ "missing.dll" :: ["bin/MyMod.dll"]) ["proj"]
                     ["game"; "Mods"] false false (world_of fs_project)
      = (r, World s (now (world_of fs_project)) (log (world_of fs_project) ++ evs))
      ∧ copy_user_mods ([] ++ ["bin/MyMod.dll"]) ["proj"]
                       ["game"; "Mods"] false false (world_of fs_project)
        = (r, World s (now (world_of fs_project)) (log (world_of fs_project) ++ evs'))
      ∧ Log LWarn (MModNotFound (entry_path ["proj"] "missing.dll")) ∈ evs.
Proof.
  split.
  - apply (proj1 missing_source_skipped). reflexivity.
  - apply (proj2 missing_source_skipped). reflexivity.
Defined.

(** ** Confined changes *)

Lemma joinpath_prefix (p : path) (s : string) : p `prefix_of` joinpath p s.
Proof.
  unfold joinpath. destruct (decide (s = "")); [done|]. by exists [s].
Qed.

Lemma child_prefix (p : path) (n : string) : p `prefix_of` child p n.
Proof. by exists [n]. Qed.

Lemma parent_prefix (p : path) : parent p `prefix_of` p.
Proof.
  unfold parent. destruct (decide (p = [])) as [->|Hne]; [done|].
  destruct (exists_last Hne) as (q & x & ->). rewrite removelast_last. by exists [x].
Qed.

Lemma unrelated_prefix_r (p q q' : path) :
  unrelated p q → q `prefix_of` q' → unrelated p q'.
Proof. intros H [k ->]. by apply unrelated_app_r. Qed.

Lemma confined_refl g s : confined g s s.
Proof. intros q _. done. Qed.

Lemma confined_trans g s1 s2 s3 :
  confined g s1 s2 → confined g s2 s3 → confined g s1 s3.
Proof.
  intros H12 H23 q Hq. destruct (H12 q Hq) as (Ha & Hb & Hc).
  destruct (H23 q Hq) as (Ha' & Hb' & Hc'). repeat split.
  - intros Hn. by rewrite Ha', Ha.
  - by rewrite Hb', Hb.
  - auto.
Qed.

Lemma confined_mono g g' s s' :
  g `prefix_of` g' → confined g' s s' → confined g s s'.
Proof.
  intros Hg H q Hq.
  assert (Hq' : ¬ g' `prefix_of` q) by (intros Hc; apply Hq; by etrans).
  destruct (H q Hq') as (Ha & Hb & Hc). repeat split; [|done|done].
  intros Hn. apply Ha. intros Hc'. destruct Hg as [k ->].
  destruct (prefix_app_cases _ _ _ Hc'); tauto.
Qed.

Lemma confined_unrelated g s s' q :
  confined g s s' → unrelated g q → get s' q = get s q.
Proof. intros H [H1 H2]. by apply (H q H1). Qed.

Lemma confined_exists g s s' q :
  confined g s s' → ¬ g `prefix_of` q → exists_ s q = true → exists_ s' q = true.
Proof.
  intros H Hq. destruct (H q Hq) as (_ & Hb & Hc).
  rewrite !exists_is_dir_or_file, Hb. intros He.
  apply orb_true_iff in He as [He|He]; [by rewrite Hc|]. rewrite He. apply orb_true_r.
Qed.

Lemma confined_is_dir g s s' q :
  confined g s s' → ¬ g `prefix_of` q → is_dir s q = true → is_dir s' q = true.
Proof. intros H Hq. by apply (H q Hq). Qed.

Lemma ancestor_kinds s s' p q :
  q `prefix_of` p → q ≠ p → is_dir s q = true → is_dir s' q = true →
  is_file s' q = is_file s q ∧ (is_dir s q = true → is_dir s' q = true).
Proof.
  intros _ _ H1 H2. split; [|done].
  unfold is_dir, is_file in *.
  by destruct (get s q) as [[|]|], (get s' q) as [[|]|].
Qed.

Lemma not_prefix_cases (g q : path) :
  ¬ g `prefix_of` q → (q `prefix_of` g ∧ q ≠ g) ∨ unrelated g q.
Proof.
  intros Hq. destruct (decide (q `prefix_of` g)) as [Hp|Hp].
  - left. split; [done|]. intros ->. by apply Hq.
  - by right.
Qed.

Lemma confined_put s p v s' : put s p v = Some s' → confined p s s'.
Proof.
  intros H q Hq. destruct (not_prefix_cases _ _ Hq) as [[Hp Hne]|Hu].
  - destruct (put_ancestor _ _ _ _ _ H Hp Hne) as [H1 H2].
    split; [tauto|]. by apply (ancestor_kinds s s' p q).
  - rewrite (put_frame _ _ _ _ _ H Hu). unfold is_file, is_dir.
    rewrite (put_frame _ _ _ _ _ H Hu). done.
Qed.

Lemma confined_remove s p s' : remove s p = Some s' → confined p s s'.
Proof.
  intros H q Hq. destruct (not_prefix_cases _ _ Hq) as [[Hp Hne]|Hu].
  - destruct (remove_ancestor _ _ _ _ H Hp Hne) as [H1 H2].
    split; [tauto|]. by apply (ancestor_kinds s s' p q).
  - rewrite (remove_frame _ _ _ _ H Hu). unfold is_file, is_dir.
    rewrite (remove_frame _ _ _ _ H Hu). done.
Qed.

Lemma confined_mkdirs s p s' g :
  mkdirs s p = Some s' → p `prefix_of` g → confined g s s'.
Proof.
  intros H Hg q Hq. destruct (decide (q `prefix_of` p)) as [Hp|Hp].
  - pose proof (mkdirs_dir _ _ _ _ H Hp) as Hd.
    pose proof (mkdirs_Some_inv _ _ _ _ H Hp) as Hf. rewrite Hf.
    split; [|split; [|done]].
    + intros Hc. destruct Hc. by etrans.
    + unfold is_dir, is_file in *. by destruct (get s' q) as [[|]|].
  - rewrite (mkdirs_frame _ _ _ _ H Hp). unfold is_file, is_dir.
    rewrite (mkdirs_frame _ _ _ _ H Hp). done.
Qed.

(** ** The file operations are confined to their destination *)

Lemma confined_copy2 s src dst s' : copy2 s src dst = Some s' → confined dst s s'.
Proof.
  unfold copy2. intros H. destruct (get s src) as [[t d|]|]; try done.
  destruct (decide _); [done|]. destruct (is_dir s (if is_dir s dst then _ else _)); [done|].
  apply confined_put in H. eapply confined_mono; [|exact H].
  destruct (is_dir s dst); [apply joinpath_prefix|done].
Qed.

Lemma confined_rmtree s p s' : rmtree s p = Some s' → confined p s s'.
Proof. unfold rmtree. destruct (is_dir s p); [apply confined_remove|done]. Qed.

Lemma confined_unlink s p s' : unlink s p = Some s' → confined p s s'.
Proof. unfold unlink. destruct (is_file s p); [apply confined_remove|done]. Qed.

Lemma confined_copytree s src dst s' : copytree s src dst = Some s' → confined dst s s'.
Proof.
  unfold copytree. intros H. destruct (get s src) as [[|ch]|]; try done.
  destruct (exists_ s dst); [done|].
  destruct (mkdirs s (parent dst)) as [s1|] eqn:Hm; [|done].
  apply confined_trans with s1; [|by eapply confined_put].
  eapply confined_mkdirs; [exact Hm|apply parent_prefix].
Qed.

Lemma confined_mkdir_p s p s' : mkdir_p s p = Some s' → confined p s s'.
Proof. intros H. by eapply confined_mkdirs. Qed.

(** ** Operations that lose nothing *)

Lemma grows_refl s : grows s s.
Proof. by intros q. Qed.

Lemma grows_trans s1 s2 s3 : grows s1 s2 → grows s2 s3 → grows s1 s3.
Proof. intros H1 H2 q. destruct (H1 q), (H2 q). split; auto. Qed.

Lemma safe_refl d s : safe d s s.
Proof. by intros q _. Qed.

Lemma safe_trans d s1 s2 s3 : safe d s1 s2 → safe d s2 s3 → safe d s1 s3.
Proof. intros H1 H2 q Hq. destruct (H1 q Hq), (H2 q Hq). split; auto. Qed.

Lemma grows_safe d s s' : grows s s' → safe d s s'.
Proof. intros H q _. apply H. Qed.

Lemma safe_le d d' s s' : (d' ≤ d)%nat → safe d s s' → safe d' s s'.
Proof. intros Hd H q Hq. apply H. lia. Qed.

Lemma prefix_cases (p q : path) :
  unrelated p q ∨ (q `prefix_of` p ∧ q ≠ p) ∨ p `prefix_of` q.
Proof.
  destruct (decide (p `prefix_of` q)); [by right; right|].
  destruct (decide (q `prefix_of` p)) as [Hq|Hq]; [|by left].
  right; left. split; [done|]. by intros ->.
Qed.

Lemma put_grows s p v s' : put s p v = Some s' → is_dir s p = false → grows s s'.
Proof.
  intros H Hd q. destruct (prefix_cases p q) as [Hu|[[Hp Hne]|[k ->]]].
  - unfold exists_, is_dir. by rewrite (put_frame _ _ _ _ _ H Hu).
  - destruct (put_ancestor _ _ _ _ _ H Hp Hne) as [H1 H2].
    split; intros _; [by apply is_dir_exists|done].
  - destruct k as [|x k].
    + rewrite app_nil_r. split; [|by rewrite Hd].
      intros _. apply exists_get. rewrite (put_get _ _ _ _ H). eauto.
    + split.
      * intros He. apply exists_get in He.
        assert (is_dir s p = true); [|congruence].
        apply (get_prefix_dir s p (p ++ x :: k)); [by eexists| |done].
        intros E. apply (f_equal length) in E. rewrite length_app in E. simpl in E. lia.
      * intros He. apply is_dir_exists, exists_get in He.
        assert (is_dir s p = true); [|congruence].
        apply (get_prefix_dir s p (p ++ x :: k)); [by eexists| |done].
        intros E. apply (f_equal length) in E. rewrite length_app in E. simpl in E. lia.
Qed.

Lemma mkdirs_grows s p s' : mkdirs s p = Some s' → grows s s'.
Proof.
  intros H q. destruct (decide (q `prefix_of` p)) as [Hp|Hp].
  - pose proof (mkdirs_dir _ _ _ _ H Hp) as Hd.
    split; intros _; [by apply is_dir_exists|done].
  - unfold exists_, is_dir. by rewrite (mkdirs_frame _ _ _ _ H Hp).
Qed.

Lemma copy2_grows s src dst s' : copy2 s src dst = Some s' → grows s s'.
Proof.
  unfold copy2. intros H. destruct (get s src) as [[t d|]|]; try done.
  destruct (decide _); [done|].
  destruct (is_dir s (if is_dir s dst then _ else _)) eqn:Hd; [done|].
  by eapply put_grows.
Qed.

Lemma is_dir_false_of_not_exists s p : exists_ s p = false → is_dir s p = false.
Proof. unfold exists_, is_dir. by destruct (get s p) as [[|]|]. Qed.

Lemma copytree_grows s src dst s' : copytree s src dst = Some s' → grows s s'.
Proof.
  unfold copytree. intros H. destruct (get s src) as [[|ch]|]; try done.
  destruct (exists_ s dst) eqn:He; [done|].
  destruct (mkdirs s (parent dst)) as [s1|] eqn:Hm; [|done].
  apply grows_trans with s1; [by eapply mkdirs_grows|].
  eapply put_grows; [exact H|].
  destruct (decide (dst `prefix_of` parent dst)) as [Hp|Hp].
  - pose proof (parent_prefix dst) as Hp'.
    assert (parent dst = dst) as E.
    { destruct Hp as [k Hk], Hp' as [k' Hk']. rewrite Hk in Hk' at 1.
      rewrite <- (assoc_L (++)) in Hk'. rewrite <- (app_nil_r dst) in Hk' at 1.
      apply app_inv_head in Hk'. symmetry in Hk'. apply app_eq_nil in Hk' as [-> _].
      by rewrite app_nil_r in Hk. }
    (* the destination is the root *)
    destruct dst as [|x dst]; [|exfalso].
    + unfold exists_ in He. simpl in He. done.
    + unfold parent in E. pose proof (f_equal length E) as El.
      assert (x :: dst ≠ []) as Hne by done.
      destruct (exists_last Hne) as (q & y & Hq). rewrite Hq in El.
      rewrite removelast_last, length_app in El. simpl in El. lia.
  - unfold is_dir. rewrite (mkdirs_frame _ _ _ _ Hm Hp).
    by apply is_dir_false_of_not_exists.
Qed.

Lemma mkdir_p_grows s p s' : mkdir_p s p = Some s' → grows s s'.
Proof. apply mkdirs_grows. Qed.

(** ** Replacing a tree, and the effect of copying one entry *)

Lemma prefix_length_eq_path (p q : path) :
  p `prefix_of` q → (length q ≤ length p)%nat → q = p.
Proof.
  intros [k ->] Hl. rewrite length_app in Hl. destruct k; [by rewrite app_nil_r|].
  simpl in Hl. lia.
Qed.

Lemma safe_of_confined t s s' :
  confined t s s' →
  (exists_ s t = true → exists_ s' t = true) →
  (is_dir s t = true → is_dir s' t = true) →
  safe (length t) s s'.
Proof.
  intros Hc He Hd q Hq. destruct (decide (t `prefix_of` q)) as [Hp|Hp].
  - apply prefix_length_eq_path in Hp as ->; [|done]. done.
  - split; [by eapply confined_exists|by eapply confined_is_dir].
Qed.

Lemma length_child (p : path) (n : string) : length (child p n) = S (length p).
Proof. unfold child. rewrite length_app. simpl. lia. Qed.

Lemma child_ne_nil (p : path) (n : string) : child p n ≠ [].
Proof. unfold child. by destruct p. Qed.

Lemma replace_tree s item t s1 :
  rmtree s t = Some s1 → unrelated t item → is_dir s item = true →
  ∃ s', copytree s1 item t = Some s' ∧ is_dir s' t = true.
Proof.
  unfold rmtree. intros Hr Hu Hi. destruct (is_dir s t) eqn:Ht; [|done].
  assert (Hne : t ≠ []) by (intros ->; done).
  apply is_dir_get in Hi as [ch Hi]. unfold copytree.
  rewrite (remove_frame _ _ _ _ Hr Hu), Hi.
  unfold exists_. rewrite (remove_get _ _ _ Hr).
  assert (Hpd : is_dir s1 (parent t) = true).
  { destruct (exists_last Hne) as (q & x & ->). unfold parent. rewrite removelast_last.
    apply (remove_ancestor _ _ _ q Hr); [by exists [x]|].
    intros E. apply (f_equal length) in E. rewrite length_app in E. simpl in E. lia. }
  rewrite (mkdirs_id _ _ Hpd).
  destruct (put_is_Some s1 t (Dir ch) Hne Hpd) as [s' Hs']. exists s'. split; [done|].
  unfold is_dir. by rewrite (put_get _ _ _ _ Hs').
Qed.

Ltac split4 := split; [done|split; [done|split]].

Lemma replace_dir_effect src t w r w' :
  replace_dir src t w = (r, w') →
  now w' = now w ∧ confined t (fs w) (fs w')
  ∧ (unrelated t src → is_dir (fs w) src = true →
     safe (length t) (fs w) (fs w')
     ∧ (r = Val tt → get (fs w') t = get (fs w) src)
     ∧ (is_file (fs w) t = false → is_dir (fs w) (parent t) = true → t ≠ [] →
        r = Val tt)).
Proof.
  unfold replace_dir. munfold. intros H.
  destruct (exists_ (fs w) t) eqn:He; simpl in H.
  - destruct (rmtree (fs w) t) as [s1|] eqn:Hr; simpl in H.
    + destruct (copytree s1 src t) as [s'|] eqn:Hc; simpl in H;
        injection H as <- <-; simpl.
      * assert (Hconf : confined t (fs w) s').
        { eapply confined_trans; [by eapply confined_rmtree|].
          by eapply confined_copytree. }
        split; [done|]. split; [done|]. intros Hu Hd.
        destruct (replace_tree _ _ _ _ Hr Hu Hd) as (s'' & Hc' & Hd').
        rewrite Hc in Hc'. injection Hc' as <-.
        split; [|split; [|done]].
        -- apply safe_of_confined; [done| |done]. intros _. by apply is_dir_exists.
        -- intros _. unfold copytree in Hc. unfold rmtree in Hr.
           destruct (is_dir (fs w) t); [|done].
           rewrite (remove_frame _ _ _ _ Hr Hu) in Hc.
           destruct (get (fs w) src) as [[|ch]|]; try done.
           destruct (exists_ s1 t); [done|].
           destruct (mkdirs s1 (parent t)); [|done]. by rewrite (put_get _ _ _ _ Hc).
      * split; [done|]. split; [by eapply confined_rmtree|]. intros Hu Hd.
        destruct (replace_tree _ _ _ _ Hr Hu Hd) as (s'' & Hc' & _). congruence.
    + injection H as <- <-. split; [done|]. split; [apply confined_refl|].
      intros Hu Hd. split; [apply safe_refl|]. split; [done|].
      intros Hf _ Hne. unfold rmtree in Hr.
      rewrite exists_is_dir_or_file, Hf, orb_false_r in He. rewrite He in Hr.
      destruct (remove_is_Some (fs w) t) as [s1 Hs1];
        [done|by apply is_dir_exists|congruence].
  - destruct (copytree (fs w) src t) as [s'|] eqn:Hc; simpl in H;
      injection H as <- <-; simpl.
    + split; [done|]. split; [by eapply confined_copytree|]. intros Hu Hd.
      split; [by eapply grows_safe, copytree_grows|]. split; [|done].
      intros _. unfold copytree in Hc. rewrite He in Hc.
      destruct (get (fs w) src) as [[|ch]|]; try done.
      destruct (mkdirs (fs w) (parent t)); [|done]. by rewrite (put_get _ _ _ _ Hc).
    + split; [done|]. split; [apply confined_refl|]. intros Hu Hd.
      split; [apply safe_refl|]. split; [done|]. intros _ Hp Hne.
      apply is_dir_get in Hd as [ch Hg]. unfold copytree in Hc.
      rewrite Hg, He, (mkdirs_id _ _ Hp) in Hc.
      destruct (put_is_Some (fs w) t (Dir ch) Hne Hp) as [s' Hs']. congruence.
Qed.

Lemma copy_entry_effect dst item w r w' :
  copy_entry dst item w = (r, w') →
  r = Val tt ∧ now w' = now w
  ∧ confined (child dst (name item)) (fs w) (fs w')
  ∧ (unrelated (child dst (name item)) item →
     safe (S (length dst)) (fs w) (fs w')).
Proof.
  set (t := child dst (name item)).
  assert (Hlen : length t = S (length dst)) by apply length_child.
  unfold copy_entry. intros H. fold t in H.
  unfold try_, bind at 1, test at 1 in H.
  destruct (is_file (fs w) item) eqn:Hf.
  - unfold fs_op, warn, emit in H.
    destruct (copy2 (fs w) item t) as [s'|] eqn:Hc; simpl in H;
      injection H as <- <-; simpl.
    + split4; [by eapply confined_copy2|].
      intros _. rewrite <- Hlen. by eapply grows_safe, copy2_grows.
    + split4; [apply confined_refl|intros _; apply safe_refl].
  - unfold bind at 1, test at 1 in H.
    destruct (is_dir (fs w) item) eqn:Hd.
    + destruct (replace_dir item t w) as [r1 w1] eqn:Hr.
      apply replace_dir_effect in Hr as (Hn & Hc & Hs).
      assert (r = Val tt ∧ fs w' = fs w1 ∧ now w' = now w1) as (-> & Hfs & Hnw).
      { destruct r1 as [[]|]; unfold warn, emit in H; by injection H as <- <-. }
      rewrite Hfs. split; [done|]. split; [congruence|]. split; [done|].
      intros Hu. rewrite <- Hlen. by apply Hs.
    + unfold ret in H. injection H as <- <-.
      split4; [apply confined_refl|intros _; apply safe_refl].
Qed.

(** ** The loops of [copy_structured_mod] *)

Lemma inside_refl g s : inside g s s.
Proof. by intros q _. Qed.

Lemma inside_trans g s1 s2 s3 : inside g s1 s2 → inside g s2 s3 → inside g s1 s3.
Proof.
  intros H12 H23 q Hq. destruct (H12 q Hq) as (Ha & Hb & Hc).
  destruct (H23 q Hq) as (Ha' & Hb' & Hc'). split; [|split].
  - intros Hn. by rewrite Ha', Ha.
  - by rewrite Hb', Hb.
  - auto.
Qed.

Lemma inside_confined g s s' : inside g s s' → confined g s s'.
Proof. intros H q Hq. apply H. tauto. Qed.

Lemma confined_child_inside g n s s' : confined (child g n) s s' → inside g s s'.
Proof.
  intros H q Hq.
  assert (Hq' : ¬ child g n `prefix_of` q).
  { intros Hc. apply Hq. split; [by etrans; [apply child_prefix|]|].
    intros ->. destruct Hc as [k Hk]. apply (f_equal length) in Hk.
    unfold child in Hk. rewrite !length_app in Hk. simpl in Hk. lia. }
  destruct (H q Hq') as (Ha & Hb & Hc). split; [|done].
  intros Hn. apply Ha. intros Hc'. apply Hn.
  destruct (decide (q = child g n)) as [->|Hne]; [done|].
  destruct Hc' as [k Hk]. unfold child in Hk.
  destruct (exists_last (l := k)) as (k' & x & ->).
  { intros ->. rewrite app_nil_r in Hk. by subst. }
  rewrite (assoc_L (++)) in Hk. apply app_inj_tail in Hk as [-> _]. by eexists.
Qed.

Lemma inside_is_dir g s s' : inside g s s' → is_dir s g = true → is_dir s' g = true.
Proof. intros H. apply (H g). tauto. Qed.

Lemma copy_entries_effect dst items w r w' :
  for_each items (copy_entry dst) w = (r, w') →
  r = Val tt ∧ now w' = now w
  ∧ inside dst (fs w) (fs w')
  ∧ ((∀ item, item ∈ items → unrelated (child dst (name item)) item) →
     safe (S (length dst)) (fs w) (fs w')).
Proof.
  revert w. induction items as [|item items IH]; intros w H; simpl in H.
  - injection H as <- <-. split4; [apply inside_refl|intros _; apply safe_refl].
  - unfold bind in H. destruct (copy_entry dst item w) as [r1 w1] eqn:H1.
    apply copy_entry_effect in H1 as (-> & Hn1 & Hc1 & Hs1).
    apply IH in H as (-> & Hn & Hc & Hs).
    split; [done|]. split; [congruence|]. split.
    + eapply inside_trans; [|exact Hc]. by eapply confined_child_inside.
    + intros Hu. eapply safe_trans; [apply Hs1, Hu; left|].
      apply Hs. intros i Hi. apply Hu. by right.
Qed.

Lemma copy_entry_target_exists dst item w r w' :
  copy_entry dst item w = (r, w') →
  exists_ (fs w) item = true → is_dir (fs w) dst = true →
  unrelated (child dst (name item)) item →
  exists_ (fs w') (child dst (name item)) = true.
Proof.
  set (t := child dst (name item)).
  unfold copy_entry. intros H He Hd Hu. fold t in H.
  assert (Hpt : parent t = dst) by apply parent_child.
  assert (Hne : t ≠ []) by apply child_ne_nil.
  unfold try_, bind at 1, test at 1 in H.
  destruct (is_file (fs w) item) eqn:Hf.
  - unfold fs_op, warn, emit in H.
    destruct (copy2 (fs w) item t) as [s'|] eqn:Hc; simpl in H;
      injection H as <- <-; simpl.
    + unfold copy2 in Hc. apply is_file_get in Hf as (tm & d & Hg). rewrite Hg in Hc.
      destruct (is_dir (fs w) t) eqn:Hdt.
      * destruct (decide _); [done|].
        destruct (is_dir (fs w) (joinpath t (name item))) eqn:Hd2; [done|].
        apply (put_grows _ _ _ _ Hc Hd2). by apply is_dir_exists.
      * destruct (decide _); [done|]. rewrite Hdt in Hc.
        apply exists_get. rewrite (put_get _ _ _ _ Hc). eauto.
    + unfold copy2 in Hc. apply is_file_get in Hf as (tm & d & Hg). rewrite Hg in Hc.
      destruct (is_dir (fs w) t) eqn:Hdt; [by apply is_dir_exists|].
      destruct (decide (item = t)) as [E|_].
      { destruct Hu as [Hu _]. destruct Hu. by rewrite E. }
      rewrite Hdt in Hc.
      destruct (put_is_Some (fs w) t (File tm d) Hne) as [s' Hs']; [by rewrite Hpt|].
      congruence.
  - assert (Hdi : is_dir (fs w) item = true).
    { rewrite exists_is_dir_or_file, Hf, orb_false_r in He. done. }
    unfold bind at 1, test at 1 in H. rewrite Hdi in H.
    destruct (replace_dir item t w) as [r1 w1] eqn:Hr.
    apply replace_dir_effect in Hr as (Hn & Hc & Hs).
    destruct (Hs Hu Hdi) as (Hsafe & Hget & Hok).
    assert (fs w' = fs w1) as ->.
    { destruct r1 as [[]|]; unfold warn, emit in H; by injection H as <- <-. }
    destruct (exists_ (fs w) t) eqn:Het.
    + by apply (Hsafe t).
    + apply exists_get. rewrite Hget.
      * apply exists_get. by apply is_dir_exists.
      * apply Hok; [|by rewrite Hpt|done].
        rewrite exists_is_dir_or_file in Het. by apply orb_false_iff in Het as [_ ?].
Qed.

Lemma copy_entries_exist dst items w r w' :
  for_each items (copy_entry dst) w = (r, w') →
  is_dir (fs w) dst = true →
  (∀ item, item ∈ items → unrelated dst item ∧ exists_ (fs w) item = true) →
  ∀ item, item ∈ items → exists_ (fs w') (child dst (name item)) = true.
Proof.
  revert w. induction items as [|i items IH]; intros w H Hd Hok item Hin.
  - by apply elem_of_nil in Hin.
  - simpl in H. unfold bind in H.
    destruct (copy_entry dst i w) as [r1 w1] eqn:H1.
    assert (Hu : ∀ x, x ∈ i :: items → unrelated (child dst (name x)) x).
    { intros x Hx. apply unrelated_app_l. by apply Hok. }
    pose proof (copy_entry_target_exists _ _ _ _ _ H1 (proj2 (Hok i (list_elem_of_here _ _)))
                  Hd (Hu i (list_elem_of_here _ _))) as He1.
    apply copy_entry_effect in H1 as (-> & Hn1 & Hc1 & Hs1).
    specialize (Hs1 (Hu i (list_elem_of_here _ _))).
    pose proof H as H'. apply copy_entries_effect in H' as (_ & _ & Hc & Hs).
    apply inside_confined in Hc.
    assert (Hd1 : is_dir (fs w1) dst = true).
    { apply (Hs1 dst); [lia|done]. }
    apply elem_of_cons in Hin as [->|Hin].
    + refine (proj1 (Hs _ (child dst (name i)) _) He1); [|by rewrite length_child].
      intros x Hx. apply Hu. by right.
    + apply (IH w1 H Hd1); [|done].
      intros x Hx. destruct (Hok x ltac:(by right)) as [Hux Hex].
      split; [done|]. unfold exists_.
      rewrite (confined_unrelated _ _ _ x (confined_mono _ _ _ _ (child_prefix dst (name i)) Hc1) Hux).
      exact Hex.
Qed.

(** ** Taking sequenced computations apart *)

Lemma bind_inv {A B} (m : M A) (k : A → M B) w r w' :
  bind m k w = (r, w') →
  (∃ a w1, m w = (Val a, w1) ∧ k a w1 = (r, w'))
  ∨ (∃ e, m w = (Exc e, w') ∧ r = Exc e).
Proof.
  unfold bind. destruct (m w) as [[a|e] w1]; intros H.
  - left. eauto.
  - right. injection H as <- <-. eauto.
Qed.

Lemma try_inv {A} (m h : M A) w r w' :
  try_ m h w = (r, w') →
  (∃ a, m w = (Val a, w') ∧ r = Val a)
  ∨ (∃ e w1, m w = (Exc e, w1) ∧ h w1 = (r, w')).
Proof.
  unfold try_. destruct (m w) as [[a|e] w1]; intros H.
  - left. injection H as <- <-. eauto.
  - right. eauto.
Qed.

Lemma test_inv {A} (f : node → A) w r w' :
  test f w = (r, w') → r = Val (f (fs w)) ∧ w' = w.
Proof. unfold test. by intros [= <- <-]. Qed.

Lemma emit_inv e w r w' :
  emit e w = (r, w') → r = Val tt ∧ w' = World (fs w) (now w) (log w ++ [e]).
Proof. unfold emit. by intros [= <- <-]. Qed.

Lemma fs_op_inv f w r w' :
  fs_op f w = (r, w') →
  (∃ s', f (fs w) = Some s' ∧ r = Val tt ∧ w' = World s' (now w) (log w))
  ∨ (f (fs w) = None ∧ r = Exc OSError ∧ w' = w).
Proof.
  unfold fs_op. destruct (f (fs w)) as [s'|]; intros [= <- <-]; [left|right]; eauto.
Qed.

Lemma ret_inv {A} (a : A) w r w' : ret a w = (r, w') → r = Val a ∧ w' = w.
Proof. unfold ret. by intros [= <- <-]. Qed.

(** ** Effects, compositionally *)

Section Effects.
Context (R : node → node → Prop) `{!PreOrder R}.

Lemma eff_ret {A} (a : A) w : effect_at R (ret a) w.
Proof. intros r w' [-> ->]%ret_inv. reflexivity. Qed.

Lemma eff_raise {A} e w : effect_at R (@raise A e) w.
Proof. unfold raise. intros r w' [= <- <-]. reflexivity. Qed.

Lemma eff_test {A} (f : node → A) w : effect_at R (test f) w.
Proof. intros r w' [-> ->]%test_inv. reflexivity. Qed.

Lemma eff_emit e w : effect_at R (emit e) w.
Proof. intros r w' [-> ->]%emit_inv. simpl. reflexivity. Qed.

Lemma eff_fs_op f w :
  (∀ s', f (fs w) = Some s' → R (fs w) s') → effect_at R (fs_op f) w.
Proof.
  intros Hf r w' [(s' & Hs & -> & ->)|(_ & -> & ->)]%fs_op_inv; [|reflexivity].
  by apply Hf.
Qed.

Lemma eff_bind {A B} (m : M A) (k : A → M B) w :
  effect_at R m w →
  (∀ a w1, m w = (Val a, w1) → R (fs w) (fs w1) → effect_at R (k a) w1) →
  effect_at R (bind m k) w.
Proof.
  intros Hm Hk r w' [(a & w1 & H1 & H2)|(e & H1 & ->)]%bind_inv.
  - pose proof (Hm _ _ H1) as HR1. pose proof (Hk _ _ H1 HR1 _ _ H2) as HR2.
    by etrans.
  - by apply Hm in H1.
Qed.

Lemma eff_bind_test {A B} (f : node → A) (k : A → M B) w :
  effect_at R (k (f (fs w))) w → effect_at R (bind (test f) k) w.
Proof.
  intros Hk. apply eff_bind; [apply eff_test|].
  intros a w1 [[= ->] ->]%test_inv _. done.
Qed.

Lemma eff_bind_emit {B} e (k : unit → M B) w :
  (∀ w1, fs w1 = fs w → effect_at R (k tt) w1) →
  effect_at R (bind (emit e) k) w.
Proof.
  intros Hk. apply eff_bind; [apply eff_emit|].
  intros [] w1 [_ ->]%emit_inv _. by apply Hk.
Qed.

Lemma eff_try {A} (m h : M A) w :
  effect_at R m w →
  (∀ e w1, m w = (Exc e, w1) → R (fs w) (fs w1) → effect_at R h w1) →
  effect_at R (try_ m h) w.
Proof.
  intros Hm Hh r w' [(a & H1 & ->)|(e & w1 & H1 & H2)]%try_inv.
  - by apply Hm in H1.
  - pose proof (Hm _ _ H1) as HR1. pose proof (Hh _ _ H1 HR1 _ _ H2) as HR2.
    by etrans.
Qed.

(** A loop whose body keeps an invariant [I] of the file system. *)
Lemma eff_for_each {A} (I : node → Prop) (l : list A) (body : A → M unit) w :
  I (fs w) →
  (∀ s s', I s → R s s' → I s') →
  (∀ x w1, x ∈ l → I (fs w1) → effect_at R (body x) w1) →
  effect_at R (for_each l body) w.
Proof.
  intros HI Hpres Hbody. revert w HI. induction l as [|x l IH]; intros w HI; simpl.
  - apply eff_ret.
  - apply eff_bind; [apply Hbody; [left|done]|].
    intros [] w1 H1 HR. apply IH.
    + intros y w2 Hy. apply Hbody. by right.
    + by eapply Hpres.
Qed.

Lemma eff_count_each {A} (I : node → Prop) (l : list A) (body : A → M bool) acc w :
  I (fs w) →
  (∀ s s', I s → R s s' → I s') →
  (∀ x w1, x ∈ l → I (fs w1) → effect_at R (body x) w1) →
  effect_at R (count_each l body acc) w.
Proof.
  intros HI Hpres Hbody. revert acc w HI.
  induction l as [|x l IH]; intros acc w HI; simpl.
  - apply eff_ret.
  - apply eff_bind; [apply Hbody; [left|done]|].
    intros b w1 H1 HR. apply IH.
    + intros y w2 Hy. apply Hbody. by right.
    + by eapply Hpres.
Qed.

End Effects.

Lemma unrelated_both (g p g' p' : path) :
  unrelated g p → g `prefix_of` g' → p `prefix_of` p' → unrelated g' p'.
Proof. intros H [k ->] [k' ->]. by apply unrelated_app_l, unrelated_app_r. Qed.

(** ** A sub-root lookup only reads the source *)

Lemma find_ext {A} (f g : A → bool) (l : list A) :
  (∀ x, x ∈ l → f x = g x) → List.find f l = List.find g l.
Proof.
  induction l as [|x l IH]; intros H; simpl; [done|].
  rewrite (H x) by left. destruct (g x); [done|]. apply IH. intros y Hy. apply H. by right.
Qed.

Lemma iterdir_same s s' p : get s' p = get s p → iterdir s' p = iterdir s p.
Proof. intros E. unfold iterdir, listdir. by rewrite E. Qed.

Lemma find_subdir_same s s' p nm :
  get s' p = get s p →
  find_subdir_case_insensitive s' p nm = find_subdir_case_insensitive s p nm.
Proof.
  intros E. unfold find_subdir_case_insensitive, exists_. rewrite E.
  destruct (get s p) as [n|] eqn:Hg; [|done]. cbn [negb].
  rewrite (iterdir_same s s' p) by congruence.
  apply find_ext. intros item (x & -> & _)%iterdir_elem.
  unfold is_dir, child. by rewrite !get_app, E, Hg.
Qed.

Lemma has_structure_same s s' p :
  get s' p = get s p → has_structure s' p = has_structure s p.
Proof.
  intros E. unfold has_structure. simpl. by rewrite !(find_subdir_same s s' p _ E).
Qed.

Lemma unrelated_child_ext (g : path) (a b : string) (t q : path) :
  a ≠ b → child g a `prefix_of` t → child g b `prefix_of` q → unrelated t q.
Proof.
  intros Hab Ht Hq. eapply unrelated_both; [by apply (unrelated_child g a b)|done|done].
Qed.

(** ** Deployment steps *)

Section Deploys.
Variables (g : path) (m : string) (srcs : list path) (ok : Prop).
Hypothesis srcs_away : ∀ p, p ∈ srcs → unrelated g p.

Lemma deploys_refl s : deploys g m srcs ok s s.
Proof.
  split; [apply confined_refl|]. split; [intros _; apply safe_refl|].
  intros nm _ _ H. exact H.
Qed.

Lemma deploys_source s s' p :
  deploys g m srcs ok s s' → p ∈ srcs → get s' p = get s p.
Proof. intros [Hc _] Hp. eapply confined_unrelated; [exact Hc|by apply srcs_away]. Qed.

Lemma deploys_trans s1 s2 s3 :
  deploys g m srcs ok s1 s2 → deploys g m srcs ok s2 s3 → deploys g m srcs ok s1 s3.
Proof.
  intros H12 H23. pose proof H12 as (Hc & Hs & Hn). destruct H23 as (Hc' & Hs' & Hn').
  split; [by eapply confined_trans|]. split.
  - intros Hok. eapply safe_trans; [by apply Hs|by apply Hs'].
  - intros nm Hfree Hne Hd. apply (Hn nm Hfree Hne). apply (Hn' nm); [|done|done].
    intros p Hp. rewrite (find_subdir_same s1 s2 p nm); [by apply Hfree|].
    by eapply deploys_source.
Qed.

(** A step whose changes lie under the mods directory. *)
Lemma deploys_under_mods t s s' :
  child g m `prefix_of` t → confined t s s' →
  (ok → safe (S (S (length g))) s s') →
  deploys g m srcs ok s s'.
Proof.
  intros Ht Hc Hs. split; [|split; [done|]].
  - eapply confined_mono; [|exact Hc]. etrans; [apply child_prefix|exact Ht].
  - intros nm _ Hne. unfold no_new_dir, is_dir.
    rewrite (confined_unrelated _ _ _ (child g nm) Hc); [done|].
    eapply unrelated_child_ext; [|exact Ht|done]. congruence.
Qed.

(** A step whose changes lie under a sibling that a source asks for. *)
Lemma deploys_under_sibling nm0 t s s' :
  child g nm0 `prefix_of` t → confined t s s' →
  (ok → safe (S (S (length g))) s s') →
  (∃ p, p ∈ srcs ∧ find_subdir_case_insensitive s p nm0 ≠ None) →
  deploys g m srcs ok s s'.
Proof.
  intros Ht Hc Hs (p0 & Hp0 & Hfound). split; [|split; [done|]].
  - eapply confined_mono; [|exact Hc]. etrans; [apply child_prefix|exact Ht].
  - intros nm Hfree Hne. destruct (decide (nm = nm0)) as [->|Hnm].
    { destruct Hfound. by apply Hfree. }
    unfold no_new_dir, is_dir.
    rewrite (confined_unrelated _ _ _ (child g nm) Hc); [done|].
    eapply unrelated_child_ext; [|exact Ht|done]. congruence.
Qed.

End Deploys.

(** ** The copy operations are deployment steps *)

Lemma copy2_no_new_dir s src dst s' q : copy2 s src dst = Some s' → no_new_dir q s s'.
Proof.
  unfold copy2, no_new_dir. intros H. destruct (get s src) as [[t d|]|]; try done.
  destruct (decide _); [done|].
  destruct (is_dir s (if is_dir s dst then _ else _)) eqn:Hd; [done|].
  set (t' := if is_dir s dst then joinpath dst (name src) else dst) in *.
  destruct (prefix_cases t' q) as [Hu|[[Hp Hne]|[k ->]]].
  - unfold is_dir. by rewrite (put_frame _ _ _ _ _ H Hu).
  - intros _. by apply (put_ancestor _ _ _ _ _ H Hp Hne).
  - unfold is_dir at 1. rewrite (put_get_below _ _ _ _ k H). by destruct k.
Qed.

Section DeployEffects.
Variables (g : path) (m : string) (srcs : list path) (ok : Prop).
Hypothesis srcs_away : ∀ p, p ∈ srcs → unrelated g p.
Hypothesis srcs_named : ok → ∀ p, p ∈ srcs → name p ≠ "".

Abbreviation R := (deploys g m srcs ok).

#[local] Instance deploys_preorder : PreOrder R.
Proof.
  split; [intros s; apply deploys_refl|].
  intros s1 s2 s3. by apply deploys_trans.
Qed.

Lemma length_mods_child n : length (child (child g m) n) = S (S (length g)).
Proof. by rewrite !length_child. Qed.

Lemma eff_copy2 src dst w :
  g `prefix_of` dst → effect_at R (fs_op (λ s, copy2 s src dst)) w.
Proof.
  intros Hg. apply (eff_fs_op R). intros s' H. split; [|split].
  - eapply confined_mono; [exact Hg|by eapply confined_copy2].
  - intros _. by eapply grows_safe, copy2_grows.
  - intros nm _ _. by eapply copy2_no_new_dir.
Qed.

Lemma eff_replace_mods src t w :
  child g m `prefix_of` t →
  (ok → unrelated t src ∧ is_dir (fs w) src = true ∧ length t = S (S (length g))) →
  effect_at R (replace_dir src t) w.
Proof.
  intros Ht Hok r w' H. apply replace_dir_effect in H as (_ & Hc & Hs).
  apply (deploys_under_mods g m srcs ok t); [done|done|].
  intros Hk. destruct (Hok Hk) as (Hu & Hd & <-). by apply Hs.
Qed.

Lemma eff_copy_entry_mods item w :
  (∃ p, p ∈ srcs ∧ p `prefix_of` item) →
  effect_at R (copy_entry (child g m) item) w.
Proof.
  intros (p & Hp & Hpi) r w' H. apply copy_entry_effect in H as (_ & _ & Hc & Hs).
  apply (deploys_under_mods g m srcs ok (child (child g m) (name item)));
    [apply child_prefix|done|].
  intros _. rewrite length_child in Hs. apply Hs.
  eapply unrelated_both; [by apply srcs_away| |done].
  etrans; apply child_prefix.
Qed.

Lemma eff_copy_entry_sibling nm0 item w :
  (∃ p, p ∈ srcs ∧ p `prefix_of` item
        ∧ find_subdir_case_insensitive (fs w) p nm0 ≠ None) →
  effect_at R (copy_entry (child g nm0) item) w.
Proof.
  intros (p & Hp & Hpi & Hf) r w' H. apply copy_entry_effect in H as (_ & _ & Hc & Hs).
  apply (deploys_under_sibling g m srcs ok nm0 (child (child g nm0) (name item)));
    [apply child_prefix|done| |by eauto].
  intros _. rewrite length_child in Hs. apply Hs.
  eapply unrelated_both; [by apply srcs_away| |done].
  etrans; apply child_prefix.
Qed.

Lemma item_below_source s p nm sub item :
  find_subdir_case_insensitive s p nm = Some sub → item ∈ iterdir s sub →
  p `prefix_of` item.
Proof.
  intros (n & -> & _)%find_subdir_Some (x & -> & _)%iterdir_elem.
  etrans; apply child_prefix.
Qed.

Lemma iterdir_below s sub item : item ∈ iterdir s sub → sub `prefix_of` item.
Proof. intros (x & -> & _)%iterdir_elem. apply child_prefix. Qed.

(** The fan-out of the "Mods" root. *)
Lemma eff_mods_part p w :
  p ∈ srcs →
  effect_at R
    (let* mods_subdir := test (λ s, find_subdir_case_insensitive s p "Mods") in
     match mods_subdir with
     | Some sub =>
         let* items := test (λ s, iterdir s sub) in
         for_each items (copy_entry (child g m))
     | None => ret tt
     end) w.
Proof.
  intros Hp. apply (eff_bind_test R).
  destruct (find_subdir_case_insensitive (fs w) p "Mods") as [sub|] eqn:Hf;
    [|apply (eff_ret R)].
  apply (eff_bind_test R).
  apply (eff_for_each R (λ _, True)); [done|done|].
  intros item w1 Hin _. apply eff_copy_entry_mods. exists p. split; [done|].
  by eapply item_below_source.
Qed.

(** The fan-out of a root that goes to a sibling of the mods directory. *)
Lemma eff_sibling_part nm0 p w :
  p ∈ srcs → nm0 ≠ "" →
  effect_at R
    (let* subdir := test (λ s, find_subdir_case_insensitive s p nm0) in
     match subdir with
     | Some sub =>
         let dst := joinpath (parent (child g m)) nm0 in
         fs_op (λ s, mkdir_p s dst) >>
         let* items := test (λ s, iterdir s sub) in
         for_each items (copy_entry dst)
     | None => ret tt
     end) w.
Proof.
  intros Hp Hnm. apply (eff_bind_test R).
  destruct (find_subdir_case_insensitive (fs w) p nm0) as [sub|] eqn:Hf;
    [|apply (eff_ret R)].
  rewrite parent_child, (joinpath_child _ _ Hnm). cbv zeta.
  assert (Hpsub : p `prefix_of` sub).
  { apply find_subdir_Some in Hf as (n & -> & _). apply child_prefix. }
  set (I := λ s, find_subdir_case_insensitive s p nm0 ≠ None).
  assert (HI : ∀ s s', I s → R s s' → I s').
  { intros s s' Hs HR. unfold I.
    rewrite (find_subdir_same s s' p nm0); [done|].
    by eapply (deploys_source g m srcs ok srcs_away). }
  assert (HI0 : I (fs w)) by (unfold I; congruence).
  apply (eff_bind R).
  - apply (eff_fs_op R). intros s' Hm.
    apply (deploys_under_sibling g m srcs ok nm0 (child g nm0)); [done| | |by eauto].
    + by eapply confined_mkdir_p.
    + intros _. by eapply grows_safe, mkdir_p_grows.
  - intros [] w1 _ HR1. apply (eff_bind_test R).
    apply (eff_for_each R I); [by eapply HI|done|].
    intros item w2 Hin HI2. apply eff_copy_entry_sibling.
    exists p. split; [done|]. split; [|done].
    etrans; [exact Hpsub|]. by eapply iterdir_below.
Qed.

Lemma eff_copy_structured_mod p w :
  p ∈ srcs → effect_at R (copy_structured_mod p (child g m)) w.
Proof.
  intros Hp. unfold copy_structured_mod.
  apply (eff_bind_test R).
  destruct (exists_ (fs w) p); cbn [negb]; [|apply (eff_emit R)].
  apply (eff_bind_emit R). intros w1 _.
  apply (eff_bind R); [by apply eff_mods_part|].
  intros [] w2 _ _.
  apply (eff_bind R); [by apply (eff_sibling_part "Plugins")|].
  intros [] w3 _ _. by apply (eff_sibling_part "UserLibs").
Qed.

Lemma eff_copy_mod_item p skip ts w :
  p ∈ srcs → effect_at R (copy_mod_item p (child g m) skip ts) w.
Proof.
  intros Hp. unfold copy_mod_item.
  apply (eff_bind_test R).
  destruct (exists_ (fs w) p) eqn:He; cbn [negb].
  2:{ apply (eff_bind_emit R). intros w1 _. apply (eff_ret R). }
  apply (eff_bind_test R).
  apply (eff_bind R).
  { destruct (ts && is_file (fs w) p); [|apply (eff_ret R)].
    apply (eff_bind_test R). apply (eff_emit R). }
  intros [] w1 _ HR1.
  assert (Hsame : get (fs w1) p = get (fs w) p)
    by (by eapply (deploys_source g m srcs ok srcs_away)).
  destruct (is_file (fs w) p) eqn:Hf.
  - apply (eff_bind_test R).
    destruct (skip && _).
    { apply (eff_bind_emit R). intros w2 _. apply (eff_ret R). }
    apply (eff_bind_emit R). intros w2 _.
    apply (eff_try R).
    + apply (eff_bind R); [|intros; apply (eff_ret R)].
      apply eff_copy2. etrans; [apply (child_prefix g m)|apply joinpath_prefix].
    + intros e w3 _ _. apply (eff_bind_emit R).
      intros w4 _. apply (eff_ret R).
  - apply (eff_bind_test R).
    assert (Hdir : is_dir (fs w1) p = true).
    { unfold is_dir. rewrite Hsame. fold (is_dir (fs w) p).
      rewrite exists_is_dir_or_file, Hf, orb_false_r in He. done. }
    destruct (has_structure (fs w1) p).
    + apply (eff_bind R).
      { destruct skip; [|apply (eff_ret R)].
        apply (eff_bind_test R).
        destruct (find_subdir_case_insensitive _ _ _); [apply (eff_test R)|apply (eff_ret R)]. }
      intros sk w2 _ _. destruct sk.
      { apply (eff_bind_emit R). intros w3 _. apply (eff_ret R). }
      apply (eff_bind_emit R). intros w3 _.
      apply (eff_bind R); [by apply eff_copy_structured_mod|].
      intros; apply (eff_ret R).
    + apply (eff_bind_test R).
      destruct (skip && _).
      { apply (eff_bind_emit R). intros w2 _. apply (eff_ret R). }
      apply (eff_bind_emit R). intros w2 Hw2.
      apply (eff_try R).
      * apply (eff_bind R); [|intros; apply (eff_ret R)].
        apply eff_replace_mods; [apply joinpath_prefix|].
        intros Hok. pose proof (srcs_named Hok p Hp) as Hnm.
        rewrite (joinpath_child _ _ Hnm), length_mods_child, Hw2.
        split; [|done]. eapply unrelated_both; [by apply srcs_away| |done].
        etrans; apply child_prefix.
      * intros e w3 _ _. apply (eff_bind_emit R).
        intros w4 _. apply (eff_ret R).
Qed.

End DeployEffects.

(** ** Process control leaves the file system alone *)

Section MoreEffects.
Context (R : node → node → Prop) `{!PreOrder R}.

Lemma eff_time w : effect_at R time_ w.
Proof. unfold time_. intros r w' [= <- <-]. reflexivity. Qed.

Lemma eff_sleep d w : effect_at R (sleep d) w.
Proof. unfold sleep. intros r w' [= <- <-]. simpl. reflexivity. Qed.

Lemma eff_of_eq {A} (m : M A) w : effect_at eq m w → effect_at R m w.
Proof. intros H r w' Hm. rewrite <- (H _ _ Hm). reflexivity. Qed.

Lemma eff_bind_any {A B} (m : M A) (k : A → M B) w :
  (∀ w1, effect_at R m w1) → (∀ a w1, effect_at R (k a) w1) →
  effect_at R (bind m k) w.
Proof. intros Hm Hk. apply (eff_bind R); [apply Hm|]. intros. apply Hk. Qed.

End MoreEffects.

Lemma eff_collect_valid base l valid w : effect_at eq (collect_valid base l valid) w.
Proof. intros r w' H. rewrite collect_valid_spec in H. by injection H as <- <-. Qed.

Section Process.
Variable host : platform.

Lemma eff_is_running exe w : effect_at eq (is_running host exe) w.
Proof.
  unfold is_running, run. apply (eff_bind_any eq).
  - intros w1. destruct (is_windows host); apply (eff_emit eq).
  - intros _ w1. apply (eff_bind_any eq); [apply (eff_time eq)|].
    intros t w2. apply (eff_ret eq).
Qed.

Lemma eff_wait_loop fuel exe deadline w :
  effect_at eq (wait_loop host fuel exe deadline) w.
Proof.
  revert w. induction fuel as [|fuel IH]; intros w; simpl.
  - apply (eff_raise eq).
  - apply (eff_bind_any eq); [apply (eff_time eq)|].
    intros t w1. destruct (Qltb t deadline); [|apply (eff_ret eq)].
    apply (eff_bind_any eq); [apply eff_is_running|].
    intros r w2. destruct r; simpl.
    + apply (eff_bind_any eq); [apply (eff_sleep eq)|]. intros _ w3. apply IH.
    + apply (eff_bind_any eq); [intros w3; apply (eff_emit eq)|].
      intros _ w3. apply (eff_ret eq).
Qed.

Lemma eff_wait_for_exit exe wait w : effect_at eq (wait_for_exit host exe wait) w.
Proof.
  unfold wait_for_exit. apply (eff_bind_any eq); [apply (eff_time eq)|].
  intros t w1. apply (eff_bind_any eq); [intros w2; apply eff_wait_loop|].
  intros b w2. destruct b; [apply (eff_ret eq)|apply (eff_emit eq)].
Qed.

Lemma eff_find_wineserver prefix w : effect_at eq (find_wineserver host prefix) w.
Proof.
  unfold find_wineserver, run. apply (eff_bind_any eq).
  - intros w1. destruct (truthy prefix); [|apply (eff_ret eq)].
    apply (eff_bind_any eq); [intros w2; apply (eff_test eq)|].
    intros e w2. apply (eff_ret eq).
  - intros [p|] w1; [apply (eff_ret eq)|].
    apply (eff_bind_any eq); [intros w2; apply (eff_emit eq)|].
    intros _ w2. apply (eff_ret eq).
Qed.

Lemma eff_kill_processes exe wait prefix w :
  effect_at eq (kill_processes host exe wait prefix) w.
Proof.
  unfold kill_processes, step, run.
  apply (eff_bind_any eq); [intros w1; apply (eff_emit eq)|]. intros _ w1.
  apply (eff_bind_any eq); [|intros _ w2; apply eff_wait_for_exit].
  intros w2. destruct (is_windows host); [apply (eff_emit eq)|].
  apply (eff_bind_any eq); [apply eff_find_wineserver|]. intros ws w3.
  apply (eff_bind_any eq); [|intros _ w4; apply (eff_emit eq)].
  intros w4. destruct ws; [|apply (eff_ret eq)].
  apply (eff_bind_any eq); [intros w5; apply (eff_emit eq)|].
  intros _ w5. apply (eff_sleep eq).
Qed.

Lemma eff_launch_game exe args uw wb prefix wd w :
  effect_at eq (launch_game exe args uw wb prefix wd) w.
Proof.
  unfold launch_game, step.
  apply (eff_bind_any eq); [intros w1; apply (eff_emit eq)|].
  intros _ w1. apply (eff_emit eq).
Qed.

Lemma eff_summary n w : effect_at eq (summary n) w.
Proof.
  unfold summary, print.
  apply (eff_bind_any eq); [intros w1; apply (eff_emit eq)|].
  intros _ w1. apply (eff_emit eq).
Qed.

End Process.

(** ** The stages of the pipeline are deployment steps *)

Section StageEffects.
Variables (host : platform) (g : path) (m : string) (srcs : list path) (keeping : Prop).
Hypothesis srcs_away : ∀ p, p ∈ srcs → unrelated g p.
Hypothesis srcs_named : keeping → ∀ p, p ∈ srcs → name p ≠ "".

Abbreviation R := (deploys g m srcs keeping).

#[local] Instance stage_preorder : PreOrder R.
Proof. by apply deploys_preorder. Qed.

Lemma eff_copy_user_mods l base force ts w :
  (∀ e, e ∈ l → entry_path base e ∈ srcs) →
  effect_at R (copy_user_mods l base (child g m) force ts) w.
Proof.
  intros Hl. unfold copy_user_mods. destruct l as [|e0 l0] eqn:El; [apply (eff_ret R)|].
  rewrite <- El in *. clear El e0 l0. unfold step.
  apply (eff_bind_emit R). intros w1 _.
  apply (eff_bind R); [apply (eff_of_eq R), eff_collect_valid|].
  intros valid w2 Hv _. rewrite collect_valid_spec in Hv. injection Hv as <- <-.
  apply (eff_count_each R (λ _, True)); [done|done|].
  intros p w3 Hp _. apply eff_copy_mod_item; [done|done|].
  simpl in Hp. apply list_elem_of_filter in Hp as [_ Hp].
  apply list_elem_of_fmap in Hp as (e & -> & He). by apply Hl.
Qed.

Lemma eff_copy_multiplayer_mods mp st force w :
  resolve host mp ∈ srcs →
  effect_at R (copy_multiplayer_mods host mp st (child g m) force) w.
Proof.
  intros Hmp. unfold copy_multiplayer_mods, step, ok, warn.
  apply (eff_bind_emit R). intros w1 _.
  apply (eff_bind_test R).
  apply (eff_bind R).
  { destruct (exists_ (fs w1) (resolve host mp)); cbn [negb].
    - apply (eff_bind R); [by apply eff_copy_mod_item|].
      intros b w2 _ _. destruct b; (apply (eff_bind_emit R); intros w3 _; apply (eff_ret R)).
    - apply (eff_bind_emit R); intros w3 _; apply (eff_ret R). }
  intros count w2 _ _. apply (eff_bind_test R).
  destruct (exists_ (fs w2) (resolve host st)); cbn [negb].
  2:{ apply (eff_bind_emit R); intros w3 _; apply (eff_ret R). }
  apply (eff_bind_test R). rewrite parent_child.
  destruct (negb _ || force).
  - apply (eff_try R).
    + apply (eff_bind R); [apply eff_copy2; [done|apply joinpath_prefix]|].
      intros _ w3 _ _. apply (eff_bind_emit R); intros w4 _; apply (eff_ret R).
    + intros e w3 _ _. apply (eff_bind_emit R); intros w4 _; apply (eff_ret R).
  - apply (eff_bind_emit R); intros w3 _; apply (eff_ret R).
Qed.

Lemma eff_copy_library_mods a b force w :
  (truthy a = true → resolve host (default "" a) ∈ srcs) →
  (truthy b = true → resolve host (default "" b) ∈ srcs) →
  effect_at R (copy_library_mods host a b (child g m) force) w.
Proof.
  intros Ha Hb. unfold copy_library_mods, step.
  apply (eff_bind R).
  { destruct (truthy a); [|apply (eff_ret R)].
    apply (eff_bind_emit R). intros w1 _.
    apply (eff_bind R); [by apply eff_copy_mod_item; auto|].
    intros c w2 _ _. apply (eff_ret R). }
  intros count w1 _ _. destruct (truthy b); [|apply (eff_ret R)].
  apply (eff_bind_emit R). intros w2 _.
  apply (eff_bind R); [by apply eff_copy_mod_item; auto|].
  intros c w3 _ _. apply (eff_ret R).
Qed.

Lemma eff_copy_item src w :
  (keeping → unrelated g src ∧ name src ≠ "") →
  effect_at R (copy_item src (child g m)) w.
Proof.
  intros Hsrc. unfold copy_item, info.
  apply (eff_bind_emit R). intros w1 _. apply (eff_bind_test R).
  destruct (is_dir (fs w1) src) eqn:Hd.
  - apply eff_replace_mods; [apply joinpath_prefix|].
    intros Hok. destruct (Hsrc Hok) as [Hu Hn].
    rewrite (joinpath_child _ _ Hn), length_mods_child. split; [|done].
    eapply unrelated_both; [exact Hu| |done]. etrans; apply child_prefix.
  - apply eff_copy2; [done|]. etrans; [apply (child_prefix g m)|apply joinpath_prefix].
Qed.

Lemma eff_ensure_dir w : effect_at R (ensure_dir (child g m)) w.
Proof.
  unfold ensure_dir. apply (eff_fs_op R). intros s' H.
  apply (deploys_under_mods g m srcs keeping (child g m)); [done| |].
  - by eapply confined_mkdir_p.
  - intros _. by eapply grows_safe, mkdir_p_grows.
Qed.

Lemma eff_clean_mods_dir w :
  (keeping → False) → effect_at R (clean_mods_dir (child g m)) w.
Proof.
  intros Hno. unfold clean_mods_dir, step, info, ok, warn.
  apply (eff_bind_emit R). intros w1 _. apply (eff_bind_test R).
  destruct (exists_ (fs w1) (child g m)); cbn [negb]; [|apply (eff_emit R)].
  apply (eff_bind R); [|intros _ w2 _ _; apply (eff_emit R)].
  apply (eff_bind_test R).
  apply (eff_for_each R (λ _, True)); [done|done|].
  intros item w2 Hin _. apply iterdir_below in Hin.
  apply (eff_try R).
  - apply (eff_bind_test R). destruct (is_dir (fs w2) item).
    + apply (eff_fs_op R). intros s' H.
      apply (deploys_under_mods g m srcs keeping item); [done| |tauto].
      by eapply confined_rmtree.
    + apply (eff_fs_op R). intros s' H.
      apply (deploys_under_mods g m srcs keeping item); [done| |tauto].
      by eapply confined_unlink.
  - intros e w3 _ _. apply (eff_emit R).
Qed.

End StageEffects.

(** ** The whole run is a deployment step *)

Lemma check_pairing_inv c w r w' :
  check_pairing c w = (r, w') →
  fs w' = fs w
  ∧ (r = Exc (Exit 1) ∧ truthy (mp_mod c) ≠ truthy (mp_starter c)
     ∨ r = Val (truthy (mp_mod c) && truthy (mp_starter c)) ∧ w' = w).
Proof.
  unfold check_pairing. munfold.
  destruct (truthy (mp_mod c)), (truthy (mp_starter c)); simpl;
    intros [= <- <-]; (split; [done|]); auto.
Qed.

Section MainEffect.
Variables (host : platform) (c : config) (g : path) (m : string) (keeping : Prop).
Hypothesis mods_at : resolve host (mods_dir c) = child g m.
Hypothesis srcs_away : ∀ p, p ∈ addon_sources host c → unrelated g p.
Hypothesis srcs_named : keeping → ∀ p, p ∈ addon_sources host c → name p ≠ "".
Hypothesis target_ok :
  keeping → unrelated g (resolve host (target c)) ∧ name (resolve host (target c)) ≠ "".
Hypothesis no_clean : keeping → clean c = false.

Abbreviation Rm := (deploys g m (addon_sources host c) keeping).

#[local] Instance main_preorder : PreOrder Rm.
Proof. by apply deploys_preorder. Qed.

Lemma eff_addon_stages w :
  effect_at Rm (addon_stages host c (truthy (mp_mod c) && truthy (mp_starter c))) w.
Proof.
  unfold addon_stages. rewrite mods_at.
  apply (eff_bind Rm).
  { apply eff_copy_user_mods; [done|done|]. intros e He. unfold addon_sources.
    apply elem_of_app. left. apply list_elem_of_fmap. eauto. }
  intros n1 w1 _ _. apply (eff_bind Rm).
  { destruct (truthy (mp_mod c) && truthy (mp_starter c)) eqn:Hmp; [|apply (eff_ret Rm)].
    apply eff_copy_multiplayer_mods; [done|done|]. unfold addon_sources. rewrite Hmp.
    apply elem_of_app. right. apply elem_of_app. left. left. }
  intros n2 w2 _ _. apply (eff_bind Rm); [|intros; apply (eff_ret Rm)].
  apply eff_copy_library_mods; [done|done| |].
  - intros Ht. unfold addon_sources. rewrite Ht.
    apply elem_of_app. right. apply elem_of_app. right. apply elem_of_app. left. left.
  - intros Ht. unfold addon_sources. rewrite Ht.
    apply elem_of_app. right. apply elem_of_app. right. apply elem_of_app. right. left.
Qed.

Lemma eff_copy_stages w :
  effect_at Rm (copy_stages host c (truthy (mp_mod c) && truthy (mp_starter c))) w.
Proof.
  unfold copy_stages, step. apply (eff_bind Rm); [apply eff_addon_stages|].
  intros n w1 _ _. apply (eff_bind_emit Rm). intros w2 _.
  apply (eff_bind Rm); [|intros; apply (eff_ret Rm)].
  rewrite mods_at. by apply eff_copy_item.
Qed.

Lemma eff_main w : effect_at Rm (main host c) w.
Proof.
  unfold main. apply (eff_bind_test Rm).
  destruct (exists_ (fs w) (resolve host (target c))); cbn [negb].
  2:{ unfold error. apply (eff_bind_emit Rm). intros w1 _. apply (eff_raise Rm). }
  apply (eff_bind Rm).
  { intros r w' [Hfs _]%check_pairing_inv. rewrite Hfs. reflexivity. }
  intros mp w1 Hcp _. apply check_pairing_inv in Hcp as [_ [[[=] _]|[[= ->] ->]]].
  apply (eff_bind Rm).
  { destruct (negb (is_windows host)); [|apply (eff_ret Rm)]. unfold info, error.
    apply (eff_bind_emit Rm). intros w1 _. apply (eff_bind_emit Rm). intros w2 _.
    apply (eff_bind_emit Rm). intros w3 _. apply (eff_bind_test Rm).
    destruct (negb _); [|apply (eff_ret Rm)].
    apply (eff_bind_emit Rm). intros w4 _. apply (eff_raise Rm). }
  intros _ w1 _ _. rewrite mods_at.
  apply (eff_bind Rm); [by apply eff_ensure_dir|].
  intros _ w2 _ _.
  apply (eff_bind Rm); [apply (eff_of_eq Rm), eff_kill_processes|].
  intros _ w3 _ _. apply (eff_bind Rm).
  { destruct (clean c) eqn:Hc; [|apply (eff_ret Rm)].
    apply eff_clean_mods_dir; [done..|]. intros Hk. specialize (no_clean Hk). congruence. }
  intros _ w4 _ _. apply (eff_bind Rm); [apply eff_copy_stages|].
  intros total w5 _ _. apply (eff_of_eq Rm).
  destruct (no_launch c).
  - unfold info. apply (eff_bind_emit eq). intros w6 _. apply eff_summary.
  - apply (eff_bind_any eq).
    { intros w6. destruct (Qltb 0 (launch_delay c)); [|apply (eff_ret eq)].
      unfold step. apply (eff_bind_emit eq). intros w7 _. apply (eff_sleep eq). }
    intros _ w6. apply (eff_bind_any eq); [|intros; apply eff_summary].
    intros w7. destruct (negb _); [apply eff_launch_game|].
    unfold step. apply (eff_bind_emit eq). intros w8 _.
    destruct (is_windows host); apply (eff_emit eq).
Qed.

End MainEffect.

(** ** C9: the sibling directories are created lazily *)

(** C9 -- Lazy sibling creation.  Let the mods directory be [g/m] and let
    [nm] be "Plugins" or "UserLibs", a name other than that of the mods
    directory itself.  If the add-ons of the run lie outside the game
    directory [g] and none of them has a sub-root named [nm] (up to letter
    case), then, however the run ends, the sibling [parent(mods_dir)/nm] is
    not a directory afterwards unless it was one before: the pipeline never
    creates it. *)
Theorem siblings_created_lazily (host : platform) (c : config) (g : path)
    (m nm : string) (w : world) (r : res unit) (w' : world) :
  nm = "Plugins" ∨ nm = "UserLibs" →
  resolve host (mods_dir c) = child g m →
  nm ≠ m →
  (∀ p, p ∈ addon_sources host c → unrelated g p) →
  (∀ p, p ∈ addon_sources host c →
        find_subdir_case_insensitive (fs w) p nm = None) →
  main host c w = (r, w') →
  is_dir (fs w) (joinpath (parent (resolve host (mods_dir c))) nm) = false →
  is_dir (fs w') (joinpath (parent (resolve host (mods_dir c))) nm) = false.
Proof.
  intros Hnm Hmods Hne Haway Hfree Hrun Hbefore.
  assert (Hnm' : nm ≠ "") by (by destruct Hnm as [-> | ->]).
  rewrite Hmods, parent_child, (joinpath_child _ _ Hnm') in *.
  pose proof (eff_main host c g m False Hmods Haway) as Heff.
  destruct (Heff ltac:(tauto) ltac:(tauto) ltac:(tauto) w r w' Hrun) as (_ & _ & Hno).
  destruct (is_dir (fs w') (child g nm)) eqn:Hafter; [|done].
  rewrite <- Hbefore. symmetry. by apply (Hno nm Hfree Hne).
Qed.

Lemma siblings_created_lazily_witness :
  is_dir (fs (main host_idle (cfg_with_mods ["extras/Tool"] false)
                   (world_of fs_with_tool)).2)
         (joinpath (parent (resolve host_idle
                              (mods_dir (cfg_with_mods ["extras/Tool"] false))))
                   "Plugins") = false.
Proof.
  apply (siblings_created_lazily host_idle (cfg_with_mods ["extras/Tool"] false)
           ["game"] "Mods" "Plugins" (world_of fs_with_tool)
           (main host_idle (cfg_with_mods ["extras/Tool"] false)
                 (world_of fs_with_tool)).1).
  - by left.
  - reflexivity.
  - done.
  - intros p Hp. vm_compute in Hp. apply list_elem_of_singleton in Hp as ->.
    split; intros [k Hk]; discriminate.
  - intros p Hp. vm_compute in Hp. apply list_elem_of_singleton in Hp as ->.
    reflexivity.
  - apply surjective_pairing.
  - reflexivity.
Defined.

(** ** C6: the termination wait *)

Lemma Qltb_true a b : Qltb a b = true ↔ (a < b)%Q.
Proof.
  unfold Qltb. destruct (Qlt_le_dec a b) as [H|H]; split; try done.
  intros H'. exfalso. by apply (Qlt_not_le _ _ H').
Qed.

Lemma Qltb_false a b : Qltb a b = false ↔ (b <= a)%Q.
Proof.
  unfold Qltb. destruct (Qlt_le_dec a b) as [H|H]; split; try done.
  intros H'. exfalso. by apply (Qlt_not_le _ _ H).
Qed.

Lemma inject_nat_succ (f : nat) :
  (inject_Z (Z.of_nat (S f)) == inject_Z (Z.of_nat f) + 1)%Q.
Proof. rewrite Nat2Z.inj_succ. unfold Z.succ. by rewrite inject_Z_plus. Qed.

Section Wait.
Variable host : platform.

(** The command by which [is_running] lists the processes. *)
Lemma is_running_spec exe w :
  ∃ cmd, is_running host exe w
         = (Val (probe host (now w)),
            World (fs w) (now w) (log w ++ [Exec cmd []])).
Proof.
  unfold is_running, run. munfold.
  destruct (is_windows host); simpl; eauto.
Qed.

Lemma wait_loop_spec f exe deadline w :
  (deadline - now w <= poll_interval * inject_Z (Z.of_nat f))%Q →
  ∃ b w' evs,
    wait_loop host (S f) exe deadline w = (Val b, w')
    ∧ fs w' = fs w ∧ log w' = log w ++ evs
    ∧ (now w <= now w')%Q
    ∧ (now w' == now w ∨ now w' < deadline + poll_interval)%Q
    ∧ (if b then probe host (now w') = false ∧ (now w' < deadline)%Q
                 ∧ last evs = Some (Log LOk (MStopped exe))
       else (deadline <= now w')%Q).
Proof.
  revert w. induction f as [|f IH]; intros w Hfuel.
  - cbn [wait_loop]. unfold bind at 1, time_ at 1.
    destruct (Qltb (now w) deadline) eqn:Hlt.
    + apply Qltb_true in Hlt.
      destruct (is_running_spec exe w) as [cmd Hr]. unfold bind at 1. rewrite Hr.
      destruct (probe host (now w)) eqn:Hp; cbn [negb].
      * exfalso. unfold poll_interval in Hfuel.
        change (inject_Z (Z.of_nat 0)) with 0%Q in Hfuel. lra.
      * munfold. simpl. eexists true, _, [Exec cmd []; Log LOk (MStopped exe)].
        split; [reflexivity|]. simpl.
        split; [done|]. split; [by rewrite <- (assoc_L (++))|]. split; [lra|].
        split; [left; reflexivity|]. split; [done|]. split; [lra|done].
    + apply Qltb_false in Hlt. unfold ret. eexists false, w, [].
      rewrite app_nil_r. split; [done|]. split; [done|]. split; [done|].
      split; [lra|]. split; [left; reflexivity|done].
  - cbn [wait_loop]. unfold bind at 1, time_ at 1.
    destruct (Qltb (now w) deadline) eqn:Hlt.
    + apply Qltb_true in Hlt.
      destruct (is_running_spec exe w) as [cmd Hr]. unfold bind at 1. rewrite Hr.
      destruct (probe host (now w)) eqn:Hp; cbn [negb].
      * unfold bind at 1, sleep at 1.
        set (w1 := World _ _ _).
        destruct (IH w1) as (b & w' & evs & Hrun & Hfs & Hlog & Hle & Hbound & Hb).
        { unfold w1. simpl. rewrite inject_nat_succ in Hfuel.
          unfold poll_interval in *. lra. }
        exists b, w', ([Exec cmd []; Slept poll_interval] ++ evs).
        split; [exact Hrun|]. unfold w1 in *. simpl in *.
        split; [done|]. split; [by rewrite Hlog, <- !(assoc_L (++))|].
        unfold poll_interval in *.
        split; [lra|]. split.
        { right. destruct Hbound as [Hb1|Hb1]; lra. }
        destruct b; [|done]. destruct Hb as (? & ? & Hlast).
        repeat split; try done. destruct evs; [done|]. done.
      * munfold. simpl. eexists true, _, [Exec cmd []; Log LOk (MStopped exe)].
        split; [reflexivity|]. simpl.
        split; [done|]. split; [by rewrite <- (assoc_L (++))|]. split; [lra|].
        split; [left; reflexivity|]. split; [done|]. split; [lra|done].
    + apply Qltb_false in Hlt. unfold ret. eexists false, w, [].
      rewrite app_nil_r. split; [done|]. split; [done|]. split; [done|].
      split; [lra|]. split; [left; reflexivity|done].
Qed.

Lemma polls_enough (d : Q) :
  (d <= poll_interval * inject_Z (Z.of_nat (Z.to_nat (Qceiling (d / poll_interval)))))%Q.
Proof.
  unfold poll_interval. destruct (Z_le_gt_dec 0 (Qceiling (d / (1 # 5)))) as [Hc|Hc].
  - rewrite Z2Nat.id by done. pose proof (Qle_ceiling (d / (1 # 5))) as H.
    assert (d == (1 # 5) * (d / (1 # 5)))%Q as E by (field).
    rewrite E at 1. apply Qmult_le_l; [done|exact H].
  - assert (Hz : Z.to_nat (Qceiling (d / (1 # 5))) = 0%nat) by lia.
    rewrite Hz. change (inject_Z (Z.of_nat 0)) with 0%Q.
    pose proof (Qle_ceiling (d / (1 # 5))) as H.
    assert (inject_Z (Qceiling (d / (1 # 5))) < 0)%Q as Hneg.
    { rewrite <- (Zlt_Qlt _ 0). lia. }
    set (k := inject_Z (Qceiling (d / (1 # 5)))) in *. clearbody k.
    assert (d == (1 # 5) * (d / (1 # 5)))%Q as E by (field).
    set (e := (d / (1 # 5))%Q) in *. clearbody e. lra.
Qed.

Lemma wait_for_exit_spec exe wait w :
  ∃ b w0 evs,
    wait_for_exit host exe wait w
    = (Val tt, World (fs w) (now w0)
                     (log w ++ evs ++ (if b : bool then []
                                       else [Log LWarn (MMayStillRun exe)])))
    ∧ (now w <= now w0)%Q
    ∧ (now w0 == now w ∨ now w0 < now w + wait + safety_margin + poll_interval)%Q
    ∧ (if b then probe host (now w0) = false
                 ∧ (now w0 < now w + wait + safety_margin)%Q
                 ∧ last evs = Some (Log LOk (MStopped exe))
       else (now w + wait + safety_margin <= now w0)%Q).
Proof.
  unfold wait_for_exit, polls. unfold bind at 1, time_ at 1.
  destruct (wait_loop_spec (Z.to_nat (Qceiling ((wait + safety_margin) / poll_interval)))
              exe (now w + wait + safety_margin)%Q w)
    as (b & w' & evs & Hrun & Hfs & Hlog & Hle & Hbound & Hb).
  { pose proof (polls_enough (wait + safety_margin)) as H. lra. }
  unfold bind. rewrite Hrun. exists b, w', evs. destruct b.
  - unfold ret. rewrite app_nil_r, <- Hfs, <- Hlog, world_eta. done.
  - unfold warn, emit. rewrite <- Hfs, Hlog, <- (assoc_L (++)). done.
Qed.

End Wait.

Lemma wait_first_poll host exe wait w :
  (0 < wait + safety_margin)%Q → probe host (now w) = false →
  ∃ cmd, wait_for_exit host exe wait w
         = (Val tt, World (fs w) (now w)
                          (log w ++ [Exec cmd []; Log LOk (MStopped exe)])).
Proof.
  intros Hpos Hp. unfold wait_for_exit, polls. cbn [wait_loop].
  unfold bind at 1, time_ at 1. unfold bind at 1. unfold bind at 1, time_ at 1.
  assert (Hlt : Qltb (now w) (now w + wait + safety_margin) = true).
  { apply Qltb_true. lra. }
  rewrite Hlt. destruct (is_running_spec host exe w) as [cmd Hr].
  unfold bind at 1. rewrite Hr, Hp. cbn [negb]. munfold. simpl.
  exists cmd. by rewrite <- (assoc_L (++)).
Qed.

Lemma kill_processes_returns host exe wait prefix w :
  ∃ w', kill_processes host exe wait prefix w = (Val tt, w') ∧ fs w' = fs w.
Proof.
  assert (Hpre : ∃ w1, fs w1 = fs w ∧
            kill_processes host exe wait prefix w = wait_for_exit host exe wait w1).
  { unfold kill_processes, find_wineserver, step, run. munfold.
    destruct (is_windows host); simpl;
      [eexists; split; [|reflexivity]; reflexivity|].
    destruct (truthy prefix); simpl.
    - destruct (exists_ _ _); simpl; [eexists; split; [|reflexivity]; reflexivity|].
      destruct (which_wineserver host) as [p|]; simpl;
        [|eexists; split; [|reflexivity]; reflexivity].
      destruct (String.eqb p ""); simpl; eexists; (split; [|reflexivity]); reflexivity.
    - destruct (which_wineserver host) as [p|]; simpl;
        [|eexists; split; [|reflexivity]; reflexivity].
      destruct (String.eqb p ""); simpl; eexists; (split; [|reflexivity]); reflexivity. }
  destruct Hpre as (w1 & Hfs & ->).
  destruct (wait_for_exit_spec host exe wait w1) as (b & w0 & evs & Hrun & _).
  rewrite Hrun. eexists. split; [reflexivity|]. done.
Qed.

(** ** C6: the termination wait law *)

(** C6, as the code has it -- The wait after the kill always ends, with the
    file system untouched, in one of two ways: the process was seen to be
    gone at some poll before the deadline [wait_seconds + 2.0] after the
    start (success, the last thing logged), or the deadline has passed (a
    warning is logged).  It never lasts longer than the deadline plus one
    polling interval.  When the deadline lies ahead at the start
    ([wait_seconds + 2.0 > 0]) and the process is not detected at the first
    poll, it reports success at once, without sleeping.  In every case
    [kill_processes] returns normally, so the pipeline goes on; a run with a
    process that never goes away still copies the built mod. *)
Theorem termination_wait (host : platform) (exe : string) (wait : Q)
    (prefix : option string) (w : world) :
  (∃ b w0 evs,
     wait_for_exit host exe wait w
     = (Val tt, World (fs w) (now w0)
                      (log w ++ evs ++ (if b : bool then []
                                        else [Log LWarn (MMayStillRun exe)])))
     ∧ (now w <= now w0)%Q
     ∧ (now w0 == now w ∨ now w0 < now w + wait + safety_margin + poll_interval)%Q
     ∧ (if b then probe host (now w0) = false
                  ∧ (now w0 < now w + wait + safety_margin)%Q
                  ∧ last evs = Some (Log LOk (MStopped exe))
        else (now w + wait + safety_margin <= now w0)%Q))
  ∧ ((0 < wait + safety_margin)%Q → probe host (now w) = false →
     ∃ cmd, wait_for_exit host exe wait w
            = (Val tt, World (fs w) (now w)
                             (log w ++ [Exec cmd []; Log LOk (MStopped exe)])))
  ∧ (∃ w', kill_processes host exe wait prefix w = (Val tt, w') ∧ fs w' = fs w)
  ∧ (let run := main host_stuck (cfg_with_mods [] false) (world_of fs_project) in
     run.1 = Val tt
     ∧ Log LWarn (MMayStillRun "Game.exe") ∈ log run.2
     ∧ get (fs run.2) ["game"; "Mods"; "MyMod.dll"] = Some (File 7 "built")).
Proof.
  split; [apply wait_for_exit_spec|]. split; [apply wait_first_poll|].
  split; [apply kill_processes_returns|].
  vm_compute. split; [done|]. split; [|done].
  repeat (first [apply list_elem_of_here | apply list_elem_of_further]).
Qed.

Lemma termination_wait_witness :
  ∃ cmd, wait_for_exit host_idle "Game.exe" 1 (world_of fs_project)
         = (Val tt, World (fs (world_of fs_project)) (now (world_of fs_project))
                          (log (world_of fs_project)
                           ++ [Exec cmd []; Log LOk (MStopped "Game.exe")])).
Proof.
  apply (proj1 (proj2 (termination_wait host_idle "Game.exe" 1 None
                                         (world_of fs_project)))).
  - reflexivity.
  - reflexivity.
Defined.

(** C6, as stated, fails when the requested wait is below minus the
    margin: the process is never detected, yet no poll is made and the wait
    ends with the warning instead of success. *)
Lemma wait_warns_without_polling :
  (∀ t, probe host_idle t = false)
  ∧ wait_for_exit host_idle "Game.exe" (-3) (world_of fs_project)
    = (Val tt, World fs_project 0 [Log LWarn (MMayStillRun "Game.exe")]).
Proof. split; [done|]. vm_compute. reflexivity. Qed.

(** ** C10: failures inside a structured copy *)

Lemma copy_entries_return dst items w :
  ∃ w', for_each items (copy_entry dst) w = (Val tt, w')
        ∧ inside dst (fs w) (fs w').
Proof.
  destruct (for_each items (copy_entry dst) w) as [r w'] eqn:H.
  apply copy_entries_effect in H as (-> & _ & Hi & _). eauto.
Qed.

Lemma is_dir_not_file s p : is_dir s p = true → is_file s p = false.
Proof. unfold is_dir, is_file. by destruct (get s p) as [[|]|]. Qed.

Lemma prefix_child_cases (q g : path) (n : string) :
  q `prefix_of` child g n → q `prefix_of` g ∨ q = child g n.
Proof.
  intros [k Hk]. destruct (decide (k = [])) as [->|Hne].
  - right. by rewrite app_nil_r in Hk.
  - left. destruct (exists_last Hne) as (k' & x & ->). unfold child in Hk.
    rewrite (assoc_L (++)) in Hk. apply app_inj_tail in Hk as [-> _]. by eexists.
Qed.

Lemma not_strictly_inside_sibling (g : path) (a b : string) :
  ¬ (child g a `prefix_of` child g b ∧ child g b ≠ child g a).
Proof.
  intros [Hp Hne]. apply Hne. apply prefix_length_eq_path; [done|].
  by rewrite !length_child.
Qed.

Lemma not_strictly_inside_parent (g : path) (a : string) :
  ¬ (child g a `prefix_of` g ∧ g ≠ child g a).
Proof.
  intros [[k Hk] _]. apply (f_equal length) in Hk. unfold child in Hk.
  rewrite !length_app in Hk. simpl in Hk. lia.
Qed.

(** The destination can take the sibling directories: the game directory
    exists and no regular file stands where a sibling goes. *)
Lemma siblings_free_inside g a s s' :
  inside (child g a) s s' →
  is_dir s g = true ∧ is_file s (child g "Plugins") = false
                    ∧ is_file s (child g "UserLibs") = false →
  is_dir s' g = true ∧ is_file s' (child g "Plugins") = false
                     ∧ is_file s' (child g "UserLibs") = false.
Proof.
  intros Hi (Hg & Hp & Hu).
  destruct (Hi g (not_strictly_inside_parent g a)) as (_ & _ & Hd).
  destruct (Hi _ (not_strictly_inside_sibling g a "Plugins")) as (_ & Hfp & _).
  destruct (Hi _ (not_strictly_inside_sibling g a "UserLibs")) as (_ & Hfu & _).
  rewrite Hfp, Hfu. auto.
Qed.

Lemma sibling_mkdir g a s :
  is_dir s g = true → is_file s (child g a) = false →
  ∃ s', mkdir_p s (child g a) = Some s'.
Proof.
  intros Hg Hf. apply mkdirs_is_Some. intros q [Hq| ->]%prefix_child_cases; [|done].
  destruct (decide (q = g)) as [->|Hne]; [by apply is_dir_not_file|].
  apply is_dir_not_file. apply (get_prefix_dir s q g Hq Hne).
  apply exists_get. by apply is_dir_exists.
Qed.

Lemma mods_part_returns p g m w :
  is_dir (fs w) g = true ∧ is_file (fs w) (child g "Plugins") = false
                         ∧ is_file (fs w) (child g "UserLibs") = false →
  ∃ w',
    (let* mods_subdir := test (λ s, find_subdir_case_insensitive s p "Mods") in
     match mods_subdir with
     | Some sub =>
         let* items := test (λ s, iterdir s sub) in
         for_each items (copy_entry (child g m))
     | None => ret tt
     end) w = (Val tt, w')
    ∧ is_dir (fs w') g = true ∧ is_file (fs w') (child g "Plugins") = false
                              ∧ is_file (fs w') (child g "UserLibs") = false.
Proof.
  intros HJ. unfold bind at 1, test at 1.
  destruct (find_subdir_case_insensitive (fs w) p "Mods") as [sub|]; [|by eexists].
  unfold bind at 1, test at 1.
  destruct (copy_entries_return (child g m) (iterdir (fs w) sub) w) as (w' & -> & Hi).
  exists w'. split; [done|]. by eapply siblings_free_inside.
Qed.

Lemma sibling_part_returns nm p g m w :
  nm = "Plugins" ∨ nm = "UserLibs" →
  is_dir (fs w) g = true ∧ is_file (fs w) (child g "Plugins") = false
                         ∧ is_file (fs w) (child g "UserLibs") = false →
  ∃ w',
    (let* subdir := test (λ s, find_subdir_case_insensitive s p nm) in
     match subdir with
     | Some sub =>
         let dst := joinpath (parent (child g m)) nm in
         fs_op (λ s, mkdir_p s dst) >>
         let* items := test (λ s, iterdir s sub) in
         for_each items (copy_entry dst)
     | None => ret tt
     end) w = (Val tt, w')
    ∧ is_dir (fs w') g = true ∧ is_file (fs w') (child g "Plugins") = false
                              ∧ is_file (fs w') (child g "UserLibs") = false.
Proof.
  intros Hnm HJ. unfold bind at 1, test at 1.
  destruct (find_subdir_case_insensitive (fs w) p nm) as [sub|]; [|by eexists].
  assert (Hne : nm ≠ "") by (by destruct Hnm as [-> | ->]).
  rewrite parent_child, (joinpath_child _ _ Hne). cbv zeta.
  destruct HJ as (Hg & Hp & Hu).
  destruct (sibling_mkdir g nm (fs w) Hg) as [s1 Hm].
  { by destruct Hnm as [-> | ->]. }
  unfold bind at 1, fs_op at 1. rewrite Hm. unfold bind at 1, test at 1.
  set (w1 := World s1 (now w) (log w)).
  destruct (copy_entries_return (child g nm) (iterdir (fs w1) sub) w1) as (w' & -> & Hi).
  exists w'. split; [done|]. apply (siblings_free_inside g nm _ _ Hi).
  unfold w1. simpl. pose proof (mkdirs_grows _ _ _ Hm) as Hgr.
  pose proof (confined_mkdir_p _ _ _ Hm) as Hc.
  pose proof (mkdirs_dir _ _ _ (child g nm) Hm ltac:(done)) as Hd.
  split; [by apply (Hgr g)|].
  destruct Hnm as [-> | ->].
  - split; [by apply is_dir_not_file|].
    destruct (Hc (child g "UserLibs")) as (_ & Hf & _); [|by rewrite Hf].
    intros Hpre. apply (not_strictly_inside_sibling g "Plugins" "UserLibs").
    split; [done|]. unfold child. intros E. by apply app_inj_tail in E as [_ E].
  - split; [|by apply is_dir_not_file].
    destruct (Hc (child g "Plugins")) as (_ & Hf & _); [|by rewrite Hf].
    intros Hpre. apply (not_strictly_inside_sibling g "UserLibs" "Plugins").
    split; [done|]. unfold child. intros E. by apply app_inj_tail in E as [_ E].
Qed.

Lemma copy_structured_mod_returns p g m w :
  exists_ (fs w) p = true →
  is_dir (fs w) g = true → is_file (fs w) (child g "Plugins") = false →
  is_file (fs w) (child g "UserLibs") = false →
  ∃ w', copy_structured_mod p (child g m) w = (Val tt, w').
Proof.
  intros He Hg Hp Hu. unfold copy_structured_mod.
  unfold bind at 1, test at 1. rewrite He. cbn [negb].
  unfold bind at 1, info at 1, emit at 1.
  set (w0 := World _ _ _).
  destruct (mods_part_returns p g m w0) as (w1 & H1 & HJ1); [done|].
  unfold bind at 1. rewrite H1. cbv beta iota.
  destruct (sibling_part_returns "Plugins" p g m w1) as (w2 & H2 & HJ2); [by left|done|].
  cbv zeta in H2. unfold bind at 1. rewrite H2. cbv beta iota.
  destruct (sibling_part_returns "UserLibs" p g m w2) as (w3 & H3 & HJ3); [by right|done|].
  cbv zeta in H3. rewrite H3. eauto.
Qed.

Lemma copy_mod_item_structured p g m skip ts w :
  is_dir (fs w) p = true → has_structure (fs w) p = true →
  (skip = true →
   match find_subdir_case_insensitive (fs w) p "Mods" with
   | Some sub => has_existing (fs w) (child g m) sub = false
   | None => True
   end) →
  is_dir (fs w) (child g m) = true →
  is_file (fs w) (child g "Plugins") = false →
  is_file (fs w) (child g "UserLibs") = false →
  ∃ w', copy_mod_item p (child g m) skip ts w = (Val true, w').
Proof.
  intros Hd Hs Hskip Hm Hp Hu. unfold copy_mod_item.
  unfold bind at 1, test at 1. rewrite (is_dir_exists _ _ Hd). cbn [negb].
  unfold bind at 1, test at 1. rewrite (is_dir_not_file _ _ Hd), andb_false_r.
  unfold bind at 1, ret at 1. unfold bind at 1, test at 1. rewrite Hs.
  assert (Hg : is_dir (fs w) g = true).
  { apply (get_prefix_dir _ g (child g m)); [apply child_prefix| |].
    - intros E. apply (f_equal length) in E. rewrite length_child in E. lia.
    - apply exists_get. by apply is_dir_exists. }
  assert (Hsk : (if skip then
             let* mods_subdir :=
               test (λ s, find_subdir_case_insensitive s p "Mods") in
             match mods_subdir with
             | Some sub => test (λ s, has_existing s (child g m) sub)
             | None => ret false
             end
           else ret false) w = (Val false, w)).
  { destruct skip; [|done]. specialize (Hskip eq_refl).
    unfold bind, test. destruct (find_subdir_case_insensitive (fs w) p "Mods"); [|done].
    by rewrite Hskip. }
  unfold bind at 1. rewrite Hsk. unfold bind at 1, info at 1, emit at 1.
  set (w0 := World _ _ _).
  destruct (copy_structured_mod_returns p g m w0) as (w1 & H1);
    [by apply is_dir_exists|done..|].
  unfold bind at 1. rewrite H1. unfold ret. eauto.
Qed.

(** C10, as the code has it -- Copying the entries of a sub-root never
    raises: each failing entry is logged and the loop goes on to its end.  A
    structured-tree source that is not skipped makes [copy_mod_item] return
    [True] whatever happens to the single entries, provided the sibling
    directories can be made: the mods directory [g/m] exists and neither
    [g/Plugins] nor [g/UserLibs] is a regular file.  So it is for the add-on
    [AddonB], both of whose entries fail to copy: two warnings, an unchanged
    file system, and the result [True]. *)
Theorem structured_copy_reports_copied :
  (∀ dst items w, ∃ w', for_each items (copy_entry dst) w = (Val tt, w'))
  ∧ (∀ p g m skip ts w,
       is_dir (fs w) p = true → has_structure (fs w) p = true →
       (skip = true →
        match find_subdir_case_insensitive (fs w) p "Mods" with
        | Some sub => has_existing (fs w) (child g m) sub = false
        | None => True
        end) →
       is_dir (fs w) (child g m) = true →
       is_file (fs w) (child g "Plugins") = false →
       is_file (fs w) (child g "UserLibs") = false →
       ∃ w', copy_mod_item p (child g m) skip ts w = (Val true, w'))
  ∧ (let run := copy_mod_item ["AddonB"] ["D"; "Mods"] false false
                              (world_of fs_all_fail) in
     run.1 = Val true ∧ fs run.2 = fs_all_fail
     ∧ log run.2 = [Log LInfo (MCopyingStructured "AddonB");
                    Log LInfo (MCopyingStructure "AddonB");
                    Log LWarn (MFailedCopy "Y");
                    Log LWarn (MFailedCopy "X.dll")]).
Proof.
  split; [|split].
  - intros dst items w. destruct (copy_entries_return dst items w) as (w' & H & _). eauto.
  - apply copy_mod_item_structured.
  - vm_compute. done.
Qed.

Lemma structured_copy_reports_copied_witness :
  ∃ w', copy_mod_item ["AddonA"] (child ["D"] "Mods") true false
          (world_of (fs_addon_a (File 1 "foo") (File 2 "bar"))) = (Val true, w').
Proof.
  apply (proj1 (proj2 structured_copy_reports_copied)
           ["AddonA"] ["D"] "Mods" true false
           (world_of (fs_addon_a (File 1 "foo") (File 2 "bar")))).
  - reflexivity.
  - reflexivity.
  - intros _. vm_compute. reflexivity.
  - reflexivity.
  - reflexivity.
  - reflexivity.
Defined.

(** C10, as stated, fails when a sibling directory cannot be made: the
    add-on [AddonA] is a structured tree and is not skipped, but a regular
    file stands at [D/Plugins], and [copy_mod_item] raises instead of
    returning [True]. *)
Lemma structured_copy_can_raise :
  is_dir fs_blocked ["AddonA"] = true
  ∧ has_structure fs_blocked ["AddonA"] = true
  ∧ (copy_mod_item ["AddonA"] ["D"; "Mods"] false false (world_of fs_blocked)).1
    = Exc OSError.
Proof. vm_compute. done. Qed.

(** ** C2: the skip/force law *)

Lemma replace_dir_shape src t w :
  ∃ r s, replace_dir src t w = (r, World s (now w) (log w))
         ∧ (r = Val tt ∨ r = Exc OSError).
Proof.
  unfold replace_dir. munfold.
  destruct (exists_ (fs w) t); simpl.
  - destruct (rmtree (fs w) t) as [s1|]; simpl.
    + destruct (copytree s1 src t) as [s2|]; simpl; eauto.
    + exists (Exc OSError), (fs w). rewrite world_eta. eauto.
  - destruct (copytree (fs w) src t) as [s2|]; simpl; [eauto|].
    exists (Exc OSError), (fs w). rewrite world_eta. eauto.
Qed.

Lemma copy_structured_mod_shape p dst w :
  ∃ r s evs, copy_structured_mod p dst w = (r, World s (now w) (log w ++ evs)).
Proof.
  destruct (fs_det_copy_structured_mod p dst w w eq_refl) as (r & s & evs & H & _).
  eauto.
Qed.

Lemma copy_mod_item_skip p dst ts w :
  exists_ (fs w) p = true → present (fs w) p dst = true →
  copy_mod_item p dst true ts w
  = (Val false,
     World (fs w) (now w)
           (log w ++ stamp (fs w) p ts ++ [Log LInfo (MSkipping (name p))])).
Proof.
  intros He Hp. unfold copy_mod_item, present, stamp in *. munfold. rewrite He. simpl.
  destruct (is_file (fs w) p) eqn:Hf.
  - destruct ts; simpl; rewrite Hp; simpl; by rewrite <- ?(assoc_L (++)).
  - rewrite andb_false_r. simpl.
    destruct (has_structure (fs w) p); simpl.
    + destruct (find_subdir_case_insensitive (fs w) p "Mods"); [|done].
      simpl. rewrite Hp. done.
    + rewrite Hp. done.
Qed.

Lemma copy_mod_item_copy p dst skip ts w :
  exists_ (fs w) p = true → present (fs w) p dst && skip = false →
  ∃ r s rest,
    copy_mod_item p dst skip ts w
    = (r, World s (now w)
                (log w ++ stamp (fs w) p ts
                       ++ Log LInfo (copying_msg (fs w) p) :: rest))
    ∧ (r = Val true ∨ (∃ e, r = Exc e)
       ∨ (r = Val false ∧ rest = [Log LWarn (MFailedCopy (name p))])).
Proof.
  intros He Hp. unfold copy_mod_item, present, stamp, copying_msg in *.
  unfold bind at 1, test at 1. rewrite He. cbn [negb].
  unfold bind at 1, test at 1.
  destruct (is_file (fs w) p) eqn:Hf.
  - assert (Hw1 : ∃ w1, (if ts && true then
                   let* t := test (λ s, mtime_of s p) in info (MModified t)
                 else ret tt) w = (Val tt, w1) ∧ fs w1 = fs w ∧ now w1 = now w
               ∧ log w1 = log w ++ (if ts && true
                                    then [Log LInfo (MModified (mtime_of (fs w) p))]
                                    else [])).
    { destruct ts; simpl; munfold; eexists; (split; [reflexivity|]); simpl;
        rewrite ?app_nil_r; done. }
    destruct Hw1 as (w1 & Hrun & Hfs & Hnow & Hlog).
    unfold bind at 1. rewrite Hrun. unfold bind at 1, test at 1. rewrite Hfs.
    rewrite andb_comm in Hp. rewrite Hp.
    unfold bind at 1, info at 1, emit at 1. unfold try_, bind, fs_op, ret, warn, emit.
    simpl. rewrite Hfs, Hnow, Hlog.
    destruct (copy2 (fs w) p (joinpath dst (name p))) as [s'|]; simpl.
    + eexists _, _, []. rewrite <- !(assoc_L (++)). split; [reflexivity|]. auto.
    + eexists _, _, _. rewrite <- !(assoc_L (++)). simpl. split; [reflexivity|]. auto.
  - rewrite andb_false_r. unfold bind at 1, ret at 1.
    unfold bind at 1, test at 1.
    destruct (has_structure (fs w) p) eqn:Hs.
    + assert (Hsk : (if skip then
             let* mods_subdir :=
               test (λ s, find_subdir_case_insensitive s p "Mods") in
             match mods_subdir with
             | Some sub => test (λ s, has_existing s dst sub)
             | None => ret false
             end
           else ret false) w = (Val false, w)).
      { destruct skip; [|done]. rewrite andb_true_r in Hp.
        unfold bind, test. destruct (find_subdir_case_insensitive (fs w) p "Mods"); [|done].
        by rewrite Hp. }
      unfold bind at 1. rewrite Hsk. unfold bind at 1, info at 1, emit at 1.
      set (w0 := World _ _ _).
      destruct (copy_structured_mod_shape p dst w0) as (r & s & evs & H).
      unfold bind at 1. rewrite H. unfold w0. simpl.
      destruct r as [[]|e]; unfold ret; eexists _, _, evs;
        rewrite <- (assoc_L (++)); simpl; (split; [reflexivity|]); eauto.
    + rewrite andb_comm in Hp. unfold bind at 1, test at 1. rewrite Hp.
      unfold bind at 1, info at 1, emit at 1.
      set (w0 := World _ _ _).
      destruct (replace_dir_shape p (joinpath dst (name p)) w0) as (r & s & H & Hr).
      unfold try_, bind. rewrite H. unfold w0. simpl.
      destruct Hr as [-> | ->]; unfold ret, warn, emit; simpl.
      * eexists _, _, []. split; [reflexivity|]. auto.
      * eexists _, _, _. rewrite <- (assoc_L (++)). simpl. split; [reflexivity|]. auto.
Qed.

Lemma root_file_only s p : is_file s [] = true → exists_ s p = true → p = [].
Proof.
  unfold is_file, exists_. destruct p as [|x p]; [done|]. simpl.
  by destruct s.
Qed.

Lemma force_overwrites_file p dst ts w :
  is_file (fs w) p = true → is_file (fs w) (joinpath dst (name p)) = true →
  p ≠ joinpath dst (name p) →
  ∃ w', copy_mod_item p dst false ts w = (Val true, w')
        ∧ get (fs w') (joinpath dst (name p)) = get (fs w) p.
Proof.
  set (t := joinpath dst (name p)). intros Hf Ht Hne.
  assert (Hc : ∃ s', copy2 (fs w) p t = Some s' ∧ get s' t = get (fs w) p).
  { unfold copy2. pose proof Hf as (tm & d & Hg)%is_file_get. rewrite Hg.
    rewrite (is_file_not_dir _ _ Ht). destruct (decide (p = t)); [done|].
    rewrite (is_file_not_dir _ _ Ht).
    assert (Htn : t ≠ []).
    { intros E. rewrite E in Ht. apply Hne. rewrite E.
      apply (root_file_only (fs w)); [done|by apply is_file_exists]. }
    destruct (put_is_Some (fs w) t (File tm d) Htn) as [s' Hs'].
    { apply is_dir_parent; [by apply is_file_exists|done]. }
    exists s'. split; [done|]. by rewrite (put_get _ _ _ _ Hs'). }
  destruct Hc as (s' & Hc & Hget).
  unfold copy_mod_item. fold t.
  unfold bind at 1, test at 1. rewrite (is_file_exists _ _ Hf). cbn [negb].
  unfold bind at 1, test at 1. rewrite Hf.
  destruct ts; munfold; simpl; rewrite Hc; simpl; eauto.
Qed.

Lemma force_replaces_folder p dst ts w :
  is_dir (fs w) p = true → has_structure (fs w) p = false →
  is_dir (fs w) (joinpath dst (name p)) = true →
  unrelated (joinpath dst (name p)) p →
  ∃ w', copy_mod_item p dst false ts w = (Val true, w')
        ∧ get (fs w') (joinpath dst (name p)) = get (fs w) p.
Proof.
  set (t := joinpath dst (name p)). intros Hd Hs Ht Hu.
  unfold copy_mod_item.
  unfold bind at 1, test at 1. rewrite (is_dir_exists _ _ Hd). cbn [negb].
  unfold bind at 1, test at 1. rewrite (is_dir_not_file _ _ Hd), andb_false_r.
  unfold bind at 1, ret at 1. unfold bind at 1, test at 1. rewrite Hs.
  unfold bind at 1, test at 1. cbn [andb].
  unfold bind at 1, info at 1, emit at 1. fold t.
  set (w0 := World _ _ _).
  destruct (replace_dir p t w0) as [r w1] eqn:Hr.
  pose proof Hr as (_ & _ & Heff)%replace_dir_effect.
  destruct (Heff Hu Hd) as (_ & Hget & Hok).
  assert (Htn : t ≠ []).
  { intros E. destruct Hu as [Hu _]. apply Hu. rewrite E. apply prefix_nil. }
  assert (r = Val tt) as ->.
  { apply Hok; [by apply is_dir_not_file| |done].
    apply is_dir_parent; [by apply is_dir_exists|done]. }
  unfold try_, bind. rewrite Hr. unfold ret. eexists. split; [reflexivity|].
  by apply Hget.
Qed.

(** C2, as the code has it -- For an add-on that exists, [copy_mod_item]
    skips exactly when skip-if-exists is set and the add-on is [present]:
    for a single file or a flat folder, the entry of the same name exists in
    the destination; for a structured tree, some entry of its "Mods"
    sub-root exists there.  A skip returns [False], logs the skip and leaves
    the file system as it is.  Otherwise the copy is announced and carried
    out: the result is [True], or the copy failed (a warning and [False],
    or an exception from the structured fan-out).  With skip-if-exists off,
    a file lying over an existing file, or a flat folder over an existing
    directory, ends up equal to the source. *)
Theorem skip_force_law (p dst : path) (skip ts : bool) (w : world) :
  exists_ (fs w) p = true →
  (present (fs w) p dst && skip = true →
   copy_mod_item p dst skip ts w
   = (Val false,
      World (fs w) (now w)
            (log w ++ stamp (fs w) p ts ++ [Log LInfo (MSkipping (name p))])))
  ∧ (present (fs w) p dst && skip = false →
     ∃ r s rest,
       copy_mod_item p dst skip ts w
       = (r, World s (now w)
                   (log w ++ stamp (fs w) p ts
                          ++ Log LInfo (copying_msg (fs w) p) :: rest))
       ∧ (r = Val true ∨ (∃ e, r = Exc e)
          ∨ (r = Val false ∧ rest = [Log LWarn (MFailedCopy (name p))])))
  ∧ (is_file (fs w) p = true ∨ has_structure (fs w) p = false →
     present (fs w) p dst = exists_ (fs w) (joinpath dst (name p)))
  ∧ (skip = false → is_file (fs w) p = true →
     is_file (fs w) (joinpath dst (name p)) = true →
     p ≠ joinpath dst (name p) →
     ∃ w', copy_mod_item p dst skip ts w = (Val true, w')
           ∧ get (fs w') (joinpath dst (name p)) = get (fs w) p)
  ∧ (skip = false → is_dir (fs w) p = true → has_structure (fs w) p = false →
     is_dir (fs w) (joinpath dst (name p)) = true →
     unrelated (joinpath dst (name p)) p →
     ∃ w', copy_mod_item p dst skip ts w = (Val true, w')
           ∧ get (fs w') (joinpath dst (name p)) = get (fs w) p).
Proof.
  intros He. split; [|split; [|split; [|split]]].
  - intros [Hp ->]%andb_true_iff. by apply copy_mod_item_skip.
  - by apply copy_mod_item_copy.
  - unfold present. intros [-> | ->]; [done|]. by destruct (is_file (fs w) p).
  - intros ->. apply force_overwrites_file.
  - intros ->. apply force_replaces_folder.
Qed.

Lemma skip_force_law_witness :
  copy_mod_item ["proj"; "extra.dll"] ["game"; "Mods"] true false (world_of fs_old_copy)
  = (Val false,
     World (fs (world_of fs_old_copy)) (now (world_of fs_old_copy))
           (log (world_of fs_old_copy)
            ++ stamp (fs (world_of fs_old_copy)) ["proj"; "extra.dll"] false
            ++ [Log LInfo (MSkipping (name ["proj"; "extra.dll"]))]))
  ∧ ∃ w', copy_mod_item ["proj"; "extra.dll"] ["game"; "Mods"] false false
                        (world_of fs_old_copy) = (Val true, w')
          ∧ get (fs w') (joinpath ["game"; "Mods"] (name ["proj"; "extra.dll"]))
            = get (fs (world_of fs_old_copy)) ["proj"; "extra.dll"].
Proof.
  split.
  - apply (proj1 (skip_force_law ["proj"; "extra.dll"] ["game"; "Mods"] true false
                    (world_of fs_old_copy) eq_refl)).
    reflexivity.
  - apply (proj1 (proj2 (proj2 (proj2
             (skip_force_law ["proj"; "extra.dll"] ["game"; "Mods"] false false
                (world_of fs_old_copy) eq_refl))))).
    + reflexivity.
    + reflexivity.
    + reflexivity.
    + discriminate.
Defined.

(** C2, as stated, fails for a structured tree without a "Mods" sub-root:
    the add-on [AddonP] is already deployed -- [D/Mods/AddonP] exists and
    [D/Plugins/Bar.dll] is its file -- and with skip-if-exists set it is
    copied again all the same. *)
Lemma plugins_only_addon_copied_again :
  exists_ fs_plugins_only ["D"; "Mods"; "AddonP"] = true
  ∧ get fs_plugins_only ["D"; "Plugins"; "Bar.dll"]
    = get fs_plugins_only ["AddonP"; "Plugins"; "Bar.dll"]
  ∧ copy_mod_item ["AddonP"] ["D"; "Mods"] true false (world_of fs_plugins_only)
    = (Val true,
       World fs_plugins_only 0 [Log LInfo (MCopyingStructured "AddonP");
                                Log LInfo (MCopyingStructure "AddonP")]).
Proof. vm_compute. done. Qed.

(** ** C4: the built mod is always copied *)

Lemma copy_item_file src dst w :
  is_file (fs w) src = true → is_dir (fs w) dst = true → name src ≠ "" →
  is_dir (fs w) (joinpath dst (name src)) = false →
  src ≠ joinpath dst (name src) →
  ∃ w', copy_item src dst w = (Val tt, w')
        ∧ get (fs w') (joinpath dst (name src)) = get (fs w) src
        ∧ confined (joinpath dst (name src)) (fs w) (fs w').
Proof.
  intros Hf Hd Hn Ht Hne. rewrite (joinpath_child _ _ Hn) in *.
  set (t := child dst (name src)) in *.
  assert (Hc : ∃ s', copy2 (fs w) src t = Some s' ∧ get s' t = get (fs w) src).
  { unfold copy2. pose proof Hf as (tm & d & Hg)%is_file_get. rewrite Hg, Ht.
    destruct (decide (src = t)); [done|]. rewrite Ht.
    destruct (put_is_Some (fs w) t (File tm d)) as [s' Hs'];
      [apply child_ne_nil|by unfold t; rewrite parent_child|].
    exists s'. split; [done|]. by rewrite (put_get _ _ _ _ Hs'). }
  destruct Hc as (s' & Hc & Hget).
  unfold copy_item. rewrite (joinpath_child _ _ Hn). fold t. munfold.
  cbn [fs now log]. rewrite (is_file_not_dir _ _ Hf). cbn [fs now log].
  rewrite Hc.
  eexists. split; [reflexivity|]. split; [done|]. by eapply confined_copy2.
Qed.

Lemma copy_item_dir src dst w :
  is_dir (fs w) src = true → is_dir (fs w) dst = true → name src ≠ "" →
  is_file (fs w) (joinpath dst (name src)) = false →
  unrelated (joinpath dst (name src)) src →
  ∃ w', copy_item src dst w = (Val tt, w')
        ∧ get (fs w') (joinpath dst (name src)) = get (fs w) src
        ∧ confined (joinpath dst (name src)) (fs w) (fs w').
Proof.
  intros Hs Hd Hn Ht Hu. rewrite (joinpath_child _ _ Hn) in *.
  set (t := child dst (name src)) in *.
  unfold copy_item. rewrite (joinpath_child _ _ Hn). fold t.
  unfold bind at 1, info at 1, emit at 1. unfold bind at 1, test at 1.
  cbn [fs]. rewrite Hs.
  set (w0 := World _ _ _).
  destruct (replace_dir src t w0) as [r w1] eqn:Hr.
  pose proof Hr as (_ & Hc & Heff)%replace_dir_effect.
  destruct (Heff Hu Hs) as (_ & Hget & Hok).
  assert (r = Val tt) as ->.
  { apply Hok; [done|by unfold t; rewrite parent_child|apply child_ne_nil]. }
  exists w1. split; [done|]. split; [by apply Hget|done].
Qed.

Lemma copy_stages_inv host c mp w n w' :
  copy_stages host c mp w = (Val n, w') →
  ∃ k w1,
    addon_stages host c mp w = (Val k, w1) ∧ n = (k + 1)%nat
    ∧ copy_item (resolve host (target c)) (resolve host (mods_dir c))
                (World (fs w1) (now w1) (log w1 ++ [Log LStep MCopyingBuilt]))
      = (Val tt, w').
Proof.
  unfold copy_stages. intros H.
  apply bind_inv in H as [(k & w1 & H1 & H)|(? & _ & [=])].
  exists k, w1. split; [done|].
  apply bind_inv in H as [([] & w2 & H2 & H)|(? & _ & [=])].
  apply emit_inv in H2 as [_ ->].
  apply bind_inv in H as [([] & w3 & H3 & H)|(? & _ & [=])].
  apply ret_inv in H as [[= <-] <-]. done.
Qed.

(** C4, as the code has it -- The built mod is copied by [copy_item], which
    takes no skip or force flag and looks at neither.  A file artifact lying
    over a destination entry that is not a directory (a regular file or
    nothing) becomes that entry; a directory artifact lying over a
    destination entry that is not a regular file (a directory or nothing)
    replaces it whole.  Whenever the copy stages come to an end, they ran
    [copy_item] last and added one to the count of the add-ons. *)
Theorem built_mod_always_copied :
  (∀ src dst w,
     is_file (fs w) src = true → is_dir (fs w) dst = true → name src ≠ "" →
     is_dir (fs w) (joinpath dst (name src)) = false →
     src ≠ joinpath dst (name src) →
     ∃ w', copy_item src dst w = (Val tt, w')
           ∧ get (fs w') (joinpath dst (name src)) = get (fs w) src
           ∧ confined (joinpath dst (name src)) (fs w) (fs w'))
  ∧ (∀ src dst w,
       is_dir (fs w) src = true → is_dir (fs w) dst = true → name src ≠ "" →
       is_file (fs w) (joinpath dst (name src)) = false →
       unrelated (joinpath dst (name src)) src →
       ∃ w', copy_item src dst w = (Val tt, w')
             ∧ get (fs w') (joinpath dst (name src)) = get (fs w) src
             ∧ confined (joinpath dst (name src)) (fs w) (fs w'))
  ∧ (∀ host c mp w n w',
       copy_stages host c mp w = (Val n, w') →
       ∃ k w1,
         addon_stages host c mp w = (Val k, w1) ∧ n = (k + 1)%nat
         ∧ copy_item (resolve host (target c)) (resolve host (mods_dir c))
                     (World (fs w1) (now w1) (log w1 ++ [Log LStep MCopyingBuilt]))
           = (Val tt, w')).
Proof.
  split; [apply copy_item_file|]. split; [apply copy_item_dir|apply copy_stages_inv].
Qed.

Lemma built_mod_always_copied_witness :
  (∃ w', copy_item ["proj"; "bin"; "MyMod.dll"] ["game"; "Mods"] (world_of fs_with_tool)
         = (Val tt, w')
         ∧ get (fs w') (joinpath ["game"; "Mods"] (name ["proj"; "bin"; "MyMod.dll"]))
           = get (fs (world_of fs_with_tool)) ["proj"; "bin"; "MyMod.dll"]
         ∧ confined (joinpath ["game"; "Mods"] (name ["proj"; "bin"; "MyMod.dll"]))
                    (fs (world_of fs_with_tool)) (fs w'))
  ∧ (∃ w', copy_item ["proj"; "extras"; "Tool"] ["game"; "Mods"] (world_of fs_with_tool)
           = (Val tt, w')
           ∧ get (fs w') (joinpath ["game"; "Mods"] (name ["proj"; "extras"; "Tool"]))
             = get (fs (world_of fs_with_tool)) ["proj"; "extras"; "Tool"]
           ∧ confined (joinpath ["game"; "Mods"] (name ["proj"; "extras"; "Tool"]))
                      (fs (world_of fs_with_tool)) (fs w'))
  ∧ ∃ k w1,
      addon_stages host_idle cfg_basic false (world_of fs_with_tool) = (Val k, w1)
      ∧ 1%nat = (k + 1)%nat
      ∧ copy_item (resolve host_idle (target cfg_basic))
                  (resolve host_idle (mods_dir cfg_basic))
                  (World (fs w1) (now w1) (log w1 ++ [Log LStep MCopyingBuilt]))
        = (Val tt, (copy_stages host_idle cfg_basic false (world_of fs_with_tool)).2).
Proof.
  split; [|split].
  - apply (proj1 built_mod_always_copied
             ["proj"; "bin"; "MyMod.dll"] ["game"; "Mods"] (world_of fs_with_tool)).
    + reflexivity.
    + reflexivity.
    + discriminate.
    + reflexivity.
    + discriminate.
  - apply (proj1 (proj2 built_mod_always_copied)
             ["proj"; "extras"; "Tool"] ["game"; "Mods"] (world_of fs_with_tool)).
    + reflexivity.
    + reflexivity.
    + discriminate.
    + reflexivity.
    + vm_compute. split; intros [? H]; destruct x; discriminate H.
  - apply (proj2 (proj2 built_mod_always_copied)
             host_idle cfg_basic false (world_of fs_with_tool)).
    vm_compute. reflexivity.
Defined.

(** C4, as stated, fails when a directory stands where the built file is to
    go: the file is put inside that directory, and the directory stays with
    what it held. *)
Lemma built_file_lands_inside_directory :
  ∃ w', copy_item ["proj"; "bin"; "MyMod.dll"] ["game"; "Mods"] (world_of fs_dir_in_place)
        = (Val tt, w')
        ∧ get (fs w') ["game"; "Mods"; "MyMod.dll"]
          = Some (dir_of [("old.txt", File 1 "old"); ("MyMod.dll", File 7 "built")])
        ∧ get (fs w') ["game"; "Mods"; "MyMod.dll"]
          ≠ get (fs (world_of fs_dir_in_place)) ["proj"; "bin"; "MyMod.dll"].
Proof.
  eexists. split; [vm_compute; reflexivity|]. split; [by vm_compute|].
  vm_compute. discriminate.
Qed.

(** ** C1: what a run leaves behind for the next one *)

(** What is read below an unchanged entry is unchanged. *)
Lemma get_below_same s s' p q :
  get s' p = get s p → p `prefix_of` q → get s' q = get s q.
Proof. intros H [k ->]. by rewrite !get_app, H. Qed.

Lemma exists_same s s' p : get s' p = get s p → exists_ s' p = exists_ s p.
Proof. unfold exists_. by intros ->. Qed.

Lemma is_file_same s s' p : get s' p = get s p → is_file s' p = is_file s p.
Proof. unfold is_file. by intros ->. Qed.

Lemma is_dir_same s s' p : get s' p = get s p → is_dir s' p = is_dir s p.
Proof. unfold is_dir. by intros ->. Qed.

Lemma find_subdir_below s p nm sub :
  find_subdir_case_insensitive s p nm = Some sub → p `prefix_of` sub.
Proof.
  intros H. apply find_subdir_Some in H. destruct H as (n & -> & _).
  apply child_prefix.
Qed.

Lemma well_rooted_same s s' p :
  get s' p = get s p → well_rooted s p → well_rooted s' p.
Proof.
  intros Hg Hw Hd Hs. rewrite (is_dir_same _ _ _ Hg) in Hd.
  rewrite (has_structure_same _ _ _ Hg) in Hs.
  destruct (Hw Hd Hs) as (sub & Hf & Hne). exists sub.
  rewrite (find_subdir_same _ _ _ _ Hg). split; [done|].
  rewrite (iterdir_same s s' sub); [done|].
  eapply get_below_same; [done|by eapply find_subdir_below].
Qed.

Lemma length_joinpath (p : path) (n : string) : (length (joinpath p n) ≤ S (length p))%nat.
Proof.
  unfold joinpath. destruct (decide (n = "")); [lia|]. rewrite length_app. simpl. lia.
Qed.

Lemma has_existing_mono g m s s' sub :
  get s' sub = get s sub → safe (S (S (length g))) s s' →
  has_existing s (child g m) sub = true → has_existing s' (child g m) sub = true.
Proof.
  intros Hg Hs. unfold has_existing. rewrite (iterdir_same _ _ _ Hg).
  rewrite !existsb_exists. intros (item & Hin & He). exists item. split; [done|].
  apply (Hs (child (child g m) (name item))); [|done].
  rewrite !length_child. lia.
Qed.

Lemma present_mono g m s s' p :
  get s' p = get s p → safe (S (S (length g))) s s' →
  present s p (child g m) = true → present s' p (child g m) = true.
Proof.
  intros Hg Hs. unfold present.
  rewrite (is_file_same _ _ _ Hg), (has_structure_same _ _ _ Hg),
    (find_subdir_same _ _ _ _ Hg).
  assert (Hj : exists_ s (joinpath (child g m) (name p)) = true →
               exists_ s' (joinpath (child g m) (name p)) = true).
  { apply Hs. pose proof (length_joinpath (child g m) (name p)) as Hl.
    rewrite length_child in Hl. lia. }
  destruct (is_file s p); [done|]. destruct (has_structure s p); [|done].
  destruct (find_subdir_case_insensitive s p "Mods") as [sub|] eqn:Hf; [|done].
  apply has_existing_mono; [|done].
  eapply get_below_same; [done|by eapply find_subdir_below].
Qed.

Lemma copy2_ok s src t :
  is_file s src = true → is_dir s t = false → src ≠ t → t ≠ [] →
  is_dir s (parent t) = true →
  ∃ s', copy2 s src t = Some s' ∧ get s' t = get s src.
Proof.
  intros Hf Ht Hne Hn Hp. unfold copy2.
  pose proof Hf as (tm & d & Hg)%is_file_get. rewrite Hg, Ht.
  destruct (decide (src = t)); [done|]. rewrite Ht.
  destruct (put_is_Some s t (File tm d)) as [s' Hs']; [done..|].
  exists s'. split; [done|]. by rewrite (put_get _ _ _ _ Hs').
Qed.

Lemma copy2_needs_file s src t s' : copy2 s src t = Some s' → is_file s src = true.
Proof. unfold copy2, is_file. by destruct (get s src) as [[|]|]. Qed.

Lemma copy2_target_exists s src t s' : copy2 s src t = Some s' → exists_ s' t = true.
Proof.
  intros H. destruct (is_dir s t) eqn:Ht.
  - apply copy2_grows in H. apply H. by apply is_dir_exists.
  - unfold copy2 in H. rewrite Ht in H.
    destruct (get s src) as [[tm d|]|]; try done.
    destruct (decide (src = t)); [done|]. rewrite Ht in H.
    apply exists_get. by rewrite (put_get _ _ _ _ H).
Qed.

Lemma iterdir_exists s p item : item ∈ iterdir s p → exists_ s item = true.
Proof.
  intros (n & -> & Hn)%iterdir_elem. unfold listdir in Hn.
  destruct (get s p) as [[|ch]|] eqn:Hg; try by apply elem_of_nil in Hn.
  apply exists_get. rewrite (get_child _ _ _ _ Hg).
  apply (listdir_elem s p ch n Hg). unfold listdir. by rewrite Hg.
Qed.

Section Establish.
Variables (g : path) (m : string) (p : path).
Hypothesis p_away : unrelated g p.
Hypothesis p_named : name p ≠ "".

Lemma one_source_away q : q ∈ [p] → unrelated g q.
Proof. by intros ->%list_elem_of_singleton. Qed.

Lemma one_source_named : True → ∀ q, q ∈ [p] → name q ≠ "".
Proof. by intros _ q ->%list_elem_of_singleton. Qed.

Lemma copy_mod_item_keeps skip ts w r w' :
  copy_mod_item p (child g m) skip ts w = (r, w') →
  get (fs w') p = get (fs w) p ∧ safe (S (S (length g))) (fs w) (fs w').
Proof.
  intros H.
  pose proof (eff_copy_mod_item g m [p] True one_source_away one_source_named
                p skip ts w ltac:(by apply list_elem_of_singleton) _ _ H) as (Hc & Hs & _).
  split; [by apply (confined_unrelated g)|by apply Hs].
Qed.

Lemma target_away n : unrelated (child (child g m) n) p.
Proof.
  apply unrelated_sym. eapply unrelated_prefix_r; [by apply unrelated_sym|].
  etrans; apply child_prefix.
Qed.

Lemma present_after_file ts w b w' :
  copy_mod_item p (child g m) true ts w = (Val b, w') →
  is_file (fs w) p = true → is_dir (fs w) (child g m) = true →
  present (fs w') p (child g m) = true.
Proof.
  intros H Hf Hd.
  destruct (copy_mod_item_keeps _ _ _ _ _ H) as [Hsame Hsafe].
  destruct (present (fs w) p (child g m)) eqn:Hp.
  { by apply (present_mono g m (fs w)). }
  unfold present in *. rewrite (is_file_same _ _ _ Hsame). rewrite Hf in *.
  rewrite (joinpath_child _ _ p_named) in *.
  set (t := child (child g m) (name p)) in *.
  destruct (copy2_ok (fs w) p t) as (s' & Hc & Hg); [done| | | | |].
  { by apply is_dir_false_of_not_exists. }
  { intros E. destruct (target_away (name p)) as [_ Hn]. apply Hn. fold t. by rewrite <- E. }
  { apply child_ne_nil. }
  { unfold t. by rewrite parent_child. }
  unfold copy_mod_item in H. rewrite (joinpath_child _ _ p_named) in H. fold t in H.
  unfold bind at 1, test at 1 in H. rewrite (is_file_exists _ _ Hf) in H. cbn [negb] in H.
  unfold bind at 1, test at 1 in H. rewrite Hf in H.
  destruct ts; munfold; simpl in H; rewrite Hp in H; simpl in H; rewrite Hc in H;
    simpl in H; injection H as <- <-; simpl; apply exists_get; rewrite Hg;
    by apply exists_get, is_file_exists.
Qed.

Lemma present_after_folder ts w b w' :
  copy_mod_item p (child g m) true ts w = (Val b, w') →
  is_dir (fs w) p = true → has_structure (fs w) p = false →
  is_dir (fs w) (child g m) = true →
  present (fs w') p (child g m) = true.
Proof.
  intros H Hp Hs Hd.
  destruct (copy_mod_item_keeps _ _ _ _ _ H) as [Hsame Hsafe].
  destruct (present (fs w) p (child g m)) eqn:Hpr.
  { by apply (present_mono g m (fs w)). }
  pose proof (is_dir_not_file _ _ Hp) as Hf.
  unfold present in *. rewrite (is_file_same _ _ _ Hsame), (has_structure_same _ _ _ Hsame).
  rewrite Hf, Hs in *.
  rewrite (joinpath_child _ _ p_named) in *.
  set (t := child (child g m) (name p)) in *.
  unfold copy_mod_item in H. rewrite (joinpath_child _ _ p_named) in H. fold t in H.
  unfold bind at 1, test at 1 in H. rewrite (is_dir_exists _ _ Hp) in H. cbn [negb] in H.
  unfold bind at 1, test at 1 in H. rewrite Hf, andb_false_r in H.
  unfold bind at 1, ret at 1 in H. unfold bind at 1, test at 1 in H. rewrite Hs in H.
  unfold bind at 1, test at 1 in H. rewrite Hpr in H. cbn [andb] in H.
  unfold bind at 1, info at 1, emit at 1 in H.
  set (w0 := World _ _ _) in H.
  destruct (replace_dir p t w0) as [r1 w1] eqn:Hr.
  pose proof Hr as (_ & _ & Heff)%replace_dir_effect.
  destruct (Heff (target_away (name p)) Hp) as (_ & Hget & Hok).
  assert (r1 = Val tt) as ->.
  { apply Hok; [|by unfold t; rewrite parent_child|apply child_ne_nil].
    destruct (is_file (fs w0) t) eqn:E; [|done].
    apply is_file_exists in E. simpl in E. congruence. }
  unfold try_, bind in H. rewrite Hr in H. unfold ret in H. injection H as <- <-.
  apply exists_get. rewrite (Hget eq_refl). by apply exists_get, is_dir_exists.
Qed.

Lemma mods_entries_exist w w' sub :
  copy_structured_mod p (child g m) w = (Val tt, w') →
  exists_ (fs w) p = true →
  find_subdir_case_insensitive (fs w) p "Mods" = Some sub →
  is_dir (fs w) (child g m) = true →
  ∀ item, item ∈ iterdir (fs w) sub →
          exists_ (fs w') (child (child g m) (name item)) = true.
Proof.
  intros H He Hfind Hd item Hin.
  unfold copy_structured_mod in H.
  unfold bind at 1, test at 1 in H. rewrite He in H. cbn [negb] in H.
  unfold bind at 1, info at 1, emit at 1 in H.
  set (w1 := World _ _ _) in H.
  apply bind_inv in H as [([] & w2 & H1 & H)|(? & _ & [=])].
  assert (Hfs1 : fs w1 = fs w) by done.
  unfold bind at 1, test at 1 in H1. rewrite Hfs1, Hfind in H1.
  unfold bind at 1, test at 1 in H1. rewrite Hfs1 in H1.
  assert (Hex : exists_ (fs w2) (child (child g m) (name item)) = true).
  { apply (copy_entries_exist _ _ _ _ _ H1); [done| |done].
    intros x Hx. split; [|by eapply iterdir_exists].
    apply (unrelated_both g p); [done|apply child_prefix|].
    by eapply item_below_source. }
  set (R := deploys g m [p] True).
  assert (HR : R (fs w2) (fs w')).
  { revert H. generalize (Val tt : res unit). intros r H. revert r w' H.
    change (effect_at R
      ((let* plugins_subdir := test (λ s, find_subdir_case_insensitive s p "Plugins") in
        match plugins_subdir with
        | Some sub =>
            let plugins_dst := joinpath (parent (child g m)) "Plugins" in
            fs_op (λ s, mkdir_p s plugins_dst) >>
            let* items := test (λ s, iterdir s sub) in
            for_each items (copy_entry plugins_dst)
        | None => ret tt
        end) >>
       (let* userlibs_subdir := test (λ s, find_subdir_case_insensitive s p "UserLibs") in
        match userlibs_subdir with
        | Some sub =>
            let userlibs_dst := joinpath (parent (child g m)) "UserLibs" in
            fs_op (λ s, mkdir_p s userlibs_dst) >>
            let* items := test (λ s, iterdir s sub) in
            for_each items (copy_entry userlibs_dst)
        | None => ret tt
        end)) w2).
    pose proof (deploys_preorder g m [p] True one_source_away) as HPre.
    apply (eff_bind R).
    - apply (eff_sibling_part g m [p] True one_source_away "Plugins");
        [by apply list_elem_of_singleton|done].
    - intros [] w3 _ _.
      apply (eff_sibling_part g m [p] True one_source_away "UserLibs");
        [by apply list_elem_of_singleton|done]. }
  destruct HR as (_ & Hs & _). apply (Hs I (child (child g m) (name item))); [|done].
  rewrite !length_child. lia.
Qed.

Lemma present_after_structured ts w b w' :
  copy_mod_item p (child g m) true ts w = (Val b, w') →
  is_dir (fs w) p = true → has_structure (fs w) p = true →
  is_dir (fs w) (child g m) = true → well_rooted (fs w) p →
  present (fs w') p (child g m) = true.
Proof.
  intros H Hp Hs Hd Hw.
  destruct (copy_mod_item_keeps _ _ _ _ _ H) as [Hsame Hsafe].
  destruct (present (fs w) p (child g m)) eqn:Hpr.
  { by apply (present_mono g m (fs w)). }
  pose proof (is_dir_not_file _ _ Hp) as Hf.
  destruct (Hw Hp Hs) as (sub & Hfind & Hne).
  unfold present in *. rewrite (is_file_same _ _ _ Hsame), (has_structure_same _ _ _ Hsame),
    (find_subdir_same _ _ _ _ Hsame).
  rewrite Hf, Hs, Hfind in *.
  unfold copy_mod_item in H.
  unfold bind at 1, test at 1 in H. rewrite (is_dir_exists _ _ Hp) in H. cbn [negb] in H.
  unfold bind at 1, test at 1 in H. rewrite Hf, andb_false_r in H.
  unfold bind at 1, ret at 1 in H. unfold bind at 1, test at 1 in H. rewrite Hs in H.
  unfold bind at 1 2, test at 1 in H. rewrite Hfind in H.
  unfold test at 1 in H. rewrite Hpr in H.
  unfold bind at 1, info at 1, emit at 1 in H.
  set (w0 := World _ _ _) in H.
  apply bind_inv in H as [([] & w1 & H1 & H)|(? & _ & [=])].
  apply ret_inv in H as [_ ->].
  assert (Hsub : get (fs w1) sub = get (fs w) sub).
  { eapply get_below_same; [done|by eapply find_subdir_below]. }
  unfold has_existing. rewrite (iterdir_same _ _ _ Hsub).
  destruct (iterdir (fs w) sub) as [|item items] eqn:Hit; [done|].
  apply existsb_exists. exists item. split; [by left|].
  apply (mods_entries_exist w0 w1 sub H1); simpl;
    [by apply is_dir_exists|done|done|]. rewrite Hit. by left.
Qed.

(** After [copy_mod_item] has dealt with an existing add-on, without
    forcing, the add-on counts as deployed. *)
Lemma present_after ts w b w' :
  copy_mod_item p (child g m) true ts w = (Val b, w') →
  exists_ (fs w) p = true → is_dir (fs w) (child g m) = true →
  well_rooted (fs w) p →
  present (fs w') p (child g m) = true.
Proof.
  intros H He Hd Hw. rewrite exists_is_dir_or_file in He.
  destruct (is_dir (fs w) p) eqn:Hp.
  - destruct (has_structure (fs w) p) eqn:Hs.
    + by eapply present_after_structured.
    + by eapply present_after_folder.
  - by eapply present_after_file.
Qed.

End Establish.

(** ** C1: the first run deploys every add-on *)

Ltac inv_bind H a w1 H1 :=
  apply bind_inv in H as [(a & w1 & H1 & H)|(? & _ & [=])].

Section FirstRun.
Variables (host : platform) (g : path) (m : string) (srcs : list path).
Hypothesis srcs_away : ∀ p, p ∈ srcs → unrelated g p.
Hypothesis srcs_named : ∀ p, p ∈ srcs → name p ≠ "".

Let K := deploys g m srcs True.
Let Inv (s : node) : Prop :=
  is_dir s (child g m) = true ∧ ∀ p, p ∈ srcs → well_rooted s p.

#[local] Instance first_run_preorder : PreOrder K.
Proof. by apply deploys_preorder. Qed.

Lemma srcs_named' : True → ∀ p, p ∈ srcs → name p ≠ "".
Proof. intros _. exact srcs_named. Qed.

Lemma K_get s s' q : K s s' → unrelated g q → get s' q = get s q.
Proof. intros (Hc & _) Hu. by apply (confined_unrelated g). Qed.

Lemma K_safe s s' : K s s' → safe (S (S (length g))) s s'.
Proof. intros (_ & Hs & _). by apply Hs. Qed.

Lemma K_is_dir s s' : K s s' → is_dir s (child g m) = true → is_dir s' (child g m) = true.
Proof. intros HK. apply (K_safe _ _ HK). rewrite length_child. lia. Qed.

Lemma K_inv s s' : K s s' → Inv s → Inv s'.
Proof.
  intros HK [Hd Hw]. split; [by eapply K_is_dir|].
  intros p Hp. apply (well_rooted_same s); [|by apply Hw].
  apply (K_get _ _ _ HK). by apply srcs_away.
Qed.

Lemma K_deployed s s' p :
  K s s' → unrelated g p → deployed s (child g m) p → deployed s' (child g m) p.
Proof.
  intros HK Hu Hd He. pose proof (K_get _ _ _ HK Hu) as Hg.
  rewrite (exists_same _ _ _ Hg) in He.
  apply (present_mono g m s); [done|by apply K_safe|by apply Hd].
Qed.

Lemma K_starter s s' src :
  K s s' → unrelated g src → starter_placed s g src → starter_placed s' g src.
Proof.
  intros HK Hu Hd He. pose proof (K_get _ _ _ HK Hu) as Hg.
  rewrite (exists_same _ _ _ Hg) in He. rewrite (is_file_same _ _ _ Hg).
  destruct (Hd He) as [H|H]; [left|by right].
  apply (K_safe _ _ HK (joinpath g (name src))); [|done].
  pose proof (length_joinpath g (name src)). lia.
Qed.

Lemma copy_mod_item_deploys p ts w b w' :
  p ∈ srcs → Inv (fs w) →
  copy_mod_item p (child g m) true ts w = (Val b, w') →
  K (fs w) (fs w') ∧ deployed (fs w') (child g m) p.
Proof.
  intros Hp [Hd Hw] H.
  assert (HK : K (fs w) (fs w')).
  { by apply (eff_copy_mod_item g m srcs True srcs_away srcs_named' p true ts w Hp _ _ H). }
  split; [done|]. intros He.
  rewrite (exists_same _ _ _ (K_get _ _ _ HK (srcs_away p Hp))) in He.
  eapply present_after; eauto.
Qed.

Lemma count_each_deploys l ts n w k w' :
  (∀ p, p ∈ l → p ∈ srcs) → Inv (fs w) →
  count_each l (λ p, copy_mod_item p (child g m) true ts) n w = (Val k, w') →
  K (fs w) (fs w') ∧ ∀ p, p ∈ l → deployed (fs w') (child g m) p.
Proof.
  revert n w. induction l as [|x l IH]; intros n w Hl HI H.
  - apply ret_inv in H as [_ ->]. split; [reflexivity|]. by intros p ?%elem_of_nil.
  - simpl in H. inv_bind H b w1 H1.
    destruct (copy_mod_item_deploys x ts w b w1) as [HK1 Hd1];
      [apply Hl; by left|done|done|].
    destruct (IH _ w1 (λ p Hp, Hl p ltac:(by right)) (K_inv _ _ HK1 HI) H) as [HK2 Hd2].
    split; [by etrans|]. intros p [->|Hp]%elem_of_cons; [|by apply Hd2].
    apply (K_deployed (fs w1)); [done| |done]. apply srcs_away, Hl. by left.
Qed.

Lemma copy_user_mods_deploys l base ts w k w' :
  (∀ e, e ∈ l → entry_path base e ∈ srcs) → Inv (fs w) →
  copy_user_mods l base (child g m) false ts w = (Val k, w') →
  K (fs w) (fs w') ∧ ∀ e, e ∈ l → deployed (fs w') (child g m) (entry_path base e).
Proof.
  intros Hl HI H. destruct (decide (l = [])) as [->|Hne].
  { apply ret_inv in H as [_ ->]. split; [reflexivity|]. by intros p ?%elem_of_nil. }
  rewrite (copy_user_mods_unfold _ _ _ _ _ _ Hne) in H. cbn [negb] in H.
  set (w0 := World _ _ _) in H.
  apply count_each_deploys in H as [HK Hd]; [|..|exact HI].
  2:{ intros p [_ Hp]%list_elem_of_filter.
      apply list_elem_of_fmap in Hp as (e & -> & He). by apply Hl. }
  split; [exact HK|]. intros e He Hex. apply Hd; [|done].
  apply list_elem_of_filter. split; [|apply list_elem_of_fmap; eauto].
  rewrite <- Hex. symmetry.
  exact (exists_same _ _ _ (K_get _ _ _ HK (srcs_away _ (Hl e He)))).
Qed.

Lemma starter_copy_possible s src :
  is_dir s (child g m) = true → unrelated g src →
  exists_ s (joinpath g (name src)) = false → is_file s src = true →
  is_Some (copy2 s src (joinpath g (name src))).
Proof.
  intros Hd Hu He Hf.
  assert (Hg : is_dir s g = true).
  { rewrite <- (parent_child g m). apply is_dir_parent; [by apply is_dir_exists|].
    apply child_ne_nil. }
  assert (Hn : name src ≠ "").
  { intros E. unfold joinpath in He. rewrite E in He.
    rewrite decide_True in He by done. apply is_dir_exists in Hg. congruence. }
  rewrite (joinpath_child _ _ Hn) in *.
  destruct (copy2_ok s src (child g (name src))) as (s' & -> & _); [done| | | | |done].
  - by apply is_dir_false_of_not_exists.
  - intros E. destruct Hu as [Hu _]. apply Hu. rewrite E. apply child_prefix.
  - apply child_ne_nil.
  - by rewrite parent_child.
Qed.

Lemma copy_multiplayer_mods_deploys mp st w k w' :
  resolve host mp ∈ srcs → unrelated g (resolve host st) → Inv (fs w) →
  copy_multiplayer_mods host mp st (child g m) false w = (Val k, w') →
  K (fs w) (fs w')
  ∧ deployed (fs w') (child g m) (resolve host mp)
  ∧ starter_placed (fs w') g (resolve host st).
Proof.
  intros Hmp Hst HI H.
  assert (HK : K (fs w) (fs w')).
  { by apply (eff_copy_multiplayer_mods host g m srcs True srcs_away srcs_named'
                mp st false w Hmp _ _ H). }
  split; [done|].
  unfold copy_multiplayer_mods in H. rewrite parent_child in H. cbn [negb] in H.
  unfold bind at 1, step at 1, emit at 1 in H. set (w0 := World _ _ _) in H.
  assert (Hfs0 : fs w0 = fs w) by done.
  unfold bind at 1, test at 1 in H.
  inv_bind H count w2 H1.
  assert (H2 : K (fs w) (fs w2) ∧ deployed (fs w2) (child g m) (resolve host mp)).
  { destruct (exists_ (fs w0) (resolve host mp)) eqn:He; cbn [negb] in H1.
    - inv_bind H1 copied w1 H1'.
      apply copy_mod_item_deploys in H1' as [HK1 Hd1]; [|done|by rewrite Hfs0].
      assert (fs w2 = fs w1) as ->.
      { destruct copied; unfold bind, ok, emit, ret in H1; by injection H1 as _ <-. }
      by rewrite <- Hfs0.
    - unfold bind, warn, emit, ret in H1. injection H1 as _ <-. simpl.
      split; [reflexivity|]. intros E. rewrite Hfs0 in He. congruence. }
  destruct H2 as [HK2 Hd2].
  pose proof (K_inv _ _ HK2 HI) as [Hdir2 _].
  unfold bind at 1, test at 1 in H.
  destruct (exists_ (fs w2) (resolve host st)) eqn:He; cbn [negb] in H.
  2:{ unfold bind, warn, emit, ret in H. injection H as _ <-. simpl.
      split; [done|]. intros E. congruence. }
  unfold bind at 1, test at 1 in H.
  destruct (exists_ (fs w2) (joinpath g (name (resolve host st)))) eqn:Hde;
    cbn [negb orb] in H.
  { unfold bind, ok, emit, ret in H. injection H as _ <-. simpl.
    split; [done|]. intros _. by left. }
  unfold try_, bind at 1 2, fs_op at 1 in H.
  destruct (copy2 (fs w2) (resolve host st) (joinpath g (name (resolve host st))))
    as [s'|] eqn:Hc.
  - unfold bind, ok, emit, ret in H. injection H as _ <-. simpl.
    assert (HK3 : K (fs w2) s').
    { pose proof (eff_copy2 g m srcs True srcs_away (resolve host st)
                    (joinpath g (name (resolve host st))) w2
                    (joinpath_prefix _ _)) as Heff.
      unfold effect_at, fs_op in Heff. rewrite Hc in Heff.
      by apply (Heff _ _ eq_refl). }
    split; [apply (K_deployed (fs w2)); [done|by apply srcs_away|done]|].
    intros _. left. by eapply copy2_target_exists.
  - unfold bind, warn, emit, ret in H. injection H as _ <-. simpl.
    split; [done|]. intros _. right.
    destruct (is_file (fs w2) (resolve host st)) eqn:Hf; [|done].
    destruct (starter_copy_possible (fs w2) (resolve host st)) as [? E]; try done.
    congruence.
Qed.

Lemma copy_library_mods_deploys a b w k w' :
  (truthy a = true → resolve host (default "" a) ∈ srcs) →
  (truthy b = true → resolve host (default "" b) ∈ srcs) →
  Inv (fs w) →
  copy_library_mods host a b (child g m) false w = (Val k, w') →
  K (fs w) (fs w')
  ∧ (truthy a = true → deployed (fs w') (child g m) (resolve host (default "" a)))
  ∧ (truthy b = true → deployed (fs w') (child g m) (resolve host (default "" b))).
Proof.
  intros Ha Hb HI H. unfold copy_library_mods in H. cbn [negb] in H.
  inv_bind H count w1 H1.
  assert (H1' : K (fs w) (fs w1)
                ∧ (truthy a = true →
                   deployed (fs w1) (child g m) (resolve host (default "" a)))).
  { destruct (truthy a).
    - unfold bind at 1, step at 1, emit at 1 in H1. set (w0 := World _ _ _) in H1.
      inv_bind H1 copied w2 H2. apply ret_inv in H1 as [_ ->].
      apply copy_mod_item_deploys in H2 as [HK Hd]; [|by apply Ha|done].
      split; [done|]. by intros _.
    - apply ret_inv in H1 as [_ ->]. split; [reflexivity|done]. }
  destruct H1' as [HK1 Hd1].
  assert (H2' : K (fs w1) (fs w')
                ∧ (truthy b = true →
                   deployed (fs w') (child g m) (resolve host (default "" b)))).
  { destruct (truthy b).
    - unfold bind at 1, step at 1, emit at 1 in H. set (w0 := World _ _ _) in H.
      inv_bind H copied w2 H2. apply ret_inv in H as [_ ->].
      apply copy_mod_item_deploys in H2 as [HK Hd]; [|by apply Hb|by apply (K_inv (fs w))].
      split; [done|]. by intros _.
    - apply ret_inv in H as [_ ->]. split; [reflexivity|done]. }
  destruct H2' as [HK2 Hd2].
  split; [by etrans|]. split; [|done].
  intros Ht. apply (K_deployed (fs w1)); [done|by apply srcs_away, Ha|by apply Hd1].
Qed.

End FirstRun.

(** ** C1: a run that finds everything deployed changes nothing *)

Lemma quiet_ret {A} (a : A) w : quiet (ret a) a [] w.
Proof. exists w, []. by rewrite !app_nil_r. Qed.

Lemma quiet_test {A} (f : node → A) w : quiet (test f) (f (fs w)) [] w.
Proof. exists w, []. by rewrite !app_nil_r. Qed.

Lemma quiet_emit e w : quiet (emit e) tt [e] w.
Proof. eexists _, []. unfold emit. split; [reflexivity|]. done. Qed.

Lemma quiet_any_tail {A} (m : M A) v tail w : quiet m v tail w → quiet m v [] w.
Proof.
  intros (w' & evs & H & Hfs & Hl). exists w', (evs ++ tail).
  by rewrite app_nil_r.
Qed.

Lemma quiet_bind {A B} (m : M A) (k : A → M B) a b tail0 tail w :
  quiet m a tail0 w →
  (∀ w1, fs w1 = fs w → quiet (k a) b tail w1) →
  quiet (bind m k) b tail w.
Proof.
  intros (w1 & evs1 & H1 & Hfs1 & Hl1) Hk.
  destruct (Hk w1 Hfs1) as (w2 & evs2 & H2 & Hfs2 & Hl2).
  exists w2, (evs1 ++ tail0 ++ evs2). unfold bind. rewrite H1.
  split; [done|]. split; [congruence|]. rewrite Hl2, Hl1.
  by rewrite <- !(assoc_L (++)).
Qed.

Lemma quiet_same {A} (m : M A) v tail w w0 :
  quiet m v tail w → fs w = fs w0 → ∃ w', m w = (Val v, w') ∧ fs w' = fs w0.
Proof. intros (w' & evs & H & Hfs & _) E. exists w'. split; [done|congruence]. Qed.

Lemma kill_processes_quiet host exe wait prefix w :
  quiet (kill_processes host exe wait prefix) tt [] w.
Proof.
  assert (Hpre : ∃ w1 evs, fs w1 = fs w ∧ log w1 = log w ++ evs ∧
            kill_processes host exe wait prefix w = wait_for_exit host exe wait w1).
  { unfold kill_processes, find_wineserver, step, run. munfold.
    destruct (is_windows host); simpl;
      [eexists _, _; split; [|split; [|reflexivity]]; [reflexivity|]; simpl;
       rewrite <- ?(assoc_L (++)); reflexivity|].
    destruct (truthy prefix); simpl.
    - destruct (exists_ _ _); simpl;
        [eexists _, _; split; [|split; [|reflexivity]]; [reflexivity|]; simpl;
         rewrite <- ?(assoc_L (++)); reflexivity|].
      destruct (which_wineserver host) as [p|]; simpl;
        [|eexists _, _; split; [|split; [|reflexivity]]; [reflexivity|]; simpl;
          rewrite <- ?(assoc_L (++)); reflexivity].
      destruct (String.eqb p ""); simpl;
        eexists _, _; (split; [|split; [|reflexivity]]; [reflexivity|]); simpl;
        rewrite <- ?(assoc_L (++)); reflexivity.
    - destruct (which_wineserver host) as [p|]; simpl;
        [|eexists _, _; split; [|split; [|reflexivity]]; [reflexivity|]; simpl;
          rewrite <- ?(assoc_L (++)); reflexivity].
      destruct (String.eqb p ""); simpl;
        eexists _, _; (split; [|split; [|reflexivity]]; [reflexivity|]); simpl;
        rewrite <- ?(assoc_L (++)); reflexivity. }
  destruct Hpre as (w1 & evs0 & Hfs & Hlog & Hk). unfold quiet. rewrite Hk.
  destruct (wait_for_exit_spec host exe wait w1) as (b & w0 & evs & Hrun & _).
  rewrite Hrun. eexists _, _. split; [reflexivity|]. simpl. split; [done|].
  rewrite Hlog, app_nil_r, <- (assoc_L (++)). reflexivity.
Qed.

Lemma copy_mod_item_quiet p dst ts w :
  deployed (fs w) dst p → quiet (copy_mod_item p dst true ts) false [] w.
Proof.
  intros Hd. unfold quiet. destruct (exists_ (fs w) p) eqn:He.
  - rewrite (copy_mod_item_skip _ _ _ _ He (Hd He)).
    eexists _, _. split; [reflexivity|]. split; [done|]. simpl.
    by rewrite app_nil_r.
  - rewrite (copy_mod_item_missing _ _ _ _ _ He).
    eexists _, _. split; [reflexivity|]. split; [done|]. simpl.
    by rewrite app_nil_r.
Qed.

Lemma count_each_quiet l dst ts n w :
  (∀ p, p ∈ l → deployed (fs w) dst p) →
  quiet (count_each l (λ p, copy_mod_item p dst true ts) n) n [] w.
Proof.
  revert w. induction l as [|x l IH]; intros w Hl; [apply quiet_ret|].
  simpl. eapply quiet_bind.
  - apply copy_mod_item_quiet, Hl. by left.
  - intros w1 Hfs. simpl. apply IH. intros p Hp. rewrite Hfs. apply Hl. by right.
Qed.

Lemma copy_user_mods_quiet l base dst ts w :
  (∀ e, e ∈ l → deployed (fs w) dst (entry_path base e)) →
  quiet (copy_user_mods l base dst false ts) 0%nat [] w.
Proof.
  intros Hl. destruct (decide (l = [])) as [->|Hne]; [apply quiet_ret|].
  unfold quiet. rewrite (copy_user_mods_unfold _ _ _ _ _ _ Hne). cbn [negb].
  set (w0 := World _ _ _).
  destruct (count_each_quiet
              (filter (λ p, exists_ (fs w) p = true) (entry_path base <$> l))
              dst ts 0%nat w0) as (w' & evs & H & Hfs & Hlog).
  { intros p [_ Hp]%list_elem_of_filter.
    apply list_elem_of_fmap in Hp as (e & -> & He). by apply Hl. }
  exists w', (Log LStep MCopyingRequested ::
                ((λ p, Log LWarn (MModNotFound p))
                   <$> filter (λ p, exists_ (fs w) p = false) (entry_path base <$> l))
                ++ evs).
  split; [exact H|]. split; [done|]. rewrite Hlog. unfold w0. cbn [log].
  rewrite !app_nil_r. rewrite <- (assoc_L (++)). reflexivity.
Qed.

Lemma copy_multiplayer_mods_quiet host g m mp st w :
  deployed (fs w) (child g m) (resolve host mp) →
  starter_placed (fs w) g (resolve host st) →
  quiet (copy_multiplayer_mods host mp st (child g m) false) 0%nat [] w.
Proof.
  intros Hd Hs. unfold copy_multiplayer_mods. rewrite parent_child. cbn [negb].
  eapply quiet_bind; [apply quiet_emit|]. intros w1 Hfs1. cbv beta.
  eapply quiet_bind; [apply quiet_test|]. intros w2 Hfs2. cbv beta.
  eapply (quiet_bind _ _ 0%nat).
  { destruct (exists_ (fs w1) (resolve host mp)); cbn [negb].
    - eapply quiet_bind; [apply copy_mod_item_quiet; by rewrite Hfs2, Hfs1|].
      intros w3 _. cbv beta iota.
      eapply quiet_bind; [apply quiet_emit|]. intros; apply quiet_ret.
    - eapply quiet_bind; [apply quiet_emit|]. intros; apply quiet_ret. }
  intros w3 Hfs3. cbv beta.
  eapply quiet_bind; [apply quiet_test|]. intros w4 Hfs4. cbv beta.
  assert (E : fs w3 = fs w) by congruence. rewrite E.
  destruct (exists_ (fs w) (resolve host st)) eqn:He; cbn [negb].
  2:{ eapply quiet_bind; [apply quiet_emit|]. intros; apply quiet_ret. }
  eapply quiet_bind; [apply quiet_test|]. intros w5 Hfs5. cbv beta.
  assert (E4 : fs w4 = fs w) by congruence. rewrite E4.
  destruct (exists_ (fs w) (joinpath g (name (resolve host st)))) eqn:Hde;
    cbn [negb orb].
  { eapply quiet_bind; [apply quiet_emit|]. intros; apply quiet_ret. }
  destruct (Hs He) as [?|Hf]; [congruence|].
  assert (Hc : copy2 (fs w5) (resolve host st) (joinpath g (name (resolve host st)))
               = None).
  { destruct (copy2 _ _ _) eqn:Hc; [|done].
    apply copy2_needs_file in Hc. assert (fs w5 = fs w) as E5 by congruence.
    rewrite E5 in Hc. congruence. }
  unfold quiet, try_, bind, fs_op. rewrite Hc. unfold warn, emit, ret.
  eexists _, _. split; [reflexivity|]. split; [simpl; congruence|]. simpl.
  by rewrite app_nil_r.
Qed.

Lemma copy_library_mods_quiet host dst a b w :
  (truthy a = true → deployed (fs w) dst (resolve host (default "" a))) →
  (truthy b = true → deployed (fs w) dst (resolve host (default "" b))) →
  quiet (copy_library_mods host a b dst false) 0%nat [] w.
Proof.
  intros Ha Hb. unfold copy_library_mods. cbn [negb].
  eapply (quiet_bind _ _ 0%nat).
  { destruct (truthy a); [|apply quiet_ret].
    eapply quiet_bind; [apply quiet_emit|]. intros w1 Hfs1. cbv beta.
    eapply quiet_bind; [apply copy_mod_item_quiet; rewrite Hfs1; by apply Ha|].
    intros; apply quiet_ret. }
  intros w1 Hfs1. cbv beta. destruct (truthy b); [|apply quiet_ret].
  eapply quiet_bind; [apply quiet_emit|]. intros w2 Hfs2. cbv beta.
  eapply quiet_bind;
    [apply copy_mod_item_quiet; rewrite Hfs2, Hfs1; by apply Hb|].
  intros; apply quiet_ret.
Qed.

Lemma addon_stages_quiet host c g m w :
  resolve host (mods_dir c) = child g m → force_copy c = false →
  (∀ p, p ∈ addon_sources host c → deployed (fs w) (child g m) p) →
  (truthy (mp_mod c) && truthy (mp_starter c) = true →
   starter_placed (fs w) g (resolve host (default "" (mp_starter c)))) →
  quiet (addon_stages host c (truthy (mp_mod c) && truthy (mp_starter c))) 0%nat [] w.
Proof.
  intros Hm Hf Hd Hs. unfold addon_stages. rewrite Hm, Hf.
  unfold addon_sources in Hd.
  eapply (quiet_bind _ _ 0%nat).
  { apply copy_user_mods_quiet. intros e He. apply Hd.
    apply elem_of_app. left. apply list_elem_of_fmap. eauto. }
  intros w1 Hfs1. cbv beta.
  eapply (quiet_bind _ _ 0%nat).
  { destruct (truthy (mp_mod c) && truthy (mp_starter c)) eqn:Hmp; [|apply quiet_ret].
    apply copy_multiplayer_mods_quiet; rewrite Hfs1; [|by apply Hs].
    apply Hd. apply elem_of_app. right. apply elem_of_app. left. left. }
  intros w2 Hfs2. cbv beta.
  eapply (quiet_bind _ _ 0%nat); [|intros; apply quiet_ret].
  apply copy_library_mods_quiet; intros Ht; rewrite Hfs2, Hfs1; apply Hd; rewrite Ht.
  - apply elem_of_app. right. apply elem_of_app. right. apply elem_of_app. left. left.
  - apply elem_of_app. right. apply elem_of_app. right. apply elem_of_app. right. left.
Qed.

(** ** C1: copying the built mod a second time *)

Lemma copy2_again s src t s' :
  copy2 s src t = Some s' → unrelated t src → copy2 s' src t = Some s'.
Proof.
  intros H Hu. unfold copy2 in *.
  destruct (get s src) as [[tm d|]|] eqn:Hg; try done.
  set (t' := if is_dir s t then joinpath t (name src) else t) in *.
  destruct (decide (src = t')) as [|Hne]; [done|].
  destruct (is_dir s t') eqn:Ht'; [done|].
  assert (Hpre : t `prefix_of` t').
  { unfold t'. destruct (is_dir s t); [apply joinpath_prefix|done]. }
  assert (Hu' : unrelated t' src).
  { apply unrelated_sym. eapply unrelated_prefix_r; [by apply unrelated_sym|done]. }
  rewrite (put_frame _ _ _ _ _ H Hu'), Hg.
  assert (Hsame : (if is_dir s' t then joinpath t (name src) else t) = t').
  { unfold t'. destruct (is_dir s t) eqn:Ht.
    - destruct (decide (joinpath t (name src) = t)) as [E|E].
      + unfold t' in Ht'. rewrite ?Ht, E in Ht'. congruence.
      + unfold t' in H. rewrite ?Ht in H.
        destruct (put_ancestor _ _ _ _ t H (joinpath_prefix _ _)) as [_ ->]; [|done].
        by intros E'.
    - unfold t' in H. rewrite ?Ht in H.
      unfold is_dir. by rewrite (put_get _ _ _ _ H). }
  rewrite Hsame. destruct (decide (src = t')); [done|].
  unfold is_dir at 1. rewrite (put_get _ _ _ _ H).
  apply put_id; [by rewrite (put_get _ _ _ _ H)|].
  by apply put_Some_parent in H as [? _].
Qed.

Lemma replace_dir_again src t w w' :
  replace_dir src t w = (Val tt, w') → unrelated t src → is_dir (fs w) src = true →
  ∀ w2, fs w2 = fs w' → quiet (replace_dir src t) tt [] w2.
Proof.
  intros H Hu Hd w2 Hfs.
  pose proof H as (_ & Hc & Heff)%replace_dir_effect.
  destruct (Heff Hu Hd) as (_ & Hget & _). specialize (Hget eq_refl).
  apply is_dir_get in Hd as [ch Hsrc]. rewrite Hsrc in Hget.
  assert (Hsrc' : get (fs w') src = Some (Dir ch)).
  { rewrite <- Hsrc. by apply (confined_unrelated t). }
  assert (Hne : t ≠ []).
  { intros ->. destruct Hu as [Hu _]. apply Hu. by apply prefix_nil. }
  assert (Hex : exists_ (fs w') t = true) by (apply exists_get; rewrite Hget; eauto).
  destruct (remove_is_Some (fs w') t Hne Hex) as [s1 Hr].
  assert (Hpd : is_dir s1 (parent t) = true).
  { destruct (exists_last Hne) as (q & x & ->). unfold parent. rewrite removelast_last.
    apply (remove_ancestor _ _ _ q Hr); [by exists [x]|].
    intros E. apply (f_equal length) in E. rewrite length_app in E. simpl in E. lia. }
  unfold quiet, replace_dir. munfold. rewrite Hfs, Hex. simpl. rewrite Hfs.
  unfold rmtree, is_dir. rewrite Hget, Hr. simpl.
  unfold copytree. rewrite (remove_frame _ _ _ _ Hr Hu), Hsrc'.
  unfold exists_. rewrite (remove_get _ _ _ Hr), (mkdirs_id _ _ Hpd).
  rewrite (put_remove _ _ _ _ Hr), (put_id _ _ _ Hget Hne). simpl.
  eexists _, []. split; [reflexivity|]. split; [done|]. simpl. by rewrite app_nil_r.
Qed.

Lemma copy_item_again g m src w w' :
  unrelated g src → name src ≠ "" →
  copy_item src (child g m) w = (Val tt, w') →
  ∀ w2, fs w2 = fs w' → quiet (copy_item src (child g m)) tt [] w2.
Proof.
  intros Hu Hn H w2 Hfs.
  assert (Hut : unrelated (child (child g m) (name src)) src).
  { by apply target_away. }
  assert (Hkeep : get (fs w') src = get (fs w) src).
  { pose proof (eff_copy_item g m [] True ltac:(by intros ? ?%elem_of_nil) src w
                  ltac:(done) _ _ H) as (Hc & _).
    by apply (confined_unrelated g). }
  unfold copy_item in *. rewrite (joinpath_child _ _ Hn) in *.
  set (t := child (child g m) (name src)) in *.
  unfold bind at 1, info at 1, emit at 1 in H. set (w0 := World _ _ _) in H.
  unfold bind at 1, test at 1 in H.
  eapply quiet_bind; [apply quiet_emit|]. intros w3 Hfs3. cbv beta.
  eapply quiet_bind; [apply quiet_test|]. intros w4 Hfs4. cbv beta.
  assert (E : is_dir (fs w3) src = is_dir (fs w0) src).
  { apply is_dir_same. rewrite Hfs3, Hfs. exact Hkeep. }
  rewrite E. destruct (is_dir (fs w0) src) eqn:Hd.
  - eapply replace_dir_again; [exact H|done|done|congruence].
  - apply fs_op_inv in H as [(s' & Hc & _ & ->)|(_ & [=] & _)].
    apply copy2_again in Hc; [|done].
    assert (E4 : fs w4 = s') by (rewrite Hfs4, Hfs3, Hfs; done).
    unfold quiet, fs_op. rewrite E4, Hc.
    eexists _, []. split; [reflexivity|]. split; [done|]. simpl. by rewrite app_nil_r.
Qed.

(** ** C1: two runs in a row *)

Lemma check_pairing_val c w b w' :
  check_pairing c w = (Val b, w') →
  truthy (mp_mod c) = truthy (mp_starter c)
  ∧ b = truthy (mp_mod c) && truthy (mp_starter c) ∧ w' = w.
Proof.
  unfold check_pairing. munfold.
  destruct (truthy (mp_mod c)), (truthy (mp_starter c)); simpl; intros [= <- <-]; done.
Qed.

Lemma check_pairing_quiet c w :
  truthy (mp_mod c) = truthy (mp_starter c) →
  quiet (check_pairing c) (truthy (mp_mod c) && truthy (mp_starter c)) [] w.
Proof.
  intros E. unfold check_pairing. rewrite E.
  destruct (truthy (mp_starter c)); simpl; apply quiet_ret.
Qed.

Lemma summary_quiet n w :
  quiet (summary n) tt [Log LPrint (MSummary n); Log LPrint MCompleted] w.
Proof.
  unfold quiet, summary, print, bind, emit. eexists _, []. split; [reflexivity|].
  split; [done|]. simpl. by rewrite <- (assoc_L (++)).
Qed.

Section TwoRuns.
Variables (host : platform) (c : config) (g : path) (m : string).
Hypothesis mods_at : resolve host (mods_dir c) = child g m.
Hypothesis no_force : force_copy c = false.
Hypothesis no_clean : clean c = false.
Hypothesis srcs_away : ∀ p, p ∈ addon_sources host c → unrelated g p.
Hypothesis srcs_named : ∀ p, p ∈ addon_sources host c → name p ≠ "".
Hypothesis built_away : unrelated g (resolve host (target c)).
Hypothesis built_named : name (resolve host (target c)) ≠ "".
Hypothesis starter_away :
  truthy (mp_mod c) && truthy (mp_starter c) = true →
  unrelated g (resolve host (default "" (mp_starter c))).
Hypothesis wine_away :
  is_windows host = false → ¬ g `prefix_of` resolve host (wine_binary c).

Let srcs := addon_sources host c.
Let mp := truthy (mp_mod c) && truthy (mp_starter c).
Let K := deploys g m srcs True.

(** What a run that ended normally leaves for the next one. *)
Let J (s : node) : Prop :=
  truthy (mp_mod c) = truthy (mp_starter c)
  ∧ exists_ s (resolve host (target c)) = true
  ∧ (is_windows host = false → exists_ s (resolve host (wine_binary c)) = true)
  ∧ is_dir s (child g m) = true
  ∧ (∀ p, p ∈ srcs → deployed s (child g m) p)
  ∧ (mp = true → starter_placed s g (resolve host (default "" (mp_starter c))))
  ∧ (∀ w, fs w = s → quiet (copy_item (resolve host (target c)) (child g m)) tt [] w).

#[local] Instance two_runs_preorder : PreOrder K.
Proof. by apply deploys_preorder. Qed.

Lemma addon_stages_deploys w k w' :
  is_dir (fs w) (child g m) = true → (∀ p, p ∈ srcs → well_rooted (fs w) p) →
  addon_stages host c mp w = (Val k, w') →
  K (fs w) (fs w')
  ∧ (∀ p, p ∈ srcs → deployed (fs w') (child g m) p)
  ∧ (mp = true → starter_placed (fs w') g (resolve host (default "" (mp_starter c)))).
Proof.
  intros Hd Hw H. unfold addon_stages in H. rewrite mods_at, no_force in H.
  inv_bind H n1 w1 H1. inv_bind H n2 w2 H2. inv_bind H n3 w3 H3.
  apply ret_inv in H as [_ ->].
  apply (copy_user_mods_deploys g m srcs srcs_away srcs_named) in H1 as [HK1 Hd1];
    [| |by split].
  2:{ intros e He. unfold srcs, addon_sources. apply elem_of_app. left.
      apply list_elem_of_fmap. eauto. }
  pose proof (K_inv g m srcs srcs_away _ _ HK1 (conj Hd Hw)) as HI1.
  assert (H2' : K (fs w1) (fs w2)
          ∧ (mp = true →
             deployed (fs w2) (child g m) (resolve host (default "" (mp_mod c)))
             ∧ starter_placed (fs w2) g (resolve host (default "" (mp_starter c))))).
  { destruct mp eqn:Hmp.
    - apply (copy_multiplayer_mods_deploys host g m srcs srcs_away srcs_named) in H2
        as (HK2 & Hd2 & Hs2); [done| |by apply starter_away|done].
      unfold srcs, addon_sources. fold mp. rewrite Hmp.
      apply elem_of_app. right. apply elem_of_app. left. left.
    - apply ret_inv in H2 as [_ ->]. split; [reflexivity|done]. }
  destruct H2' as [HK2 Hd2].
  pose proof (K_inv g m srcs srcs_away _ _ HK2 HI1) as HI2.
  apply (copy_library_mods_deploys host g m srcs srcs_away srcs_named) in H3
    as (HK3 & Ha & Hb); [| | |done].
  2:{ intros Ht. unfold srcs, addon_sources. rewrite Ht.
      apply elem_of_app. right. apply elem_of_app. right. apply elem_of_app. left. left. }
  2:{ intros Ht. unfold srcs, addon_sources. rewrite Ht.
      apply elem_of_app. right. apply elem_of_app. right. apply elem_of_app. right. left. }
  split; [etrans; [exact HK1|]; etrans; [exact HK2|exact HK3]|]. split.
  - intros p Hp. pose proof (srcs_away p Hp) as Hu.
    unfold srcs, addon_sources in Hp. fold mp in Hp.
    apply elem_of_app in Hp as [Hp|Hp].
    { apply list_elem_of_fmap in Hp as (e & -> & He).
      apply (K_deployed g m srcs (fs w2)); [done|done|].
      apply (K_deployed g m srcs (fs w1)); [done|done|]. by apply Hd1. }
    apply elem_of_app in Hp as [Hp|Hp].
    { destruct mp eqn:Hmp; [|by apply elem_of_nil in Hp].
      apply list_elem_of_singleton in Hp as ->.
      apply (K_deployed g m srcs (fs w2)); [done|done|]. by apply Hd2. }
    apply elem_of_app in Hp as [Hp|Hp].
    { destruct (truthy (s1api_path c)) eqn:Ht; [|by apply elem_of_nil in Hp].
      apply list_elem_of_singleton in Hp as ->. by apply Ha. }
    destruct (truthy (unity_explorer_path c)) eqn:Ht; [|by apply elem_of_nil in Hp].
    apply list_elem_of_singleton in Hp as ->. by apply Hb.
  - intros Hmp. apply (K_starter g m srcs (fs w2)); [done|by apply starter_away|].
    by apply Hd2.
Qed.

Lemma main_tail_keeps total w r w' :
  (if no_launch c then info MSkipLaunch >> summary total
   else
     (if Qltb 0 (launch_delay c)
      then step (MWaitingLaunch (launch_delay c)) >> sleep (launch_delay c)
      else ret tt) >>
     let launch_args := if debug c then ["--melonloader.debug"] else [] in
     (if negb mp then
        launch_game (resolve host (exe_path c)) launch_args (negb (is_windows host))
                    (wine_binary c) (wine_prefix c) (parent (resolve host (exe_path c)))
      else
        step MLaunchingStarter >>
        let starter_path :=
          joinpath (parent (child g m))
                   (name (parse (default "" (mp_starter c)))) in
        if is_windows host then
          emit (Popen ("cmd" :: "/k" :: str_path starter_path :: launch_args)
                      (parent (child g m)) [])
        else emit (Popen [str_path starter_path] (parent (child g m)) [])) >>
     summary total) w = (r, w') →
  r = Val tt ∧ fs w' = fs w
  ∧ ∃ evs, log w' = log w ++ evs ++ [Log LPrint (MSummary total); Log LPrint MCompleted].
Proof.
  unfold summary, launch_game, info, step, print, sleep. munfold.
  destruct (no_launch c); simpl.
  { intros [= <- <-]. simpl. split; [done|]. split; [done|].
    eexists [_]. by rewrite <- !(assoc_L (++)). }
  destruct (Qltb 0 (launch_delay c)), (negb mp); simpl;
    try destruct (is_windows host); simpl;
    intros [= <- <-]; simpl; (split; [done|]); (split; [done|]);
    rewrite <- !(assoc_L (++)); simpl; eexists; f_equal;
    repeat (rewrite app_comm_cons || idtac);
    match goal with
    | |- ?l = ?evs ++ _ =>
        first [ instantiate (1 := [_]); reflexivity
              | instantiate (1 := [_; _]); reflexivity
              | instantiate (1 := [_; _; _]); reflexivity
              | instantiate (1 := [_; _; _; _]); reflexivity
              | instantiate (1 := [_; _; _; _; _]); reflexivity ]
    end.
Qed.

Lemma wine_check_inv w r w' :
  (if negb (is_windows host) then
     info MUsingConfig >>
     info (MBinary (wine_binary c)) >>
     info (MPrefix (default "(default)" (if truthy (wine_prefix c)
                                          then wine_prefix c else None))) >>
     let* be := test (λ s, exists_ s (resolve host (wine_binary c))) in
     if negb be then error (MBinaryNotFound (wine_binary c)) >> raise (Exit 1)
     else ret tt
   else ret tt) w = (Val r, w') →
  fs w' = fs w
  ∧ (is_windows host = false → exists_ (fs w) (resolve host (wine_binary c)) = true).
Proof.
  unfold info, error. munfold. destruct (is_windows host); simpl.
  { intros [= <- <-]. done. }
  destruct (exists_ (fs w) (resolve host (wine_binary c))); simpl; intros [= <- <-]; done.
Qed.

Lemma wine_check_quiet w :
  (is_windows host = false → exists_ (fs w) (resolve host (wine_binary c)) = true) →
  quiet (if negb (is_windows host) then
           info MUsingConfig >>
           info (MBinary (wine_binary c)) >>
           info (MPrefix (default "(default)" (if truthy (wine_prefix c)
                                                then wine_prefix c else None))) >>
           let* be := test (λ s, exists_ s (resolve host (wine_binary c))) in
           if negb be then error (MBinaryNotFound (wine_binary c)) >> raise (Exit 1)
           else ret tt
         else ret tt) tt [] w.
Proof.
  intros Hw. destruct (is_windows host); simpl; [apply quiet_ret|].
  unfold quiet, info, error. munfold. simpl. rewrite (Hw eq_refl). simpl.
  eexists _, [_; _; _]. split; [reflexivity|]. split; [done|]. simpl.
  by rewrite <- !(assoc_L (++)).
Qed.

(** A run that ends normally leaves every add-on deployed. *)
Lemma main_first_run w0 w1 :
  (∀ p, p ∈ srcs → well_rooted (fs w0) p) →
  main host c w0 = (Val tt, w1) → J (fs w1).
Proof.
  intros Hw H. unfold main in H. rewrite mods_at in H.
  unfold bind at 1, test at 1 in H.
  destruct (exists_ (fs w0) (resolve host (target c))) eqn:Hte; cbn [negb] in H.
  2:{ unfold bind, error, emit, raise in H. discriminate. }
  inv_bind H b wA H1. apply check_pairing_val in H1 as (Hpair & -> & ->).
  inv_bind H ua wB H2. apply wine_check_inv in H2 as [HfsB Hwine].
  inv_bind H ub wC H3.
  assert (HK3 : K (fs wB) (fs wC)).
  { by apply (eff_ensure_dir g m srcs True srcs_away wB _ _ H3). }
  assert (HdC : is_dir (fs wC) (child g m) = true).
  { unfold ensure_dir in H3.
    apply fs_op_inv in H3 as [(s' & Hm & _ & ->)|(_ & [=] & _)]. simpl.
    by apply (mkdirs_dir _ _ _ _ Hm). }
  inv_bind H uc wD H4.
  pose proof (eff_kill_processes host _ _ _ _ _ _ H4) as HfsD.
  rewrite no_clean in H. inv_bind H ud wE H5. apply ret_inv in H5 as [_ ->].
  inv_bind H ncopied wF H6.
  apply main_tail_keeps in H as (_ & Hfs1 & _).
  apply copy_stages_inv in H6 as (k & wG & Hadd & _ & Hitem).
  rewrite mods_at in Hitem.
  assert (HwD : ∀ p, p ∈ srcs → well_rooted (fs wD) p).
  { intros p Hp. apply (well_rooted_same (fs w0)); [|by apply Hw].
    rewrite <- HfsD, <- HfsB. apply (K_get g m srcs _ _ _ HK3). by apply srcs_away. }
  apply addon_stages_deploys in Hadd as (HKG & HdG & HsG); [|by rewrite <- HfsD|done].
  set (wG' := World _ _ _) in Hitem.
  assert (HKF : K (fs wG) (fs wF)).
  { by apply (eff_copy_item g m srcs True srcs_away (resolve host (target c)) wG'
                ltac:(done) _ _ Hitem). }
  assert (HK : K (fs w0) (fs wF)).
  { rewrite <- HfsB. etrans; [exact HK3|]. rewrite HfsD. by etrans. }
  rewrite Hfs1. unfold J. split; [done|]. split.
  { rewrite <- Hte. apply exists_same. by apply (K_get g m srcs). }
  split.
  { intros Hnw. destruct HK as [Hc _].
    apply (confined_exists g (fs w0)); [done|by apply wine_away|by apply Hwine]. }
  split.
  { apply (K_is_dir g m srcs (fs wG)); [done|].
    apply (K_is_dir g m srcs (fs wD)); [done|]. by rewrite <- HfsD. }
  split.
  { intros p Hp. apply (K_deployed g m srcs (fs wG)); [done|by apply srcs_away|].
    by apply HdG. }
  split.
  { intros Hmp. apply (K_starter g m srcs (fs wG)); [done|by apply starter_away|].
    by apply HsG. }
  intros w Hfs. by apply (copy_item_again g m _ wG' wF).
Qed.

(** A run that finds every add-on deployed leaves the file system as it is
    and reports one item copied, the built mod. *)
Lemma main_quiet w :
  J (fs w) →
  quiet (main host c) tt [Log LPrint (MSummary 1); Log LPrint MCompleted] w.
Proof.
  intros (Hpair & Hte & Hwine & Hdir & Hdep & Hst & Hitem).
  unfold main. rewrite mods_at.
  eapply quiet_bind; [apply quiet_test|]. intros w1 Hfs1. cbv beta.
  rewrite Hte. cbn [negb].
  eapply quiet_bind; [by apply check_pairing_quiet|]. intros w2 Hfs2. cbv beta.
  eapply quiet_bind; [apply wine_check_quiet; by rewrite Hfs2, Hfs1|].
  intros w3 Hfs3. cbv beta.
  assert (E3 : fs w3 = fs w) by congruence.
  eapply (quiet_bind _ _ tt tt []).
  { assert (Hd3 : is_dir (fs w3) (child g m) = true) by (by rewrite E3).
    unfold quiet, ensure_dir, fs_op, mkdir_p. rewrite (mkdirs_id _ _ Hd3).
    eexists _, []. split; [reflexivity|]. split; [done|]. simpl. by rewrite app_nil_r. }
  intros w4 Hfs4. cbv beta.
  eapply quiet_bind; [apply kill_processes_quiet|]. intros w5 Hfs5. cbv beta.
  rewrite no_clean.
  eapply quiet_bind; [apply quiet_ret|]. intros w6 Hfs6. cbv beta.
  assert (E6 : fs w6 = fs w) by congruence.
  eapply (quiet_bind _ _ 1%nat tt []).
  { unfold copy_stages.
    eapply (quiet_bind _ _ 0%nat).
    { apply (addon_stages_quiet host c g m);
        [done|done|rewrite E6; apply Hdep|rewrite E6; apply Hst]. }
    intros w7 Hfs7. cbv beta.
    eapply quiet_bind; [apply quiet_emit|]. intros w8 Hfs8. cbv beta.
    rewrite mods_at.
    eapply quiet_bind; [apply Hitem; congruence|]. intros; apply quiet_ret. }
  intros w7 Hfs7. cbv beta.
  unfold quiet.
  match goal with |- ∃ w' evs, ?t w7 = _ ∧ _ =>
    destruct (t w7) as [r w'] eqn:Ht end.
  apply main_tail_keeps in Ht as (-> & Hfs' & evs & Hlog).
  exists w', evs. done.
Qed.

End TwoRuns.

(** C1, as the code has it -- Take a configuration without [force_copy] and
    without [clean], whose mods directory is [g/m], whose add-ons, built mod
    and multiplayer starter lie outside the game directory [g] (and the Wine
    binary not inside it), and whose structured add-ons each have a "Mods"
    sub-root with at least one entry.  If a run ends normally, then a second
    run started in the world it leaves also ends normally, leaves the whole
    file system as the first run left it, and ends by reporting one item
    copied: every add-on that exists counts as deployed, the add-on stages
    copy nothing and return the count zero, and the built mod is copied
    again over itself. *)
Theorem second_run_copies_only_built_mod
    (host : platform) (c : config) (g : path) (m : string) (w0 w1 : world) :
  force_copy c = false → clean c = false →
  resolve host (mods_dir c) = child g m →
  (∀ p, p ∈ addon_sources host c →
        unrelated g p ∧ name p ≠ "" ∧ well_rooted (fs w0) p) →
  unrelated g (resolve host (target c)) →
  name (resolve host (target c)) ≠ "" →
  (truthy (mp_mod c) && truthy (mp_starter c) = true →
   unrelated g (resolve host (default "" (mp_starter c)))) →
  (is_windows host = false → ¬ g `prefix_of` resolve host (wine_binary c)) →
  main host c w0 = (Val tt, w1) →
  (∃ w2 evs,
     main host c w1 = (Val tt, w2) ∧ fs w2 = fs w1
     ∧ log w2 = log w1 ++ evs ++ [Log LPrint (MSummary 1); Log LPrint MCompleted])
  ∧ (∀ p, p ∈ addon_sources host c → deployed (fs w1) (child g m) p)
  ∧ (∀ w, fs w = fs w1 →
       ∃ w', addon_stages host c (truthy (mp_mod c) && truthy (mp_starter c)) w
             = (Val 0%nat, w')
             ∧ fs w' = fs w1)
  ∧ (∀ w, fs w = fs w1 →
       ∃ w', copy_item (resolve host (target c)) (child g m) w = (Val tt, w')
             ∧ fs w' = fs w1).
Proof.
  intros Hforce Hclean Hmods Hsrcs Htgt Hnamed Hst Hwine Hrun.
  pose proof (main_first_run host c g m Hmods Hforce Hclean
                (λ p Hp, proj1 (Hsrcs p Hp))
                (λ p Hp, proj1 (proj2 (Hsrcs p Hp)))
                Htgt Hnamed Hst Hwine w0 w1
                (λ p Hp, proj2 (proj2 (Hsrcs p Hp))) Hrun) as HJ.
  pose proof (main_quiet host c g m Hmods Hforce Hclean Hwine w1 HJ)
    as (w2 & evs & H2 & Hfs2 & Hlog2).
  destruct HJ as (Hpair & Hte & Hwb & Hdir & Hdep & Hstp & Hitem).
  split; [by exists w2, evs|]. split; [done|]. split.
  - intros w Hfs.
    destruct (addon_stages_quiet host c g m w Hmods Hforce) as (w' & _ & H & Hfs' & _).
    + intros p Hp. rewrite Hfs. by apply Hdep.
    + intros Hmp. rewrite Hfs. by apply Hstp.
    + exists w'. split; [done|congruence].
  - intros w Hfs. destruct (Hitem w Hfs) as (w' & _ & H & Hfs' & _).
    exists w'. split; [done|congruence].
Qed.

Lemma second_run_copies_only_built_mod_witness :
  let c := cfg_with_mods ["extras/AddonA"] false in
  let w1 := (main host_idle c (world_of fs_with_addons)).2 in
  (∃ w2 evs,
     main host_idle c w1 = (Val tt, w2) ∧ fs w2 = fs w1
     ∧ log w2 = log w1 ++ evs ++ [Log LPrint (MSummary 1); Log LPrint MCompleted])
  ∧ (∀ p, p ∈ addon_sources host_idle c → deployed (fs w1) (child ["game"] "Mods") p)
  ∧ (∀ w, fs w = fs w1 →
       ∃ w', addon_stages host_idle c (truthy (mp_mod c) && truthy (mp_starter c)) w
             = (Val 0%nat, w')
             ∧ fs w' = fs w1)
  ∧ (∀ w, fs w = fs w1 →
       ∃ w', copy_item (resolve host_idle (target c)) (child ["game"] "Mods") w
             = (Val tt, w')
             ∧ fs w' = fs w1).
Proof.
  intros c w1.
  apply (second_run_copies_only_built_mod host_idle c ["game"] "Mods"
           (world_of fs_with_addons) w1).
  - reflexivity.
  - reflexivity.
  - reflexivity.
  - intros p Hp. vm_compute in Hp. apply list_elem_of_singleton in Hp as ->.
    split; [|split].
    + split; intros [k Hk]; vm_compute in Hk; discriminate Hk.
    + vm_compute. discriminate.
    + intros _ _. exists ["proj"; "extras"; "AddonA"; "Mods"].
      split; [vm_compute; reflexivity|vm_compute; discriminate].
  - split; intros [k Hk]; vm_compute in Hk; discriminate Hk.
  - vm_compute. discriminate.
  - vm_compute. discriminate.
  - intros _ [k Hk]. vm_compute in Hk. discriminate Hk.
  - vm_compute. reflexivity.
Defined.

(** C1, as stated, fails for a structured add-on with no "Mods" sub-root:
    without [force_copy], both runs end normally and the second leaves the
    tree as the first did, but it copies the add-on again and reports two
    items copied. *)
Lemma second_run_copies_plugins_again :
  let c := cfg_with_mods ["extras/AddonP"] false in
  let run1 := main host_idle c (world_of fs_with_addons) in
  let run2 := main host_idle c run1.2 in
  force_copy c = false
  ∧ run1.1 = Val tt ∧ run2.1 = Val tt
  ∧ fs run2.2 = fs run1.2
  ∧ drop (length (log run1.2)) (log run2.2)
    = [Log LInfo MUsingConfig; Log LInfo (MBinary "/usr/bin/wine");
       Log LInfo (MPrefix "(default)");
       Log LStep (MTerminating "Game.exe");
       Exec ["which"; "wineserver"] [];
       Exec ["pkill"; "-f"; "Game.exe"] [];
       Exec ["pgrep"; "-a"; "-f"; "Game.exe"] [];
       Log LOk (MStopped "Game.exe"); Log LStep MCopyingRequested;
       Log LInfo (MCopyingStructured "AddonP");
       Log LInfo (MCopyingStructure "AddonP"); Log LStep MCopyingBuilt;
       Log LInfo (MCopying "MyMod.dll" ["game"; "Mods"]);
       Log LInfo MSkipLaunch; Log LPrint (MSummary 2);
       Log LPrint MCompleted].
Proof. vm_compute. repeat split; reflexivity. Qed.

(* ===================================================================== *)
(** * Part III: further properties of the orchestrator *)
(* ===================================================================== *)

(** ** Making and cleaning the mods directory *)

(** X1 -- [ensure_dir] ([mkdir -p]) succeeds exactly when no component on
    the way to the directory is a regular file.  When it succeeds the path
    is a directory afterwards, nothing that existed is lost, nothing outside
    the path is touched, and a directory that was already there leaves the
    file system as it is; when it fails nothing is changed. *)
Theorem ensure_dir_creates_or_fails (p : path) (w : world) :
  ((∀ q, q `prefix_of` p → is_file (fs w) q = false)
   ↔ ∃ w', ensure_dir p w = (Val tt, w'))
  ∧ (∀ r w', ensure_dir p w = (r, w') →
       now w' = now w ∧ log w' = log w
       ∧ ((r = Val tt ∧ is_dir (fs w') p = true
           ∧ grows (fs w) (fs w') ∧ confined p (fs w) (fs w')
           ∧ (is_dir (fs w) p = true → fs w' = fs w))
          ∨ (r = Exc OSError ∧ w' = w
             ∧ ¬ ∀ q, q `prefix_of` p → is_file (fs w) q = false))).
Proof.
  unfold ensure_dir, fs_op, mkdir_p. split.
  - split.
    + intros H. destruct (mkdirs_is_Some (fs w) p H) as [s' ->]. eauto.
    + intros [w' H] q Hq. destruct (mkdirs (fs w) p) as [s'|] eqn:Hm; [|done].
      by eapply mkdirs_Some_inv.
  - intros r w' H. destruct (mkdirs (fs w) p) as [s'|] eqn:Hm; injection H as <- <-.
    + simpl. split; [done|]. split; [done|]. left. split; [done|].
      split; [by eapply mkdirs_dir|]. split; [by eapply mkdirs_grows|].
      split; [by eapply confined_mkdirs|].
      intros Hd. rewrite (mkdirs_id _ _ Hd) in Hm. by injection Hm.
    + split; [done|]. split; [done|]. right. split; [done|]. split; [done|].
      intros H. destruct (mkdirs_is_Some (fs w) p H) as [s' E]. congruence.
Qed.

Lemma remove_child s p n ch :
  get s p = Some (Dir ch) → is_Some (ch !! n) →
  ∃ s', remove s (child p n) = Some s' ∧ get s' p = Some (Dir (delete n ch)).
Proof.
  unfold child. revert s. induction p as [|x p IH]; intros s Hg [v Hv].
  - simpl in Hg. injection Hg as ->. simpl. rewrite Hv. eauto.
  - simpl in Hg. destruct s as [|ch0]; [done|].
    destruct (ch0 !! x) as [c|] eqn:Hx; [|done].
    destruct (IH c Hg (ex_intro _ v Hv)) as (c' & Hr & Hg').
    assert (E : (x :: p) ++ [n] = x :: (p ++ [n])) by done. rewrite E.
    destruct (p ++ [n]) as [|y t] eqn:Ep; [by destruct p|].
    rewrite remove_cons_cons, Hx, Hr. eexists. split; [done|].
    simpl. by rewrite lookup_insert_eq.
Qed.

Lemma remove_entry_spec s p n ch w :
  fs w = s → get s p = Some (Dir ch) → is_Some (ch !! n) →
  ∃ s', remove_entry (child p n) w = (Val tt, World s' (now w) (log w))
        ∧ get s' p = Some (Dir (delete n ch))
        ∧ confined (child p n) s s'.
Proof.
  intros <- Hg Hn. destruct (remove_child (fs w) p n ch Hg Hn) as (s' & Hr & Hg').
  exists s'. split; [|split; [done|by eapply confined_remove]].
  assert (He : exists_ (fs w) (child p n) = true).
  { apply exists_get. rewrite (get_child _ _ _ _ Hg). done. }
  unfold remove_entry, try_, bind, test, fs_op, rmtree, unlink. cbv beta.
  rewrite exists_is_dir_or_file in He.
  destruct (is_dir (fs w) (child p n)) eqn:Hd.
  - cbv beta iota. rewrite ?Hd, Hr. reflexivity.
  - simpl in He. cbv beta iota. rewrite ?He, Hr. reflexivity.
Qed.

Lemma remove_entries_spec p l : ∀ ch w,
  NoDup l → get (fs w) p = Some (Dir ch) → (∀ n, n ∈ l → is_Some (ch !! n)) →
  ∃ s' ch',
    for_each (child p <$> l) remove_entry w = (Val tt, World s' (now w) (log w))
    ∧ get s' p = Some (Dir ch')
    ∧ (∀ k, ch' !! k = if decide (k ∈ l) then None else ch !! k)
    ∧ inside p (fs w) s'.
Proof.
  induction l as [|n l IH]; intros ch w Hnd Hg Hl.
  - exists (fs w), ch. simpl. unfold ret. rewrite world_eta.
    split; [done|]. split; [done|]. split; [|apply inside_refl].
    intros k. destruct (decide (k ∈ [])) as [H|_]; [by apply elem_of_nil in H|done].
  - apply NoDup_cons in Hnd as [Hn Hnd].
    destruct (remove_entry_spec (fs w) p n ch w eq_refl Hg (Hl n ltac:(by left)))
      as (s1 & H1 & Hg1 & Hc1).
    set (w1 := World s1 (now w) (log w)).
    destruct (IH (delete n ch) w1 Hnd Hg1) as (s' & ch' & H2 & Hg2 & Hk & Hin).
    { intros k Hkl. rewrite lookup_delete_ne by (intros ->; done).
      apply Hl. by right. }
    exists s', ch'. split.
    { rewrite fmap_cons. cbn [for_each]. unfold bind. rewrite H1. exact H2. }
    split; [done|]. split.
    + intros k. rewrite Hk.
      destruct (decide (k ∈ l)) as [Hkl|Hkl], (decide (k ∈ n :: l)) as [Hkn|Hkn];
        try done.
      * exfalso. apply Hkn. by right.
      * apply elem_of_cons in Hkn as [->|?]; [|done]. by rewrite lookup_delete_eq.
      * rewrite lookup_delete_ne; [done|]. intros ->. apply Hkn. by left.
    + eapply inside_trans; [|exact Hin]. by eapply confined_child_inside.
Qed.

(** X2 -- [clean_mods_dir] on a path that does not exist only reports it;
    on a directory it removes every entry, files and subdirectories alike:
    the directory is still there and empty afterwards, nothing that is not
    strictly inside it is touched, and no warning is logged. *)
Theorem clean_mods_dir_empties (p : path) (w : world) :
  (exists_ (fs w) p = false →
   clean_mods_dir p w
   = (Val tt, World (fs w) (now w)
                    (log w ++ [Log LStep MCleaning; Log LInfo MModsDirMissing])))
  ∧ (is_dir (fs w) p = true →
     ∃ s', clean_mods_dir p w
           = (Val tt, World s' (now w)
                            (log w ++ [Log LStep MCleaning; Log LOk MCleaned]))
           ∧ is_dir s' p = true ∧ listdir s' p = [] ∧ inside p (fs w) s').
Proof.
  split.
  - intros He. unfold clean_mods_dir. munfold. simpl. rewrite He. simpl.
    by rewrite <- (assoc_L (++)).
  - intros Hd. pose proof Hd as [ch Hg]%is_dir_get.
    set (w0 := World (fs w) (now w) (log w ++ [Log LStep MCleaning])).
    destruct (remove_entries_spec p (listdir (fs w) p) ch w0) as (s' & ch' & H & Hg' & Hk & Hin).
    { apply listdir_NoDup. }
    { done. }
    { intros n Hn. by apply (listdir_elem (fs w) p ch n Hg). }
    exists s'. split; [|split; [|split; [|done]]].
    + change (clean_mods_dir p)
        with (step MCleaning >>
              let* e := test (λ s, exists_ s p) in
              if negb e then info MModsDirMissing
              else (let* items := test (λ s, iterdir s p) in
                    for_each items remove_entry) >> ok MCleaned).
      unfold step, ok, info. munfold. cbn [fs now log].
      rewrite (is_dir_exists _ _ Hd). cbn [negb]. unfold iterdir.
      unfold w0 in H. cbn [fs now log] in H |- *. rewrite H. cbn [fs now log].
      by rewrite <- (assoc_L (++)).
    + apply is_dir_get. eauto.
    + assert (ch' = ∅) as ->.
      { apply map_eq. intros k. rewrite Hk, lookup_empty.
        destruct (decide (k ∈ listdir (fs w) p)) as [|Hnk]; [done|].
        destruct (ch !! k) eqn:E; [|done]. exfalso. apply Hnk.
        apply (listdir_elem (fs w) p ch k Hg). eauto. }
      unfold listdir. rewrite Hg'. by rewrite map_to_list_empty.
Qed.

(** ** What a computation logs *)

Section Adds.
Context (P : event → Prop).

Lemma adds_ret {A} (a : A) w : adds P (ret a) w.
Proof. intros r w' [= <- <-]. exists []. by rewrite app_nil_r. Qed.

Lemma adds_raise {A} e w : adds P (@raise A e) w.
Proof. intros r w' [= <- <-]. exists []. by rewrite app_nil_r. Qed.

Lemma adds_test {A} (f : node → A) w : adds P (test f) w.
Proof. intros r w' [= <- <-]. exists []. by rewrite app_nil_r. Qed.

Lemma adds_time w : adds P time_ w.
Proof. intros r w' [= <- <-]. exists []. by rewrite app_nil_r. Qed.

Lemma adds_fs_op f w : adds P (fs_op f) w.
Proof.
  intros r w' H. unfold fs_op in H.
  destruct (f (fs w)); injection H as <- <-; exists []; by rewrite app_nil_r.
Qed.

Lemma adds_emit e w : P e → adds P (emit e) w.
Proof. intros He r w' [= <- <-]. exists [e]. split; [done|]. by constructor. Qed.

Lemma adds_sleep d w : P (Slept d) → adds P (sleep d) w.
Proof. intros He r w' [= <- <-]. exists [Slept d]. split; [done|]. by constructor. Qed.

Lemma adds_bind {A B} (m : M A) (k : A → M B) w :
  adds P m w → (∀ a w1, adds P (k a) w1) → adds P (bind m k) w.
Proof.
  intros Hm Hk r w' H. unfold bind in H.
  destruct (m w) as [[a|e] w1] eqn:E.
  - destruct (Hm _ _ E) as (evs1 & Hl1 & HP1).
    destruct (Hk a w1 _ _ H) as (evs2 & Hl2 & HP2).
    exists (evs1 ++ evs2). split; [by rewrite Hl2, Hl1, (assoc_L (++))|].
    by apply Forall_app.
  - injection H as <- <-. by apply (Hm _ _ E).
Qed.

Lemma adds_try {A} (m h : M A) w :
  adds P m w → (∀ w1, adds P h w1) → adds P (try_ m h) w.
Proof.
  intros Hm Hh r w' H. unfold try_ in H.
  destruct (m w) as [[a|e] w1] eqn:E.
  - injection H as <- <-. by apply (Hm _ _ E).
  - destruct (Hm _ _ E) as (evs1 & Hl1 & HP1).
    destruct (Hh w1 _ _ H) as (evs2 & Hl2 & HP2).
    exists (evs1 ++ evs2). split; [by rewrite Hl2, Hl1, (assoc_L (++))|].
    by apply Forall_app.
Qed.

Lemma adds_for_each {A} (l : list A) (body : A → M unit) w :
  (∀ x w1, adds P (body x) w1) → adds P (for_each l body) w.
Proof.
  intros Hb. revert w. induction l as [|x l IH]; intros w; [apply adds_ret|].
  simpl. apply adds_bind; [apply Hb|]. intros _ w1. apply IH.
Qed.

Lemma adds_count_each {A} (l : list A) (body : A → M bool) acc w :
  (∀ x w1, adds P (body x) w1) → adds P (count_each l body acc) w.
Proof.
  intros Hb. revert acc w. induction l as [|x l IH]; intros acc w; [apply adds_ret|].
  simpl. apply adds_bind; [apply Hb|]. intros b w1. apply IH.
Qed.

End Adds.

Lemma adds_impl {A} (P Q : event → Prop) (m : M A) w :
  (∀ e, P e → Q e) → adds P m w → adds Q m w.
Proof.
  intros HPQ Hm r w' H. destruct (Hm _ _ H) as (evs & Hl & HP).
  exists evs. split; [done|]. by eapply Forall_impl.
Qed.

(** One step of a proof that a computation only logs events of a kind. *)
Ltac adds_step :=
  lazymatch goal with
  | |- adds _ (bind _ _) _ => apply adds_bind; [|intros ? ?]
  | |- adds _ (ret _) _ => apply adds_ret
  | |- adds _ (raise _) _ => apply adds_raise
  | |- adds _ (test _) _ => apply adds_test
  | |- adds _ time_ _ => apply adds_time
  | |- adds _ (fs_op _) _ => apply adds_fs_op
  | |- adds _ (emit _) _ => apply adds_emit; auto
  | |- adds _ (sleep _) _ => apply adds_sleep; auto
  | |- adds _ (try_ _ _) _ => apply adds_try; [|intros ?]
  | |- adds _ (for_each _ _) _ => apply adds_for_each; intros ? ?
  | |- adds _ (count_each _ _ _) _ => apply adds_count_each; intros ? ?
  | |- adds _ (if ?b then _ else _) _ => destruct b
  | |- adds _ (match ?x with Some _ => _ | None => _ end) _ => destruct x
  end.

Ltac adds_solve :=
  unfold info, warn, error, ok, step, print, run; repeat adds_step.

(** The copy operations only log messages: they run no command, launch
    nothing and never sleep. *)
Section CopyLogs.
Context (P : event → Prop) (P_log : ∀ l m, P (Log l m)).

Lemma adds_replace_dir src t w : adds P (replace_dir src t) w.
Proof. unfold replace_dir. adds_solve. Qed.

Lemma adds_copy_item src dst w : adds P (copy_item src dst) w.
Proof. unfold copy_item. adds_solve. apply adds_replace_dir. Qed.

Lemma adds_copy_entry dst item w : adds P (copy_entry dst item) w.
Proof. unfold copy_entry. adds_solve. apply adds_replace_dir. Qed.

Lemma adds_copy_structured_mod p dst w : adds P (copy_structured_mod p dst) w.
Proof. unfold copy_structured_mod. adds_solve; apply adds_copy_entry. Qed.

Lemma adds_copy_mod_item p dst skip ts w : adds P (copy_mod_item p dst skip ts) w.
Proof.
  unfold copy_mod_item. adds_solve;
    first [apply adds_copy_structured_mod | apply adds_replace_dir].
Qed.

Lemma adds_clean_mods_dir p w : adds P (clean_mods_dir p) w.
Proof. unfold clean_mods_dir. adds_solve. Qed.

Lemma adds_ensure_dir p w : adds P (ensure_dir p) w.
Proof. unfold ensure_dir. adds_solve. Qed.

Lemma adds_collect_valid base l valid w : adds P (collect_valid base l valid) w.
Proof.
  revert valid w. induction l as [|e l IH]; intros valid w; simpl; adds_solve; apply IH.
Qed.

Lemma adds_copy_user_mods l base dst force ts w :
  adds P (copy_user_mods l base dst force ts) w.
Proof.
  unfold copy_user_mods. destruct l; adds_solve;
    first [apply adds_collect_valid | apply adds_copy_mod_item].
Qed.

Lemma adds_copy_multiplayer_mods host mp st dst force w :
  adds P (copy_multiplayer_mods host mp st dst force) w.
Proof. unfold copy_multiplayer_mods. adds_solve; apply adds_copy_mod_item. Qed.

Lemma adds_copy_library_mods host a b dst force w :
  adds P (copy_library_mods host a b dst force) w.
Proof. unfold copy_library_mods. adds_solve; apply adds_copy_mod_item. Qed.

Lemma adds_addon_stages host c mp w : adds P (addon_stages host c mp) w.
Proof.
  unfold addon_stages. adds_solve;
    first [apply adds_copy_user_mods | apply adds_copy_multiplayer_mods
          | apply adds_copy_library_mods].
Qed.

Lemma adds_copy_stages host c mp w : adds P (copy_stages host c mp) w.
Proof.
  unfold copy_stages. adds_solve;
    first [apply adds_addon_stages | apply adds_copy_item].
Qed.

Lemma adds_check_pairing c w : adds P (check_pairing c) w.
Proof. unfold check_pairing. adds_solve. Qed.

Lemma adds_summary n w : adds P (summary n) w.
Proof. unfold summary. adds_solve. Qed.

End CopyLogs.

(** ** What the process control logs *)

Section ProcessLogs.
Context (P : event → Prop) (P_log : ∀ l m, P (Log l m))
        (P_exec : ∀ cmd env, P (Exec cmd env)) (P_slept : ∀ d, P (Slept d)).
Variable host : platform.

Lemma adds_find_wineserver prefix w : adds P (find_wineserver host prefix) w.
Proof. unfold find_wineserver. cbv zeta. adds_solve. Qed.

Lemma adds_is_running exe w : adds P (is_running host exe) w.
Proof. unfold is_running. adds_solve. Qed.

Lemma adds_wait_loop fuel exe deadline w : adds P (wait_loop host fuel exe deadline) w.
Proof.
  revert w. induction fuel as [|f IH]; intros w; simpl; adds_solve;
    first [apply adds_is_running | apply IH].
Qed.

Lemma adds_wait_for_exit exe wait w : adds P (wait_for_exit host exe wait) w.
Proof. unfold wait_for_exit. cbv zeta. adds_solve. apply adds_wait_loop. Qed.

Lemma adds_kill_processes exe wait prefix w :
  adds P (kill_processes host exe wait prefix) w.
Proof.
  unfold kill_processes. adds_solve;
    first [apply adds_find_wineserver | apply adds_wait_for_exit].
Qed.

End ProcessLogs.

Lemma logs_bind {A B} (P : event → Prop) (Q : res B → list event → Prop)
    (m : M A) (k : A → M B) w :
  adds P m w →
  (∀ e evs, Forall P evs → Q (Exc e) evs) →
  (∀ r evs1 evs2, Forall P evs1 → Q r evs2 → Q r (evs1 ++ evs2)) →
  (∀ a w1, logs Q (k a) w1) →
  logs Q (bind m k) w.
Proof.
  intros Hm Hexc Hpre Hk r w' H. unfold bind in H.
  destruct (m w) as [[a|e] w1] eqn:E; destruct (Hm _ _ E) as (evs1 & Hl1 & HP1).
  - destruct (Hk a w1 _ _ H) as (evs2 & Hl2 & HQ).
    exists (evs1 ++ evs2). split; [by rewrite Hl2, Hl1, (assoc_L (++))|]. by apply Hpre.
  - injection H as <- <-. exists evs1. split; [done|]. by apply Hexc.
Qed.

Lemma logs_of_adds {A} (P : event → Prop) (Q : res A → list event → Prop)
    (m : M A) w :
  adds P m w → (∀ r evs, Forall P evs → Q r evs) → logs Q m w.
Proof.
  intros Hm HQ r w' H. destruct (Hm _ _ H) as (evs & Hl & HP). exists evs. auto.
Qed.

Lemma launch_outcome_exc c e evs :
  Forall (λ e, ¬ launches e) evs → launch_outcome c (Exc e) evs.
Proof. intros H. right. split; [by left|done]. Qed.

Lemma launch_outcome_pre c r evs1 evs2 :
  Forall (λ e, ¬ launches e) evs1 → launch_outcome c r evs2 →
  launch_outcome c r (evs1 ++ evs2).
Proof.
  intros H1 [(-> & Hn & pre & cmd & dir & env & n & -> & Hp)|[Hr H2]].
  - left. split; [done|]. split; [done|]. exists (evs1 ++ pre), cmd, dir, env, n.
    split; [by rewrite (assoc_L (++))|]. by apply Forall_app.
  - right. split; [done|]. by apply Forall_app.
Qed.

Lemma not_launch_log l m : ¬ launches (Log l m).
Proof. by intros []. Qed.

Lemma not_launch_exec cmd env : ¬ launches (Exec cmd env).
Proof. by intros []. Qed.

Lemma not_launch_slept d : ¬ launches (Slept d).
Proof. by intros []. Qed.

Lemma main_launch_outcome host c w : logs (launch_outcome c) (main host c) w.
Proof.
  set (P := λ e, ¬ launches e).
  assert (P_log : ∀ l m, P (Log l m)) by apply not_launch_log.
  assert (P_exec : ∀ cmd env, P (Exec cmd env)) by apply not_launch_exec.
  assert (P_slept : ∀ d, P (Slept d)) by apply not_launch_slept.
  assert (Hstop : ∀ (m : M unit) w1,
            adds P m w1 → (∀ w2 w3, m w2 ≠ (Val tt, w3)) →
            logs (launch_outcome c) m w1).
  { intros m w1 Hm Hne r w' H. destruct (Hm _ _ H) as (evs & Hl & HP).
    exists evs. split; [done|]. right. split; [|done]. left. intros ->. by eapply Hne. }
  unfold main. cbv zeta.
  apply (logs_bind P); [apply adds_test|apply launch_outcome_exc
                       |apply launch_outcome_pre|].
  intros te w1. destruct (negb te).
  { apply Hstop; [unfold error; adds_solve|]. intros w2 w3. by munfold. }
  apply (logs_bind P); [by apply adds_check_pairing|apply launch_outcome_exc
                       |apply launch_outcome_pre|].
  intros mp w2.
  apply (logs_bind P); [|apply launch_outcome_exc|apply launch_outcome_pre|].
  { adds_solve. }
  intros _ w3.
  apply (logs_bind P); [by apply adds_ensure_dir|apply launch_outcome_exc
                       |apply launch_outcome_pre|].
  intros _ w4.
  apply (logs_bind P); [by apply adds_kill_processes|apply launch_outcome_exc
                       |apply launch_outcome_pre|].
  intros _ w5.
  apply (logs_bind P); [|apply launch_outcome_exc|apply launch_outcome_pre|].
  { destruct (clean c); [by apply adds_clean_mods_dir|apply adds_ret]. }
  intros _ w6.
  apply (logs_bind P); [by apply adds_copy_stages|apply launch_outcome_exc
                       |apply launch_outcome_pre|].
  intros n w7.
  destruct (no_launch c) eqn:Hnl.
  { apply (logs_of_adds P).
    - adds_solve. by apply adds_summary.
    - intros r evs HP. right. split; [by right|done]. }
  apply (logs_bind P); [|apply launch_outcome_exc|apply launch_outcome_pre|].
  { adds_solve. }
  intros _ w8 r w' H.
  assert (Hl : ∃ ev1 cmd dir env,
             (r, w') = (Val tt, World (fs w8) (now w8)
                                      (log w8 ++ [ev1; Popen cmd dir env;
                                                  Log LPrint (MSummary n);
                                                  Log LPrint MCompleted]))
             ∧ P ev1).
  { unfold launch_game, summary, step, print in H. munfold.
    destruct (negb mp); [|destruct (is_windows host)]; simpl in H; rewrite <- H;
      rewrite <- !(assoc_L (++)); simpl; eexists _, _, _, _; (split; [reflexivity|]);
      apply P_log. }
  destruct Hl as (ev1 & cmd & dir & env & [= -> ->] & Hev).
  eexists. split; [reflexivity|]. left. split; [done|]. split; [done|].
  exists [ev1], cmd, dir, env, n. split; [done|]. by constructor.
Qed.

(** X3 -- The game (or the multiplayer starter) is launched only by a run
    that ends normally without [no_launch], and then exactly once, as the
    last action before the two summary lines.  A run that is told not to
    launch, or that ends with an exit or an exception at any stage, launches
    nothing. *)
Theorem game_launched_only_at_the_end (host : platform) (c : config)
    (w : world) (r : res unit) (w' : world) :
  main host c w = (r, w') →
  ∃ evs, log w' = log w ++ evs ∧
    ((r = Val tt ∧ no_launch c = false
      ∧ ∃ pre cmd dir env n,
          evs = pre ++ [Popen cmd dir env; Log LPrint (MSummary n);
                        Log LPrint MCompleted]
          ∧ Forall (λ e, ¬ launches e) pre)
     ∨ ((r ≠ Val tt ∨ no_launch c = true) ∧ Forall (λ e, ¬ launches e) evs)).
Proof. intros H. exact (main_launch_outcome host c w r w' H). Qed.

Lemma game_launched_only_at_the_end_witness :
  ∃ evs, log (main host_idle cfg_launch (world_of fs_project)).2
         = log (world_of fs_project) ++ evs ∧
    (((main host_idle cfg_launch (world_of fs_project)).1 = Val tt
      ∧ no_launch cfg_launch = false
      ∧ ∃ pre cmd dir env n,
          evs = pre ++ [Popen cmd dir env; Log LPrint (MSummary n);
                        Log LPrint MCompleted]
          ∧ Forall (λ e, ¬ launches e) pre)
     ∨ (((main host_idle cfg_launch (world_of fs_project)).1 ≠ Val tt
         ∨ no_launch cfg_launch = true)
        ∧ Forall (λ e, ¬ launches e) evs)).
Proof.
  apply (game_launched_only_at_the_end host_idle cfg_launch (world_of fs_project)).
  vm_compute. reflexivity.
Defined.

(** ** Where a run writes, and what it keeps *)

(** X4 -- A run only writes below the game directory [g], the parent of the
    mods directory: however it ends, and whatever the flags, every path that
    is neither inside [g] nor on the way to it reads the same afterwards,
    every path outside [g] keeps its kind, and the add-ons, which lie
    outside [g], are left as they were. *)
Theorem run_writes_only_below_game_dir (host : platform) (c : config)
    (g : path) (m : string) (w : world) (r : res unit) (w' : world) :
  resolve host (mods_dir c) = child g m →
  (∀ p, p ∈ addon_sources host c → unrelated g p) →
  main host c w = (r, w') →
  (∀ q, unrelated g q → get (fs w') q = get (fs w) q)
  ∧ (∀ q, ¬ g `prefix_of` q →
          is_file (fs w') q = is_file (fs w) q
          ∧ (is_dir (fs w) q = true → is_dir (fs w') q = true))
  ∧ (∀ p, p ∈ addon_sources host c → get (fs w') p = get (fs w) p).
Proof.
  intros Hm Hs H.
  destruct (eff_main host c g m False Hm Hs ltac:(done) ltac:(done) ltac:(done)
              w r w' H) as (Hc & _).
  split; [|split].
  - intros q Hq. by apply (confined_unrelated g).
  - intros q Hq. by apply (Hc q Hq).
  - intros p Hp. apply (confined_unrelated g); [done|by apply Hs].
Qed.

Lemma run_writes_only_below_game_dir_witness :
  let run := main host_idle (cfg_with_mods ["extras/Tool"] true) (world_of fs_with_tool) in
  (∀ q, unrelated ["game"] q → get (fs run.2) q = get fs_with_tool q)
  ∧ (∀ q, ¬ ["game"] `prefix_of` q →
          is_file (fs run.2) q = is_file fs_with_tool q
          ∧ (is_dir fs_with_tool q = true → is_dir (fs run.2) q = true))
  ∧ (∀ p, p ∈ addon_sources host_idle (cfg_with_mods ["extras/Tool"] true) →
          get (fs run.2) p = get fs_with_tool p).
Proof.
  intros run.
  apply (run_writes_only_below_game_dir host_idle (cfg_with_mods ["extras/Tool"] true)
           ["game"] "Mods" (world_of fs_with_tool) run.1 run.2).
  - reflexivity.
  - intros p Hp. vm_compute in Hp. apply list_elem_of_singleton in Hp as ->.
    split; intros [k Hk]; vm_compute in Hk; discriminate Hk.
  - vm_compute. reflexivity.
Defined.

(** X5 -- Without [clean], a run never removes an entry of the game
    directory or of the mods directory, forced or not: whatever existed
    directly in either of them (or above) still exists afterwards, and what
    was a directory there is still one.  The add-ons and the built mod are
    taken to lie outside the game directory and to have a name. *)
Theorem run_without_clean_keeps_entries (host : platform) (c : config)
    (g : path) (m : string) (w : world) (r : res unit) (w' : world) :
  clean c = false →
  resolve host (mods_dir c) = child g m →
  (∀ p, p ∈ addon_sources host c → unrelated g p ∧ name p ≠ "") →
  unrelated g (resolve host (target c)) ∧ name (resolve host (target c)) ≠ "" →
  main host c w = (r, w') →
  ∀ q, (length q ≤ S (S (length g)))%nat →
       (exists_ (fs w) q = true → exists_ (fs w') q = true)
       ∧ (is_dir (fs w) q = true → is_dir (fs w') q = true).
Proof.
  intros Hcl Hm Hs Ht H.
  destruct (eff_main host c g m True Hm (λ p Hp, proj1 (Hs p Hp))
              (λ _ p Hp, proj2 (Hs p Hp)) (λ _, Ht) (λ _, Hcl) w r w' H)
    as (_ & Hsafe & _).
  by apply Hsafe.
Qed.

Lemma run_without_clean_keeps_entries_witness :
  let run := main host_idle (cfg_with_mods ["extras/Tool"] true) (world_of fs_with_tool) in
  (exists_ fs_with_tool ["game"; "Game.exe"] = true →
   exists_ (fs run.2) ["game"; "Game.exe"] = true)
  ∧ (is_dir fs_with_tool ["game"; "Game.exe"] = true →
     is_dir (fs run.2) ["game"; "Game.exe"] = true).
Proof.
  intros run.
  apply (run_without_clean_keeps_entries host_idle (cfg_with_mods ["extras/Tool"] true)
           ["game"] "Mods" (world_of fs_with_tool) run.1 run.2).
  - reflexivity.
  - reflexivity.
  - intros p Hp. vm_compute in Hp. apply list_elem_of_singleton in Hp as ->.
    split; [split; intros [k Hk]; vm_compute in Hk; discriminate Hk|].
    vm_compute. discriminate.
  - split; [split; intros [k Hk]; vm_compute in Hk; discriminate Hk|].
    vm_compute. discriminate.
  - vm_compute. reflexivity.
  - simpl. lia.
Defined.

(** ** Looking up a sub-root by name *)

(** X6 -- For a parent that is not a regular file and any requested name,
    [find_subdir_case_insensitive] returns nothing when the parent does not
    exist; what it returns is an immediate entry of the parent that is a
    directory and whose name equals the requested one up to letter case; it
    returns nothing exactly when the parent has no such subdirectory; and
    the letter case of the requested name does not matter. *)
Theorem find_subdir_sound_and_complete (s : node) (p : path) (nm : string) :
  is_file s p = false →
  (exists_ s p = false → find_subdir_case_insensitive s p nm = None)
  ∧ (∀ sub, find_subdir_case_insensitive s p nm = Some sub →
       ∃ n, sub = child p n ∧ n ∈ listdir s p ∧ is_dir s sub = true
            ∧ lower n = lower nm)
  ∧ (find_subdir_case_insensitive s p nm = None
     ↔ ∀ n, is_dir s (child p n) = true → lower n ≠ lower nm)
  ∧ (∀ nm', lower nm' = lower nm →
       find_subdir_case_insensitive s p nm' = find_subdir_case_insensitive s p nm).
Proof.
  intros _. split; [|split; [|split]].
  - intros He. unfold find_subdir_case_insensitive. by rewrite He.
  - intros sub H. by apply find_subdir_Some.
  - split.
    + intros H n. by apply find_subdir_None.
    + intros H. destruct (find_subdir_case_insensitive s p nm) as [sub|] eqn:E; [|done].
      apply find_subdir_Some in E as (n & -> & _ & Hd & Hl). by destruct (H n Hd).
  - intros nm' Hl. by apply find_subdir_lower.
Qed.

Lemma find_subdir_sound_and_complete_witness :
  (exists_ fs_case ["X"] = false
   → find_subdir_case_insensitive fs_case ["X"] "mods" = None)
  ∧ (∀ sub, find_subdir_case_insensitive fs_case ["X"] "mods" = Some sub →
       ∃ n, sub = child ["X"] n ∧ n ∈ listdir fs_case ["X"]
            ∧ is_dir fs_case sub = true ∧ lower n = lower "mods")
  ∧ (find_subdir_case_insensitive fs_case ["X"] "mods" = None
     ↔ ∀ n, is_dir fs_case (child ["X"] n) = true → lower n ≠ lower "mods")
  ∧ (∀ nm', lower nm' = lower "mods" →
       find_subdir_case_insensitive fs_case ["X"] nm'
       = find_subdir_case_insensitive fs_case ["X"] "mods").
Proof.
  apply (find_subdir_sound_and_complete fs_case ["X"] "mods"). reflexivity.
Defined.

(** ** The commands a run executes *)

Section MainLogs.
Context (P : event → Prop) (P_log : ∀ l m, P (Log l m))
        (P_slept : ∀ d, P (Slept d)) (P_popen : ∀ cmd dir env, P (Popen cmd dir env)).
Variable host : platform.
Hypothesis P_kill : ∀ exe wait prefix w, adds P (kill_processes host exe wait prefix) w.

Lemma adds_launch_game exe args uw wb prefix wd w :
  adds P (launch_game exe args uw wb prefix wd) w.
Proof. unfold launch_game. cbv zeta. adds_solve. Qed.

Lemma adds_main c w : adds P (main host c) w.
Proof.
  unfold main. cbv zeta. adds_solve;
    first [ by apply adds_check_pairing | by apply adds_ensure_dir | apply P_kill
          | by apply adds_clean_mods_dir | by apply adds_copy_stages
          | by apply adds_summary | apply adds_launch_game | idtac ].
Qed.

End MainLogs.

Lemma windows_kill host exe wait prefix w :
  is_windows host = true →
  adds windows_only (kill_processes host exe wait prefix) w.
Proof.
  intros Hw.
  assert (Hrun : ∀ w1, adds windows_only (is_running host exe) w1).
  { intros w1. unfold is_running. rewrite Hw. adds_solve. simpl. auto. }
  assert (Hloop : ∀ fuel deadline w1,
            adds windows_only (wait_loop host fuel exe deadline) w1).
  { induction fuel as [|f IH]; intros deadline w1; simpl; adds_solve;
      first [apply Hrun | apply IH | done]. }
  unfold kill_processes, wait_for_exit. rewrite Hw. cbv zeta. adds_solve;
    first [apply Hloop | done | simpl; auto].
Qed.

Lemma unix_kill host exe wait prefix w :
  is_windows host = false →
  adds unix_only (kill_processes host exe wait prefix) w.
Proof.
  intros Hw.
  assert (Hrun : ∀ w1, adds unix_only (is_running host exe) w1).
  { intros w1. unfold is_running. rewrite Hw. adds_solve. simpl. auto. }
  assert (Hloop : ∀ fuel deadline w1,
            adds unix_only (wait_loop host fuel exe deadline) w1).
  { induction fuel as [|f IH]; intros deadline w1; simpl; adds_solve;
      first [apply Hrun | apply IH | done]. }
  unfold kill_processes, wait_for_exit, find_wineserver. rewrite Hw. cbv zeta.
  adds_solve; first [apply Hloop | done | simpl; eauto 6].
Qed.

(** X7 -- The external commands of a run are those of its platform.  On
    Windows every command a run executes is [taskkill] or [tasklist]; on any
    other host it is [which], [pkill], [pgrep], or the Wine server called
    with [-k].  This holds however the run ends. *)
Theorem commands_follow_the_platform (host : platform) (c : config)
    (w : world) (r : res unit) (w' : world) :
  main host c w = (r, w') →
  ∃ evs, log w' = log w ++ evs
         ∧ Forall (if is_windows host then windows_only else unix_only) evs.
Proof.
  intros H. destruct (is_windows host) eqn:Hw.
  - apply (adds_main windows_only) in H; try done.
    intros. by apply windows_kill.
  - apply (adds_main unix_only) in H; try done.
    intros. by apply unix_kill.
Qed.

Lemma commands_follow_the_platform_witness :
  ∃ evs, log (main host_stuck cfg_launch (world_of fs_project)).2
         = log (world_of fs_project) ++ evs
         ∧ Forall (if is_windows host_stuck then windows_only else unix_only) evs.
Proof.
  apply (commands_follow_the_platform host_stuck cfg_launch (world_of fs_project)
           (main host_stuck cfg_launch (world_of fs_project)).1).
  vm_compute. reflexivity.
Defined.

(** X8 -- The copy stages (the add-ons, then the built mod) and the cleaning
    of the mods directory only log messages: however they end, they have run
    no command, launched nothing, and neither slept nor moved the clock. *)
Theorem copy_stages_only_log (host : platform) (c : config) (mp : bool) (w : world) :
  (∀ r w', copy_stages host c mp w = (r, w') →
     now w' = now w ∧ ∃ evs, log w' = log w ++ evs ∧ Forall is_log evs)
  ∧ (∀ p r w', clean_mods_dir p w = (r, w') →
       now w' = now w ∧ ∃ evs, log w' = log w ++ evs ∧ Forall is_log evs).
Proof.
  split.
  - intros r w' H. split.
    + destruct (fs_det_copy_stages host c mp w w eq_refl) as (r0 & s & evs & E & _).
      rewrite E in H. by injection H as <- <-.
    + by apply (adds_copy_stages is_log ltac:(done) host c mp w r w').
  - intros p r w' H. split.
    + destruct (fs_det_clean_mods_dir p w w eq_refl) as (r0 & s & evs & E & _).
      rewrite E in H. by injection H as <- <-.
    + by apply (adds_clean_mods_dir is_log ltac:(done) p w r w').
Qed.

(** ** A structured copy merges into the mods directory *)

Lemma copy_entries_frame dst items q : ∀ w r w',
  for_each items (copy_entry dst) w = (r, w') →
  (∀ item, item ∈ items → unrelated (child dst (name item)) q) →
  get (fs w') q = get (fs w) q.
Proof.
  induction items as [|i items IH]; intros w r w' H Hu.
  - by apply ret_inv in H as [_ ->].
  - simpl in H. apply bind_inv in H as [(a & w1 & H1 & H)|(e & H1 & _)].
    + apply copy_entry_effect in H1 as (_ & _ & Hc & _).
      rewrite (IH _ _ _ H (λ x Hx, Hu x ltac:(by right))).
      apply (confined_unrelated _ _ _ _ Hc). apply Hu. by left.
    + apply copy_entry_effect in H1 as (_ & _ & Hc & _).
      apply (confined_unrelated _ _ _ _ Hc). apply Hu. by left.
Qed.

Lemma sibling_part_frame g m nm p q w r w' :
  nm ≠ m → nm ≠ "" → child g m `prefix_of` q →
  (let* subdir := test (λ s, find_subdir_case_insensitive s p nm) in
   match subdir with
   | Some sub =>
       let dst := joinpath (parent (child g m)) nm in
       fs_op (λ s, mkdir_p s dst) >>
       let* items := test (λ s, iterdir s sub) in
       for_each items (copy_entry dst)
   | None => ret tt
   end) w = (r, w') →
  get (fs w') q = get (fs w) q.
Proof.
  intros Hne Hnm Hq H. rewrite parent_child, (joinpath_child _ _ Hnm) in H.
  cbv zeta in H. unfold bind at 1, test at 1 in H.
  destruct (find_subdir_case_insensitive (fs w) p nm) as [sub|];
    [|by apply ret_inv in H as [_ ->]].
  assert (Hu : ∀ t, child g nm `prefix_of` t → unrelated t q).
  { intros t Ht. by apply (unrelated_child_ext g nm m). }
  apply bind_inv in H as [([] & w1 & H1 & H)|(e & H1 & _)].
  - apply fs_op_inv in H1 as [(s' & Hm & _ & ->)|(_ & [=] & _)].
    unfold bind at 1, test at 1 in H.
    rewrite (copy_entries_frame _ _ q _ _ _ H); simpl.
    + apply (confined_unrelated (child g nm)); [by eapply confined_mkdir_p|by apply Hu].
    + intros item _. apply Hu, child_prefix.
  - apply fs_op_inv in H1 as [(s' & _ & [=] & _)|(_ & _ & ->)]. done.
Qed.

(** X9 -- [copy_structured_mod] merges an add-on into the mods directory
    [g/m] rather than replacing the directory: an entry of the mods
    directory whose name is not that of an entry of the add-on's "Mods"
    sub-root reads the same after the copy, with everything below it,
    however the copy ends.  (The mods directory is not itself named
    "Plugins" or "UserLibs".) *)
Theorem structured_copy_merges (p g : path) (m n : string) (w : world)
    (r : res unit) (w' : world) :
  m ≠ "Plugins" → m ≠ "UserLibs" →
  (∀ sub item, find_subdir_case_insensitive (fs w) p "Mods" = Some sub →
               item ∈ iterdir (fs w) sub → name item ≠ n) →
  copy_structured_mod p (child g m) w = (r, w') →
  get (fs w') (child (child g m) n) = get (fs w) (child (child g m) n).
Proof.
  intros Hp Hl Hnames H. set (q := child (child g m) n).
  assert (Hq : child g m `prefix_of` q) by apply child_prefix.
  unfold copy_structured_mod in H. unfold bind at 1, test at 1 in H.
  destruct (exists_ (fs w) p); cbn [negb] in H.
  2:{ by apply emit_inv in H as [_ ->]. }
  unfold bind at 1, info at 1, emit at 1 in H. set (w0 := World _ _ _) in H.
  assert (Hmods : ∀ r1 w1,
    (let* mods_subdir := test (λ s, find_subdir_case_insensitive s p "Mods") in
     match mods_subdir with
     | Some sub =>
         let* items := test (λ s, iterdir s sub) in
         for_each items (copy_entry (child g m))
     | None => ret tt
     end) w0 = (r1, w1) → get (fs w1) q = get (fs w) q).
  { intros r1 w1 H1. unfold bind at 1, test at 1 in H1.
    change (fs w0) with (fs w) in H1.
    destruct (find_subdir_case_insensitive (fs w) p "Mods") as [sub|] eqn:Hf;
      [|by apply ret_inv in H1 as [_ ->]].
    unfold bind at 1, test at 1 in H1. change (fs w0) with (fs w) in H1.
    rewrite (copy_entries_frame _ _ q _ _ _ H1); [done|].
    intros item Hin. apply unrelated_child. by apply (Hnames sub). }
  apply bind_inv in H as [([] & w1 & H1 & H)|(e & H1 & _)]; [|by eapply Hmods].
  rewrite <- (Hmods _ _ H1).
  apply bind_inv in H as [([] & w2 & H2 & H)|(e & H2 & _)].
  - rewrite <- (sibling_part_frame g m "Plugins" p q _ _ _ ltac:(done) ltac:(done) Hq H2).
    by apply (sibling_part_frame g m "UserLibs" p q _ _ _ ltac:(done) ltac:(done) Hq H).
  - by apply (sibling_part_frame g m "Plugins" p q _ _ _ ltac:(done) ltac:(done) Hq H2).
Qed.

Lemma structured_copy_merges_witness :
  let run := copy_structured_mod ["AddonA"] (child ["D"] "Mods") (world_of fs_merge) in
  get (fs run.2) (child (child ["D"] "Mods") "Old.dll")
  = get (fs (world_of fs_merge)) (child (child ["D"] "Mods") "Old.dll").
Proof.
  intros run.
  apply (structured_copy_merges ["AddonA"] ["D"] "Mods" "Old.dll" (world_of fs_merge)
           run.1 run.2).
  - discriminate.
  - discriminate.
  - intros sub item Hf Hin. vm_compute in Hf. injection Hf as <-.
    vm_compute in Hin. apply list_elem_of_singleton in Hin as ->.
    vm_compute. discriminate.
  - vm_compute. reflexivity.
Defined.

(** ** Single files and flat folders: a failed copy is a warning *)

Lemma stamp_step p ts f w :
  ∃ w1, (if ts && f then let* t := test (λ s, mtime_of s p) in info (MModified t)
         else ret tt) w = (Val tt, w1)
        ∧ fs w1 = fs w ∧ now w1 = now w ∧ ∃ evs, log w1 = log w ++ evs.
Proof.
  destruct (ts && f); munfold; eexists; (split; [reflexivity|]); simpl.
  - split; [done|]. split; [done|]. eauto.
  - split; [done|]. split; [done|]. exists []. by rewrite app_nil_r.
Qed.

Lemma copy2_to_free_target s src t s' :
  copy2 s src t = Some s' → is_dir s t = false → get s' t = get s src.
Proof.
  unfold copy2. intros H Ht. rewrite Ht in H.
  destruct (get s src) as [[tm d|]|]; try done.
  destruct (decide (src = t)); [done|]. rewrite Ht in H.
  by rewrite (put_get _ _ _ _ H).
Qed.

Lemma file_addon_copy p dst skip ts w :
  is_file (fs w) p = true →
  ∃ b w', copy_mod_item p dst skip ts w = (Val b, w') ∧ now w' = now w
    ∧ (b = true → is_dir (fs w) (joinpath dst (name p)) = false →
       get (fs w') (joinpath dst (name p)) = get (fs w) p)
    ∧ (b = false →
       (skip && present (fs w) p dst = true ∧ fs w' = fs w)
       ∨ (fs w' = fs w ∧ Log LWarn (MFailedCopy (name p)) ∈ log w')).
Proof.
  intros Hf. set (t := joinpath dst (name p)).
  assert (Hpr : present (fs w) p dst = exists_ (fs w) t).
  { unfold present. by rewrite Hf. }
  unfold copy_mod_item. fold t.
  unfold bind at 1, test at 1. rewrite (is_file_exists _ _ Hf). cbn [negb].
  unfold bind at 1, test at 1. rewrite Hf.
  destruct (stamp_step p ts true w) as (w1 & H1 & Hfs1 & Hn1 & evs1 & Hl1).
  unfold bind at 1. rewrite H1. unfold bind at 1, test at 1. rewrite Hfs1.
  destruct (skip && exists_ (fs w) t) eqn:Hsk.
  - munfold. eexists false, _. split; [reflexivity|]. simpl. split; [done|].
    split; [done|]. intros _. left. by rewrite Hpr.
  - unfold bind at 1, info at 1, emit at 1. unfold try_, bind, fs_op. simpl.
    rewrite Hfs1. destruct (copy2 (fs w) p t) as [s'|] eqn:Hc.
    + eexists true, _. unfold ret. split; [reflexivity|]. simpl. split; [done|].
      split; [|done]. intros _ Ht. by eapply copy2_to_free_target.
    + eexists false, _. unfold ret, warn, emit. split; [reflexivity|]. simpl.
      split; [done|]. split; [done|]. intros _. right. split; [done|].
      apply elem_of_app. right. by left.
Qed.

Lemma folder_addon_copy p dst skip ts w :
  is_dir (fs w) p = true → has_structure (fs w) p = false →
  ∃ b w', copy_mod_item p dst skip ts w = (Val b, w') ∧ now w' = now w
    ∧ (b = true → unrelated (joinpath dst (name p)) p →
       get (fs w') (joinpath dst (name p)) = get (fs w) p)
    ∧ (b = false →
       (skip && present (fs w) p dst = true ∧ fs w' = fs w)
       ∨ Log LWarn (MFailedCopy (name p)) ∈ log w').
Proof.
  intros Hd Hs. set (t := joinpath dst (name p)).
  pose proof (is_dir_not_file _ _ Hd) as Hf.
  assert (Hpr : present (fs w) p dst = exists_ (fs w) t).
  { unfold present. by rewrite Hf, Hs. }
  unfold copy_mod_item. fold t.
  unfold bind at 1, test at 1. rewrite (is_dir_exists _ _ Hd). cbn [negb].
  unfold bind at 1, test at 1. rewrite Hf.
  destruct (stamp_step p ts false w) as (w1 & H1 & Hfs1 & Hn1 & evs1 & Hl1).
  unfold bind at 1. rewrite H1. unfold bind at 1, test at 1. rewrite Hfs1, Hs.
  unfold bind at 1, test at 1. rewrite Hfs1.
  destruct (skip && exists_ (fs w) t) eqn:Hsk.
  - munfold. eexists false, _. split; [reflexivity|]. simpl. split; [done|].
    split; [done|]. intros _. left. by rewrite Hpr.
  - unfold bind at 1, info at 1, emit at 1. set (w2 := World _ _ _).
    destruct (replace_dir p t w2) as [r3 w3] eqn:Hr.
    pose proof Hr as (Hn3 & _ & Heff)%replace_dir_effect.
    destruct (replace_dir_shape p t w2) as (r3' & s3 & Hr' & Hcase).
    rewrite Hr in Hr'. injection Hr' as <- ->.
    unfold try_, bind. rewrite Hr. destruct Hcase as [-> | ->].
    + eexists true, _. unfold ret. split; [reflexivity|]. simpl. split; [done|].
      split; [|done]. intros _ Hu.
      destruct (Heff Hu) as (_ & Hget & _); [simpl; by rewrite Hfs1|].
      specialize (Hget eq_refl). simpl in Hget. by rewrite Hfs1 in Hget.
    + eexists false, _. unfold ret, warn, emit. split; [reflexivity|]. simpl.
      split; [done|]. split; [done|]. intros _. right.
      apply elem_of_app. right. by left.
Qed.

(** X10 -- For an add-on that is a single file or a flat folder (no "Mods",
    "Plugins" or "UserLibs" sub-root), [copy_mod_item] never raises and
    never moves the clock.  It returns [True] only after the copy was made:
    the destination entry then equals the source (for a file, when the
    destination was not a directory; source and destination apart).  It
    returns [False] either because it skipped, having changed nothing, or
    because the copy failed, which it reports with a warning. *)
Theorem flat_addon_copy_never_raises (p dst : path) (skip ts : bool) (w : world) :
  exists_ (fs w) p = true →
  is_file (fs w) p = true ∨ has_structure (fs w) p = false →
  ∃ b w', copy_mod_item p dst skip ts w = (Val b, w') ∧ now w' = now w
    ∧ (b = true → unrelated (joinpath dst (name p)) p →
       is_dir (fs w) p = true ∨ is_dir (fs w) (joinpath dst (name p)) = false →
       get (fs w') (joinpath dst (name p)) = get (fs w) p)
    ∧ (b = false →
       (skip && present (fs w) p dst = true ∧ fs w' = fs w)
       ∨ Log LWarn (MFailedCopy (name p)) ∈ log w').
Proof.
  intros He Hk. destruct (is_file (fs w) p) eqn:Hf.
  - destruct (file_addon_copy p dst skip ts w Hf) as (b & w' & H & Hn & Ht & Hb).
    exists b, w'. split; [done|]. split; [done|]. split.
    + intros Hbt _ [Hd|Hd]; [|by apply Ht].
      apply is_file_not_dir in Hf. congruence.
    + intros Hbf. destruct (Hb Hbf) as [?|[_ ?]]; auto.
  - destruct Hk as [|Hs]; [done|].
    rewrite exists_is_dir_or_file, Hf, orb_false_r in He.
    destruct (folder_addon_copy p dst skip ts w He Hs) as (b & w' & H & Hn & Ht & Hb).
    exists b, w'. split; [done|]. split; [done|]. split; [|done].
    intros Hbt Hu _. by apply Ht.
Qed.

Lemma flat_addon_copy_never_raises_witness :
  ∃ b w', copy_mod_item ["proj"; "extras"; "Tool"] ["game"; "Mods"] true true
            (world_of fs_with_tool) = (Val b, w')
    ∧ now w' = now (world_of fs_with_tool)
    ∧ (b = true →
       unrelated (joinpath ["game"; "Mods"] (name ["proj"; "extras"; "Tool"]))
                 ["proj"; "extras"; "Tool"] →
       is_dir (fs (world_of fs_with_tool)) ["proj"; "extras"; "Tool"] = true
       ∨ is_dir (fs (world_of fs_with_tool))
                (joinpath ["game"; "Mods"] (name ["proj"; "extras"; "Tool"])) = false →
       get (fs w') (joinpath ["game"; "Mods"] (name ["proj"; "extras"; "Tool"]))
       = get (fs (world_of fs_with_tool)) ["proj"; "extras"; "Tool"])
    ∧ (b = false →
       (true && present (fs (world_of fs_with_tool)) ["proj"; "extras"; "Tool"]
                        ["game"; "Mods"] = true
        ∧ fs w' = fs (world_of fs_with_tool))
       ∨ Log LWarn (MFailedCopy (name ["proj"; "extras"; "Tool"])) ∈ log w').
Proof.
  apply (flat_addon_copy_never_raises ["proj"; "extras"; "Tool"] ["game"; "Mods"]
           true true (world_of fs_with_tool)).
  - reflexivity.
  - right. reflexivity.
Defined.

(** ** The count of copied items *)

Lemma count_each_bounds {A} (l : list A) (body : A → M bool) : ∀ acc w k w',
  count_each l body acc w = (Val k, w') → (acc ≤ k ≤ acc + length l)%nat.
Proof.
  induction l as [|x l IH]; intros acc w k w' H.
  - apply ret_inv in H as [[= <-] _]. simpl. lia.
  - simpl in H. inv_bind H b w1 H1. apply IH in H. simpl. destruct b; lia.
Qed.

Lemma copy_user_mods_bound l base dst force ts w k w' :
  copy_user_mods l base dst force ts w = (Val k, w') → (k ≤ length l)%nat.
Proof.
  intros H. destruct (decide (l = [])) as [->|Hne].
  { apply ret_inv in H as [[= ->] _]. done. }
  rewrite (copy_user_mods_unfold _ _ _ _ _ _ Hne) in H.
  apply count_each_bounds in H.
  pose proof (length_filter (λ p, exists_ (fs w) p = true) (entry_path base <$> l)) as Hl.
  rewrite length_fmap in Hl. lia.
Qed.

Ltac case_if H :=
  match type of H with
  | context [if ?b then _ else _] => destruct b
  end.

Lemma copy_multiplayer_mods_bound host mp st dst force w k w' :
  copy_multiplayer_mods host mp st dst force w = (Val k, w') → (k ≤ 2)%nat.
Proof.
  intros H. unfold copy_multiplayer_mods in H.
  unfold bind at 1, step at 1, emit at 1 in H.
  unfold bind at 1, test at 1 in H.
  inv_bind H count w2 H1.
  assert (Hc : (count ≤ 1)%nat).
  { case_if H1.
    - inv_bind H1 u w1 He. apply ret_inv in H1 as [[= ->] _]. lia.
    - inv_bind H1 copied w1 H1'.
      destruct copied; inv_bind H1 u w3 He; apply ret_inv in H1 as [[= ->] _]; lia. }
  clear H1. unfold bind at 1, test at 1 in H. case_if H.
  { inv_bind H u w1 He. apply ret_inv in H as [[= ->] _]. lia. }
  unfold bind at 1, test at 1 in H. case_if H.
  - apply try_inv in H as [(a & H & [= ->])|(e & w3 & _ & H)].
    + inv_bind H u w3 H3. inv_bind H u' w4 H4. apply ret_inv in H as [[= ->] _]. lia.
    + inv_bind H u w4 He. apply ret_inv in H as [[= ->] _]. lia.
  - inv_bind H u w1 He. apply ret_inv in H as [[= ->] _]. lia.
Qed.

Lemma copy_library_mods_bound host a b dst force w k w' :
  copy_library_mods host a b dst force w = (Val k, w') →
  (k ≤ (if truthy a then 1 else 0) + (if truthy b then 1 else 0))%nat.
Proof.
  intros H. unfold copy_library_mods in H. inv_bind H count w1 H1.
  assert (Hc : (count ≤ if truthy a then 1 else 0)%nat).
  { destruct (truthy a).
    - unfold bind at 1, step at 1, emit at 1 in H1. inv_bind H1 copied w2 H2.
      apply ret_inv in H1 as [[= ->] _]. destruct copied; lia.
    - apply ret_inv in H1 as [[= ->] _]. lia. }
  destruct (truthy b).
  - unfold bind at 1, step at 1, emit at 1 in H. inv_bind H copied w2 H2.
    apply ret_inv in H as [[= ->] _]. destruct copied; lia.
  - apply ret_inv in H as [[= ->] _]. lia.
Qed.

(** X11 -- The total the run reports counts the built mod and at most one
    for each requested add-on: when the copy stages end normally their
    count is at least one and at most one plus the number of entries of the
    mod list, two for the multiplayer pair when it is given, and one for
    each library mod that is given. *)
Theorem copied_count_bounds (host : platform) (c : config) (mp : bool)
    (w : world) (n : nat) (w' : world) :
  copy_stages host c mp w = (Val n, w') →
  (1 ≤ n
   ≤ 1 + length (mod_ c) + (if mp then 2 else 0)
     + (if truthy (s1api_path c) then 1 else 0)
     + (if truthy (unity_explorer_path c) then 1 else 0))%nat.
Proof.
  intros H. apply copy_stages_inv in H as (k & w1 & H & -> & _).
  unfold addon_stages in H. inv_bind H n1 wa H1. inv_bind H n2 wb H2.
  inv_bind H n3 wc H3. apply ret_inv in H as [[= ->] _].
  apply copy_user_mods_bound in H1. apply copy_library_mods_bound in H3.
  assert (n2 ≤ if mp then 2 else 0)%nat.
  { destruct mp; [by eapply copy_multiplayer_mods_bound|].
    apply ret_inv in H2 as [[= ->] _]. lia. }
  lia.
Qed.

Lemma copied_count_bounds_witness :
  (1 ≤ 2
   ≤ 1 + length (mod_ (cfg_with_mods ["extras/Tool"; "missing.dll"] false))
     + (if false then 2 else 0)
     + (if truthy (s1api_path (cfg_with_mods ["extras/Tool"; "missing.dll"] false))
        then 1 else 0)
     + (if truthy (unity_explorer_path
                     (cfg_with_mods ["extras/Tool"; "missing.dll"] false))
        then 1 else 0))%nat.
Proof.
  apply (copied_count_bounds host_idle (cfg_with_mods ["extras/Tool"; "missing.dll"] false)
           false (world_of fs_with_tool) 2
           (copy_stages host_idle (cfg_with_mods ["extras/Tool"; "missing.dll"] false)
                        false (world_of fs_with_tool)).2).
  vm_compute. reflexivity.
Defined.

(** ** The debug flag *)

Lemma bind_ext_val {A B} (m : M A) (k k' : A → M B) w :
  (∀ a w1, m w = (Val a, w1) → k a w1 = k' a w1) → bind m k w = bind m k' w.
Proof.
  intros H. unfold bind. destruct (m w) as [[a|e] w1] eqn:E; [by apply H|done].
Qed.

(** X12 -- The debug flag reaches nothing but the arguments of the launch.
    It changes nothing at all in a run with [no_launch], nor in a
    multiplayer run on a host that is not Windows, where the starter is
    started without arguments: such runs give the same result, file system
    and log with the flag as without. *)
Theorem debug_flag_only_reaches_the_launch (host : platform) (c : config)
    (b : bool) (w : world) :
  no_launch c = true
  ∨ (truthy (mp_mod c) && truthy (mp_starter c) = true ∧ is_windows host = false) →
  main host (with_debug b c) w = main host c w.
Proof.
  intros Hcase. unfold main. cbn [with_debug target mods_dir exe_path project_dir
    wait_seconds launch_delay mod_ mp_mod mp_starter s1api_path unity_explorer_path
    debug clean no_launch force_copy show_timestamps wine_binary wine_prefix].
  cbv zeta.
  apply bind_ext_val. intros te w1 _. destruct (negb te); [done|].
  change (check_pairing (with_debug b c)) with (check_pairing c).
  apply bind_ext_val. intros mp w2 Hcp. apply check_pairing_val in Hcp as (_ & -> & _).
  apply bind_ext_val. intros _ w3 _.
  apply bind_ext_val. intros _ w4 _.
  apply bind_ext_val. intros _ w5 _.
  apply bind_ext_val. intros _ w6 _.
  change (copy_stages host (with_debug b c)) with (copy_stages host c).
  apply bind_ext_val. intros n w7 _.
  destruct Hcase as [-> | [-> ->]]; [done|].
  destruct (no_launch c); [done|].
  apply bind_ext_val. intros _ w8 _. reflexivity.
Qed.

Lemma debug_flag_only_reaches_the_launch_witness :
  main host_idle (with_debug true cfg_basic) (world_of fs_project)
  = main host_idle cfg_basic (world_of fs_project).
Proof.
  apply (debug_flag_only_reaches_the_launch host_idle cfg_basic true (world_of fs_project)).
  left. reflexivity.
Defined.

(** ** The multiplayer starter *)

Lemma file_addon_confined p dst skip ts w r w' :
  is_file (fs w) p = true →
  copy_mod_item p dst skip ts w = (r, w') → confined dst (fs w) (fs w').
Proof.
  intros Hf H. unfold copy_mod_item in H.
  unfold bind at 1, test at 1 in H. rewrite (is_file_exists _ _ Hf) in H.
  cbn [negb] in H. unfold bind at 1, test at 1 in H. rewrite Hf in H.
  destruct (stamp_step p ts true w) as (w1 & H1 & Hfs1 & _).
  unfold bind at 1 in H. rewrite H1 in H. unfold bind at 1, test at 1 in H.
  case_if H.
  - apply bind_inv in H as [(u & w2 & He & H)|(e & He & _)];
      [|by apply emit_inv in He as [[=] _]].
    apply emit_inv in He as [_ ->]. apply ret_inv in H as [_ ->].
    simpl. rewrite Hfs1. apply confined_refl.
  - unfold bind at 1, info at 1, emit at 1 in H.
    apply try_inv in H as [(a & H & _)|(e & w3 & H & Hh)].
    + apply bind_inv in H as [(u & w3 & Hc & H)|(e & _ & [=])].
      apply ret_inv in H as [_ ->].
      apply fs_op_inv in Hc as [(s' & Hc & _ & ->)|(_ & [=] & _)]. simpl in *.
      rewrite Hfs1 in Hc. apply confined_copy2 in Hc.
      apply (confined_mono dst) in Hc; [done|apply joinpath_prefix].
    + apply bind_inv in H as [(u & w4 & _ & H)|(e' & Hc & _)].
      { by apply ret_inv in H as [[=] _]. }
      apply fs_op_inv in Hc as [(s' & _ & [=] & _)|(_ & _ & ->)].
      apply bind_inv in Hh as [(u & w5 & He & Hh)|(e2 & He & _)];
        [|by apply emit_inv in He as [[=] _]].
      apply emit_inv in He as [_ ->]. apply ret_inv in Hh as [_ ->].
      simpl. rewrite Hfs1. apply confined_refl.
Qed.

(** X13 -- The multiplayer starter is put beside the mods directory, in the
    game directory [g], under its own name.  Let the multiplayer mod be a
    single file or missing, and the starter lie outside [g] under a name
    other than that of the mods directory.  When [copy_multiplayer_mods]
    returns: without [force_copy] an entry of the starter's name that was
    already in [g] is left exactly as it was; and a starter that is a
    regular file, with [g] a directory and no directory in its place, is
    copied there when nothing of that name existed or [force_copy] is set. *)
Theorem starter_goes_beside_mods_dir (host : platform) (mp st : string)
    (g : path) (m : string) (force : bool) (w : world) (k : nat) (w' : world) :
  copy_multiplayer_mods host mp st (child g m) force w = (Val k, w') →
  is_file (fs w) (resolve host mp) = true ∨ exists_ (fs w) (resolve host mp) = false →
  name (resolve host st) ≠ "" → name (resolve host st) ≠ m →
  unrelated g (resolve host st) →
  (exists_ (fs w) (child g (name (resolve host st))) = true → force = false →
   get (fs w') (child g (name (resolve host st)))
   = get (fs w) (child g (name (resolve host st))))
  ∧ (is_file (fs w) (resolve host st) = true → is_dir (fs w) g = true →
     is_dir (fs w) (child g (name (resolve host st))) = false →
     exists_ (fs w) (child g (name (resolve host st))) = false ∨ force = true →
     get (fs w') (child g (name (resolve host st))) = get (fs w) (resolve host st)).
Proof.
  intros H Hmp Hn Hnm Hu.
  set (src := resolve host st) in *. set (dst := child g (name src)).
  unfold copy_multiplayer_mods in H. fold src in H.
  rewrite parent_child, (joinpath_child _ _ Hn) in H. fold dst in H.
  unfold bind at 1, step at 1, emit at 1 in H. set (w0 := World _ _ _) in H.
  unfold bind at 1, test at 1 in H. change (fs w0) with (fs w) in H.
  inv_bind H count w2 H1.
  assert (Hc : confined (child g m) (fs w) (fs w2)).
  { destruct (exists_ (fs w) (resolve host mp)) eqn:He; cbn [negb] in H1.
    - destruct Hmp as [Hf|?]; [|done].
      inv_bind H1 copied w1 Hcp.
      apply file_addon_confined in Hcp; [|done].
      assert (fs w2 = fs w1) as ->; [|done].
      destruct copied; inv_bind H1 u w3 He'; apply emit_inv in He' as [_ ->];
        by apply ret_inv in H1 as [_ ->].
    - inv_bind H1 u w3 He'. apply emit_inv in He' as [_ ->].
      apply ret_inv in H1 as [_ ->]. apply confined_refl. }
  assert (Hdst : get (fs w2) dst = get (fs w) dst).
  { apply (confined_unrelated _ _ _ _ Hc). apply unrelated_child. congruence. }
  assert (Hsrc : get (fs w2) src = get (fs w) src).
  { apply (confined_unrelated _ _ _ _ Hc). by apply unrelated_app_l. }
  assert (Hg : is_dir (fs w) g = true → is_dir (fs w2) g = true).
  { apply (Hc g). intros [k' Hk']. apply (f_equal length) in Hk'.
    unfold child in Hk'. rewrite !length_app in Hk'. simpl in Hk'. lia. }
  clear H1. unfold bind at 1, test at 1 in H. rewrite (exists_same _ _ _ Hsrc) in H.
  destruct (exists_ (fs w) src) eqn:Hes; cbn [negb] in H.
  2:{ inv_bind H u w3 He'. apply emit_inv in He' as [_ ->]. apply ret_inv in H as [_ ->].
      simpl. split; [done|]. intros Hf. apply is_file_exists in Hf. congruence. }
  unfold bind at 1, test at 1 in H. rewrite (exists_same _ _ _ Hdst) in H.
  split.
  - intros Hed ->. rewrite Hed in H. cbn [negb orb] in H.
    inv_bind H u w3 He'. apply emit_inv in He' as [_ ->]. by apply ret_inv in H as [_ ->].
  - intros Hf Hdg Hdd Hcase.
    assert (Hgo : negb (exists_ (fs w) dst) || force = true).
    { destruct Hcase as [-> | ->]; [done|by rewrite orb_true_r]. }
    rewrite Hgo in H.
    destruct (copy2_ok (fs w2) src dst) as (s' & Hcp & Hget).
    { by rewrite (is_file_same _ _ _ Hsrc). }
    { by rewrite (is_dir_same _ _ _ Hdst). }
    { intros E. destruct Hu as [Hu _]. apply Hu. rewrite E. apply child_prefix. }
    { apply child_ne_nil. }
    { unfold dst. rewrite parent_child. by apply Hg. }
    unfold try_, bind at 1 2, fs_op at 1 in H. rewrite Hcp in H.
    unfold bind, ok, emit, ret in H. injection H as _ <-. simpl. by rewrite Hget.
Qed.

Lemma starter_goes_beside_mods_dir_witness :
  let run := copy_multiplayer_mods host_idle "mp/MpMod.dll" "mp/start.bat"
               (child ["game"] "Mods") false (world_of fs_multiplayer) in
  (exists_ fs_multiplayer (child ["game"] (name (resolve host_idle "mp/start.bat")))
   = true → false = false →
   get (fs run.2) (child ["game"] (name (resolve host_idle "mp/start.bat")))
   = get fs_multiplayer (child ["game"] (name (resolve host_idle "mp/start.bat"))))
  ∧ (is_file fs_multiplayer (resolve host_idle "mp/start.bat") = true →
     is_dir fs_multiplayer ["game"] = true →
     is_dir fs_multiplayer (child ["game"] (name (resolve host_idle "mp/start.bat")))
     = false →
     exists_ fs_multiplayer (child ["game"] (name (resolve host_idle "mp/start.bat")))
     = false ∨ false = true →
     get (fs run.2) (child ["game"] (name (resolve host_idle "mp/start.bat")))
     = get fs_multiplayer (resolve host_idle "mp/start.bat")).
Proof.
  intros run.
  apply (starter_goes_beside_mods_dir host_idle "mp/MpMod.dll" "mp/start.bat"
           ["game"] "Mods" false (world_of fs_multiplayer) 2 run.2).
  - vm_compute. reflexivity.
  - left. reflexivity.
  - vm_compute. discriminate.
  - vm_compute. discriminate.
  - split; intros [k Hk]; vm_compute in Hk; discriminate Hk.
Defined.

(** ** Runs that stop before doing anything *)

(** X14 -- A run whose inputs are unusable stops before any side effect: the
    file system and the clock are as they were and only messages were
    logged -- no process was stopped, nothing cleaned, copied or launched.
    This is so when the built mod does not exist (exit status 1), when, on a
    host that is not Windows, the Wine binary does not exist (exit status
    1), and when the mods directory cannot be made because a regular file
    stands on the way to it (the exception of [mkdir] leaves [main]). *)
Theorem unusable_inputs_stop_the_run (host : platform) (c : config) (w : world) :
  (exists_ (fs w) (resolve host (target c)) = false →
   main host c w
   = (Exc (Exit 1),
      World (fs w) (now w)
            (log w ++ [Log LError (MTargetNotFound (resolve host (target c)))])))
  ∧ (exists_ (fs w) (resolve host (target c)) = true →
     truthy (mp_mod c) = truthy (mp_starter c) →
     is_windows host = false →
     exists_ (fs w) (resolve host (wine_binary c)) = false →
     ∃ evs, main host c w = (Exc (Exit 1), World (fs w) (now w) (log w ++ evs))
            ∧ Forall is_log evs
            ∧ last evs = Some (Log LError (MBinaryNotFound (wine_binary c))))
  ∧ (exists_ (fs w) (resolve host (target c)) = true →
     truthy (mp_mod c) = truthy (mp_starter c) →
     (is_windows host = false →
      exists_ (fs w) (resolve host (wine_binary c)) = true) →
     (∃ q, q `prefix_of` resolve host (mods_dir c) ∧ is_file (fs w) q = true) →
     ∃ evs, main host c w = (Exc OSError, World (fs w) (now w) (log w ++ evs))
            ∧ Forall is_log evs).
Proof.
  split; [|split].
  - intros He. unfold main. cbv zeta. unfold bind at 1, test at 1. rewrite He.
    reflexivity.
  - intros He Hp Hw Hb. unfold main. cbv zeta. unfold bind at 1, test at 1.
    rewrite He. cbn [negb].
    assert (check_pairing c w = (Val (truthy (mp_mod c) && truthy (mp_starter c)), w))
      as Hcp.
    { unfold check_pairing. rewrite Hp. by destruct (truthy (mp_starter c)). }
    unfold bind at 1. rewrite Hcp. rewrite Hw. cbn [negb].
    unfold info, error. munfold. cbn [fs now log]. rewrite Hb. cbn [negb].
    simpl. rewrite <- !(assoc_L (++)). simpl.
    eexists. split; [reflexivity|]. split; [|done]. repeat constructor.
  - intros He Hp Hw (q & Hq & Hf). unfold main. cbv zeta. unfold bind at 1, test at 1.
    rewrite He. cbn [negb].
    assert (check_pairing c w = (Val (truthy (mp_mod c) && truthy (mp_starter c)), w))
      as Hcp.
    { unfold check_pairing. rewrite Hp. by destruct (truthy (mp_starter c)). }
    unfold bind at 1. rewrite Hcp.
    assert (Hm : mkdirs (fs w) (resolve host (mods_dir c)) = None).
    { destruct (mkdirs (fs w) (resolve host (mods_dir c))) as [s'|] eqn:E; [|done].
      pose proof (mkdirs_Some_inv _ _ _ q E Hq). congruence. }
    destruct (is_windows host) eqn:Hwin; cbn [negb].
    + unfold ensure_dir, fs_op, mkdir_p. munfold. cbn [fs now log]. rewrite Hm.
      exists []. rewrite app_nil_r, world_eta. split; [reflexivity|constructor].
    + unfold info, error, ensure_dir, fs_op, mkdir_p. munfold. cbn [fs now log].
      rewrite (Hw eq_refl). cbn [negb fs now log]. rewrite Hm.
      simpl. rewrite <- !(assoc_L (++)). simpl.
      eexists. split; [reflexivity|]. repeat constructor.
Qed.
